(** * The spatial world engine of bomberman-socket: [World] and [WorldObject]

    A shallow embedding of [world.ts] (class [World], class
    [ErrorOverlappingObject]), of the base class [WorldObject] of
    [world.object.ts], of the [init] with which [Player] overrides the one
    of the base class and of [EventCenter.objectIntersect], followed by the
    properties of the grid that the specification states.

    - JavaScript numbers that hold coordinates, sizes and indices are [Z]:
      their sums and comparisons are those of the integers as long as the
      values are integers that a number holds exactly ([safeInteger]).
    - A JavaScript array is a finite map from integer keys to values: a key
      that is absent reads as [undefined], a write to an absent key creates
      it.  The cell buffer [_map] is an array of such rows.
    - A method that mutates [this] and may [throw] is a function from the
      state to a completion and the state reached; the state reached is
      kept when the method throws, as the writes made before a [throw] stay
      in the object. *)

From Stdlib Require Import ZArith Lia.
From stdpp Require Import base option list list_numbers strings gmap fin_maps.

Open Scope Z_scope.

(** ** Completions and the state-and-exception monad *)

Definition WorldObjectID := string.

(** What a slot of the cell buffer can read as: a hole of the array
    ([undefined]), [null], or the identity of its occupant. *)
Inductive Cell :=
  | undefined
  | null
  | occupant (id : WorldObjectID).

Global Instance Cell_eq_dec : EqDecision Cell.
Proof. solve_decision. Defined.
Global Instance Cell_inhabited : Inhabited Cell := populate undefined.

(** [c !== null] *)
Definition isNotNull (c : Cell) : bool :=
  match c with null => false | _ => true end.

Inductive Error :=
  | Error_WorldNotInitialized
      (* new Error("World is not initialized") *)
  | Error_PositionRequired
      (* new Error("Either oldPosition or newPosition must be provided") *)
  | Error_OutOfBounds (x y : Z)
      (* new Error(`Position ${x}, ${y} is out of bounds`) *)
  | Error_ObjectNotInitialized (id : WorldObjectID)
      (* new Error(`object '${id}' is not initialized`) *)
  | ErrorOverlappingObject (objectID : WorldObjectID) (existingObjectID : Cell)
  | Error_InvalidInitProperties
      (* new Error("Invalid init properties") *)
  | TypeError.
      (* indexing [undefined] *)

Inductive Completion (A : Type) :=
  | Normal (a : A)
  | Throw (e : Error).
Global Arguments Normal {A} a.
Global Arguments Throw {A} e.

Definition Eff (S A : Type) : Type := S → Completion A * S.

Section Eff.
Context {S : Type}.

Definition ret {A} (a : A) : Eff S A := λ s, (Normal a, s).
Definition throw {A} (e : Error) : Eff S A := λ s, (Throw e, s).
Definition bind {A B} (m : Eff S A) (k : A → Eff S B) : Eff S B :=
  λ s, match m s with
       | (Normal a, s') => k a s'
       | (Throw e, s') => (Throw e, s')
       end.
Definition get : Eff S S := λ s, (Normal s, s).
Definition modify (f : S → S) : Eff S unit := λ s, (Normal tt, f s).

(** [for (const a of l) body(a)] *)
Fixpoint forEach {A} (l : list A) (body : A → Eff S unit) : Eff S unit :=
  match l with
  | [] => ret tt
  | a :: l' => bind (body a) (λ _, forEach l' body)
  end.

(** [for (let i = lo; i < hi; i++) body(i)] *)
Definition forRange (lo hi : Z) (body : Z → Eff S unit) : Eff S unit :=
  forEach (seqZ lo (hi - lo)) body.
End Eff.

Declare Scope eff_scope.
Delimit Scope eff_scope with eff.
Notation "'let!' x := c1 'in' c2" := (bind c1 (λ x, c2))
  (at level 10, x name, c1 at level 100, c2 at level 200) : eff_scope.
Notation "c1 >> c2" := (bind c1 (λ _, c2))
  (at level 100, c2 at level 200, right associativity) : eff_scope.

(** ** geo.ts *)

Module Geo.
Record Coordinate := mkCoordinate { x : Z; y : Z }.
Record Size := mkSize { width : Z; height : Z }.

Global Instance Coordinate_eq_dec : EqDecision Coordinate.
Proof. solve_decision. Defined.
End Geo.

(** ** world.object.ts *)

Inductive WorldObjectLayer := UNDERGROUND | GROUND | OVERGROUND.

Global Instance WorldObjectLayer_eq_dec : EqDecision WorldObjectLayer.
Proof. solve_decision. Defined.

(** The numeric value of the enum member. *)
Definition layerValue (l : WorldObjectLayer) : Z :=
  match l with UNDERGROUND => 0 | GROUND => 1 | OVERGROUND => 2 end.

Definition WorldObjectLayerCount : Z := 3.

Module WorldObject.
(** The fields of the base class that the grid reads or that its calls
    change.  [emit] reaches only listeners, and the base class registers
    none that changes these fields. *)
Record t := mk {
  id : WorldObjectID;
  kind : string;
  layer : WorldObjectLayer;
  position : Geo.Coordinate;          (* _positionSubject.getValue() *)
  size : Geo.Size;                    (* _sizeSubject.getValue() *)
  isInitialized : bool;
}.

(** [new WorldObject(name, layer, position?, size?)], the uuid of the
    identity being given. *)
Definition new (name uuid : string) (l : WorldObjectLayer)
    (p : option Geo.Coordinate) (s : option Geo.Size) : t :=
  {| id := name +:+ "/" +:+ uuid; kind := name; layer := l;
     position := default (Geo.mkCoordinate 0 0) p;
     size := default (Geo.mkSize 1 1) s;
     isInitialized := false |}.

Definition init (o : t) : t :=
  if isInitialized o then o
  else {| id := id o; kind := kind o; layer := layer o;
          position := position o; size := size o; isInitialized := true |}.

Definition placed (p : Geo.Coordinate) (o : t) : Completion t :=
  if negb (isInitialized o) then Throw (Error_ObjectNotInitialized (id o))
  else Normal {| id := id o; kind := kind o; layer := layer o;
                 position := p; size := size o;
                 isInitialized := isInitialized o |}.

(** [takeout] only emits "displaced". *)
Definition takeout (o : t) : t := o.
End WorldObject.

(** ** event.center.ts: the intersect event *)

Inductive IEvent :=
  | INTERSECT (initiatorObjectID : WorldObjectID) (objectIDs : list Cell).

Module EventCenter.
(** The events pushed on [_eventSubject] so far, oldest first.  What the
    subscribers of [event$] do with them is outside the grid. *)
Definition t := list IEvent.

Definition objectIntersect (initiatorObjectID : WorldObjectID)
    (objectIDs : list Cell) (ec : t) : t :=
  if (length objectIDs =? 0)%nat then ec
  else ec ++ [INTERSECT initiatorObjectID objectIDs].
End EventCenter.

Module GameSession.
Record t := mk { eventCenter : EventCenter.t }.
End GameSession.

(** ** object.player.ts: the kind of a player and its [init]

    [Player] overrides [init]: it throws unless the session, the clock,
    the event center and the world are all given, and runs the [init] of
    the base class otherwise.  The world passes itself and its own
    [_gameSession], [_clock] and [_eventCenter]; [World.init] sets the
    three together, from a session that always has a clock and an event
    center, so the three are there or missing together.  What
    [initClient] then does to the web sockets of the player is outside
    the grid. *)

Module ObjectPlayer.
Definition PLAYER_KIND : string := "player".

Definition init (session : option GameSession.t) (o : WorldObject.t)
    : Completion WorldObject.t :=
  match session with
  | None => Throw Error_InvalidInitProperties
  | Some _ => Normal (WorldObject.init o)
  end.
End ObjectPlayer.

(** ** The registry: a JavaScript [Map], which keeps insertion order *)

Module JsMap.
Section JsMap.
Context {V : Type}.
Definition t := list (WorldObjectID * V).

Fixpoint get (k : WorldObjectID) (m : t) : option V :=
  match m with
  | [] => None
  | (k', v) :: m' => if decide (k' = k) then Some v else get k m'
  end.

Definition has (k : WorldObjectID) (m : t) : bool :=
  match get k m with Some _ => true | None => false end.

(** [set] keeps the place of a key that is present and appends a new
    one. *)
Fixpoint set (k : WorldObjectID) (v : V) (m : t) : t :=
  match m with
  | [] => [(k, v)]
  | (k', v') :: m' =>
      if decide (k' = k) then (k, v) :: m' else (k', v') :: set k v m'
  end.

Definition delete (k : WorldObjectID) (m : t) : t :=
  filter (λ kv, kv.1 ≠ k) m.

Definition keys (m : t) : list WorldObjectID := m.*1.
End JsMap.
Global Arguments t : clear implicits.
End JsMap.

(** ** world.ts *)

Module World.
Record WorldProps := mkProps {
  props_id : string;
  props_width : Z;
  props_height : Z;
  props_objects : option (list WorldObject.t);
}.

Record t := mk {
  id : string;
  width : Z;
  height : Z;
  objects : JsMap.t WorldObject.t;
  _gameSession : option GameSession.t;
  _isInitialized : bool;
  _map : gmap Z (gmap Z Cell);
}.

Definition with_objects (f : JsMap.t WorldObject.t → JsMap.t WorldObject.t)
    (w : t) : t :=
  {| id := id w; width := width w; height := height w;
     objects := f (objects w); _gameSession := _gameSession w;
     _isInitialized := _isInitialized w; _map := _map w |}.

Definition with_gameSession (g : option GameSession.t) (w : t) : t :=
  {| id := id w; width := width w; height := height w;
     objects := objects w; _gameSession := g;
     _isInitialized := _isInitialized w; _map := _map w |}.

Definition with_isInitialized (b : bool) (w : t) : t :=
  {| id := id w; width := width w; height := height w;
     objects := objects w; _gameSession := _gameSession w;
     _isInitialized := b; _map := _map w |}.

Definition with_map (m : gmap Z (gmap Z Cell)) (w : t) : t :=
  {| id := id w; width := width w; height := height w;
     objects := objects w; _gameSession := _gameSession w;
     _isInitialized := _isInitialized w; _map := m |}.

Local Open Scope eff_scope.

(** *** Access to the cell buffer *)

(** [this._map[row][col]] as an rvalue: indexing the row [undefined]
    raises, a column that is absent reads [undefined]. *)
Definition readMap (row col : Z) : Eff t Cell :=
  λ w, match _map w !! row with
       | None => (Throw TypeError, w)
       | Some r => (Normal (r !!! col), w)
       end.

(** [this._map[row][col] = v] *)
Definition writeMap (row col : Z) (v : Cell) : Eff t unit :=
  λ w, match _map w !! row with
       | None => (Throw TypeError, w)
       | Some r => (Normal tt, with_map (<[row := <[col := v]> r]> (_map w)) w)
       end.

(** *** The constructor *)

Definition new (props : WorldProps) : t :=
  let mapSize := props_width props * WorldObjectLayerCount in
  let row : gmap Z Cell :=
    foldl (λ r x, <[x := null]> r) ∅ (seqZ 0 mapSize) in
  {| id := props_id props;
     width := props_width props;
     height := props_height props;
     objects :=
       foldl (λ m o, JsMap.set (WorldObject.id o) o m) []
             (default [] (props_objects props));
     _gameSession := None;
     _isInitialized := false;
     _map := foldl (λ m y, <[y := row]> m) ∅ (seqZ 0 (props_height props)) |}.

(** The listener of "disposed" that the constructor registers; the
    objects of the registry are disposed and dropped. *)
Definition dispose (w : t) : t :=
  with_objects (λ _, []) (with_map ∅ (with_isInitialized false w)).

(** *** lookupByLayer *)

Fixpoint lookupByLayer (layer : WorldObjectLayer)
    (positions : list Geo.Coordinate) : Eff t (list Cell) :=
  match positions with
  | [] => ret []
  | position :: rest =>
      let! c := readMap (Geo.y position) (Geo.x position + layerValue layer) in
      let! result := lookupByLayer layer rest in
      ret (c :: result)
  end.

(** *** setMapCell *)

(** The loop over the layers of [setMapCell]: the own layer is written,
    the others are read and the ones that are not [null] collected. *)
Fixpoint scanLayers (position : Geo.Coordinate) (layer : WorldObjectLayer)
    (id : WorldObjectID) (indices : list Z)
    (intersectedObjectIDs : list Cell) : Eff t (list Cell) :=
  match indices with
  | [] => ret intersectedObjectIDs
  | index :: rest =>
      if decide (index = layerValue layer) then
        writeMap (Geo.y position) (Geo.x position + index) (occupant id) >>
        scanLayers position layer id rest intersectedObjectIDs
      else
        let! objectID := readMap (Geo.y position) (Geo.x position + index) in
        scanLayers position layer id rest
          (if isNotNull objectID then intersectedObjectIDs ++ [objectID]
           else intersectedObjectIDs)
  end.

(** [this.gameSession?.eventCenter.objectIntersect(id, ...ids)] *)
Definition notifyIntersect (id : WorldObjectID) (ids : list Cell)
    : Eff t unit :=
  modify (λ w,
    match _gameSession w with
    | None => w
    | Some g =>
        with_gameSession
          (Some (GameSession.mk
                   (EventCenter.objectIntersect id ids
                      (GameSession.eventCenter g)))) w
    end).

Definition setMapCell (position : Geo.Coordinate) (layer : WorldObjectLayer)
    (id : option WorldObjectID) : Eff t unit :=
  let! w := get in
  if (Geo.x position <? 0) || (Geo.y position <? 0)
     || (Geo.x position >=? width w) || (Geo.y position >=? height w)
  then throw (Error_OutOfBounds (Geo.x position) (Geo.y position))
  else
    match id with
    | None =>
        (* if takeout operation, no need to check for intersections. *)
        writeMap (Geo.y position) (Geo.x position + layerValue layer) null
    | Some id =>
        let! currentCellObjectID :=
          readMap (Geo.y position) (Geo.x position + layerValue layer) in
        if isNotNull currentCellObjectID then
          throw (ErrorOverlappingObject id currentCellObjectID)
        else if negb (_isInitialized w) then
          writeMap (Geo.y position) (Geo.x position + layerValue layer)
                   (occupant id)
        else
          let! intersectedObjectIDs :=
            scanLayers position layer id (seqZ 0 WorldObjectLayerCount) [] in
          if (0 <? length intersectedObjectIDs)%nat then
            notifyIntersect id intersectedObjectIDs
          else ret tt
    end.

(** *** restructureMap *)

Definition restructureMap (id : WorldObjectID) (layer : WorldObjectLayer)
    (size : Geo.Size) (oldPosition newPosition : option Geo.Coordinate)
    : Eff t bool :=
  let width := Geo.width size in
  let height := Geo.height size in
  let! w := get in
  match oldPosition, newPosition with
  | None, None => throw Error_PositionRequired
  | _, _ =>
    if match newPosition with
       | Some p =>
           (Geo.x p <? 0) || (Geo.y p <? 0)
           || (Geo.x p + width >? World.width w)
           || (Geo.y p + height >? World.height w)
       | None => false
       end
    then ret false
    else
      match oldPosition, newPosition with
      | None, None => throw Error_PositionRequired
      | Some old, None =>
          (* only removing the old position. *)
          let oldX := Geo.x old in
          let oldY := Geo.y old in
          forRange oldX (oldX + width) (λ x,
            forRange oldY (oldY + height) (λ y,
              setMapCell (Geo.mkCoordinate x y) layer None)) >>
          ret true
      | None, Some new =>
          (* only adding the new position. *)
          let newX := Geo.x new in
          let newY := Geo.y new in
          forRange newX (newX + width) (λ x,
            forRange newY (newY + height) (λ y,
              setMapCell (Geo.mkCoordinate x y) layer (Some id))) >>
          ret true
      | Some old, Some new =>
          let oldX := Geo.x old in
          let oldY := Geo.y old in
          let newX := Geo.x new in
          let newY := Geo.y new in
          (* calculate overlapping region. *)
          let overlapX := Z.max oldX newX in
          let overlapY := Z.max oldY newY in
          let overlapWidth :=
            Z.min (oldX + width) (newX + width) - overlapX in
          let overlapHeight :=
            Z.min (oldY + height) (newY + height) - overlapY in
          (* remove old object, excluding overlap. *)
          forRange oldX overlapX (λ x,
            forRange oldY (oldY + height) (λ y,
              setMapCell (Geo.mkCoordinate x y) layer None)) >>
          forRange (overlapX + overlapWidth) (oldX + width) (λ x,
            forRange oldY (oldY + height) (λ y,
              setMapCell (Geo.mkCoordinate x y) layer None)) >>
          forRange overlapX (overlapX + overlapWidth) (λ x,
            forRange oldY overlapY (λ y,
              setMapCell (Geo.mkCoordinate x y) layer None)) >>
          forRange overlapX (overlapX + overlapWidth) (λ x,
            forRange (overlapY + overlapHeight) (oldY + height) (λ y,
              setMapCell (Geo.mkCoordinate x y) layer None)) >>
          (* add new object, excluding overlap. *)
          forRange newX overlapX (λ x,
            forRange newY (newY + height) (λ y,
              setMapCell (Geo.mkCoordinate x y) layer (Some id))) >>
          forRange (overlapX + overlapWidth) (newX + width) (λ x,
            forRange newY (newY + height) (λ y,
              setMapCell (Geo.mkCoordinate x y) layer (Some id))) >>
          forRange overlapX (overlapX + overlapWidth) (λ x,
            forRange newY overlapY (λ y,
              setMapCell (Geo.mkCoordinate x y) layer (Some id))) >>
          forRange overlapX (overlapX + overlapWidth) (λ x,
            forRange (overlapY + overlapHeight) (newY + height) (λ y,
              setMapCell (Geo.mkCoordinate x y) layer (Some id))) >>
          ret true
      end
  end.

(** *** The public operations *)

(** [object.init(props)]: the call is virtual, and the class of an
    object is the one that its kind names.  [Player] is the class that
    overrides [init]; [Brick] and [Steel] inherit it. *)
Definition objectInit (session : option GameSession.t)
    (object : WorldObject.t) : Completion WorldObject.t :=
  if decide (WorldObject.kind object = ObjectPlayer.PLAYER_KIND)
  then ObjectPlayer.init session object
  else Normal (WorldObject.init object).

(** A call on an object of the registry: the registry holds the
    reference, so the change is seen through it. *)
Definition initObject (objectID : WorldObjectID) : Eff t unit :=
  let! w := get in
  match JsMap.get objectID (objects w) with
  | None => ret tt
  | Some object =>
      if WorldObject.isInitialized object then ret tt
      else
        match objectInit (_gameSession w) object with
        | Throw e => throw e
        | Normal object' =>
            modify (with_objects (JsMap.set objectID object'))
        end
  end.

Definition installObject (object : WorldObject.t) : Eff t bool :=
  let! w := get in
  if negb (_isInitialized w) then throw Error_WorldNotInitialized
  else if JsMap.has (WorldObject.id object) (objects w) then ret false
  else
    modify (with_objects (JsMap.set (WorldObject.id object) object)) >>
    initObject (WorldObject.id object) >>
    ret true.

Definition uninstallObject (objectID : WorldObjectID) : Eff t bool :=
  let! w := get in
  if negb (_isInitialized w) then throw Error_WorldNotInitialized
  else
    match JsMap.get objectID (objects w) with
    | None => ret false
    | Some object =>
        modify (with_objects (JsMap.delete (WorldObject.id object))) >>
        (* object[Symbol.dispose]() *)
        ret true
    end.

Definition placeObject (objectID : WorldObjectID)
    (position : option Geo.Coordinate) : Eff t (option Geo.Coordinate) :=
  let! w := get in
  if negb (_isInitialized w) then throw Error_WorldNotInitialized
  else
    match JsMap.get objectID (objects w) with
    | None => ret None
    | Some object =>
        let p := default (WorldObject.position object) position in
        let xy := Geo.mkCoordinate (Geo.x p) (Geo.y p) in
        modify (with_objects (JsMap.set (WorldObject.id object) object)) >>
        let! isSuccessful :=
          restructureMap (WorldObject.id object) (WorldObject.layer object)
            (WorldObject.size object) None (Some xy) in
        if negb isSuccessful then ret None
        else
          match WorldObject.placed xy object with
          | Throw e => throw e
          | Normal object' =>
              modify (with_objects (λ m,
                match JsMap.get (WorldObject.id object) m with
                | Some _ => JsMap.set (WorldObject.id object) object' m
                | None => m
                end)) >>
              ret (Some xy)
          end
    end.

Definition displaceObject (objectID : WorldObjectID) : Eff t bool :=
  let! w := get in
  if negb (_isInitialized w) then throw Error_WorldNotInitialized
  else
    match JsMap.get objectID (objects w) with
    | None => ret false
    | Some object =>
        let! isSuccessful :=
          restructureMap (WorldObject.id object) (WorldObject.layer object)
            (WorldObject.size object)
            (Some (WorldObject.position object)) None in
        if negb isSuccessful then ret false
        else
          (* object.takeout({}) *)
          ret true
    end.

Definition installAndPlaceObject (object : WorldObject.t)
    : Eff t (option Geo.Coordinate) :=
  let! installed := installObject object in
  if negb installed then ret None
  else placeObject (WorldObject.id object) None.

Definition uninstallAndDisplaceObject (objectID : WorldObjectID)
    : Eff t bool :=
  let! uninstalled := uninstallObject objectID in
  if negb uninstalled then ret false
  else displaceObject objectID.

Definition moveObject (objectID : WorldObjectID)
    (newPosition : Geo.Coordinate) : Eff t (option Geo.Coordinate) :=
  let! w := get in
  if negb (_isInitialized w) then ret None
  else
    match JsMap.get objectID (objects w) with
    | None => ret None
    | Some object =>
        let xy := Geo.mkCoordinate (Geo.x newPosition) (Geo.y newPosition) in
        let! moved :=
          restructureMap (WorldObject.id object) (WorldObject.layer object)
            (WorldObject.size object)
            (Some (WorldObject.position object)) (Some xy) in
        if negb moved then ret None
        else ret (Some xy)
    end.

Definition init (gameSession : option GameSession.t) : Eff t unit :=
  modify (λ w,
    match gameSession with
    | Some g => with_gameSession (Some g) w
    | None => w
    end) >>
  modify (with_isInitialized true) >>
  let! w := get in
  forEach (JsMap.keys (objects w)) (λ objectID,
    initObject objectID >>
    placeObject objectID None >>
    ret tt).
End World.

(** * Reading the model *)

(** ** What a slot of the buffer reads as *)

(** [this._map[row][col]], with a missing row read as a hole. *)
Definition slot (w : World.t) (row col : Z) : Cell :=
  match World._map w !! row with
  | Some r => r !!! col
  | None => undefined
  end.

(** The slot that [lookupByLayer] and [setMapCell] use for the cell
    [(x, y)] of a layer: row [y], column [x + layer]. *)
Definition cellAt (w : World.t) (l : WorldObjectLayer) (c : Geo.Coordinate)
    : Cell :=
  slot w (Geo.y c) (Geo.x c + layerValue l).

(** The address that the specification gives to the same cell: row [y],
    column [x * layerCount + layer]. *)
Definition specColumn (x : Z) (l : WorldObjectLayer) : Z :=
  x * WorldObjectLayerCount + layerValue l.

Definition inBounds (w : World.t) (c : Geo.Coordinate) : Prop :=
  0 ≤ Geo.x c < World.width w ∧ 0 ≤ Geo.y c < World.height w.

Global Instance inBounds_dec w c : Decision (inBounds w c).
Proof. unfold inBounds. apply _. Defined.

(** The cells of the rectangle at [p] of size [s], in the order in which
    the loops of [restructureMap] visit them: [x] outside, [y] inside. *)
Definition rect (x0 x1 y0 y1 : Z) : list Geo.Coordinate :=
  x ← seqZ x0 (x1 - x0); y ← seqZ y0 (y1 - y0); [Geo.mkCoordinate x y].

Definition footprint (p : Geo.Coordinate) (s : Geo.Size)
    : list Geo.Coordinate :=
  rect (Geo.x p) (Geo.x p + Geo.width s) (Geo.y p) (Geo.y p + Geo.height s).

(** The corner and the extent of the overlap rectangle, as [restructureMap]
    computes them; the extents are negative when the footprints are
    apart. *)
Definition overlapX (old new : Geo.Coordinate) : Z :=
  Z.max (Geo.x old) (Geo.x new).
Definition overlapY (old new : Geo.Coordinate) : Z :=
  Z.max (Geo.y old) (Geo.y new).
Definition overlapWidth (old new : Geo.Coordinate) (s : Geo.Size) : Z :=
  Z.min (Geo.x old + Geo.width s) (Geo.x new + Geo.width s) - overlapX old new.
Definition overlapHeight (old new : Geo.Coordinate) (s : Geo.Size) : Z :=
  Z.min (Geo.y old + Geo.height s) (Geo.y new + Geo.height s)
  - overlapY old new.

(** The four strips that the move visits around the overlap rectangle of
    the footprint at [p], in the order of its loops: left, right, top,
    bottom. *)
Definition strips (old new p : Geo.Coordinate) (s : Geo.Size)
    : list Geo.Coordinate :=
  ((rect (Geo.x p) (overlapX old new) (Geo.y p) (Geo.y p + Geo.height s)
    ++ rect (overlapX old new + overlapWidth old new s)
         (Geo.x p + Geo.width s) (Geo.y p) (Geo.y p + Geo.height s))
   ++ rect (overlapX old new) (overlapX old new + overlapWidth old new s)
        (Geo.y p) (overlapY old new))
  ++ rect (overlapX old new) (overlapX old new + overlapWidth old new s)
       (overlapY old new + overlapHeight old new s) (Geo.y p + Geo.height s).

(** The bounds check of [restructureMap] passes. *)
Definition fits (w : World.t) (p : Geo.Coordinate) (s : Geo.Size) : Prop :=
  0 ≤ Geo.x p ∧ 0 ≤ Geo.y p
  ∧ Geo.x p + Geo.width s ≤ World.width w
  ∧ Geo.y p + Geo.height s ≤ World.height w.

(** The integers that a JavaScript number holds exactly.  On a rectangle
    whose corner, size and far corner are such integers, the sums and
    the comparisons of the loops of [restructureMap] are those of the
    integers; beyond them [x + width] may round to [x], and a loop that
    visits cells here visits none there. *)
Definition MAX_SAFE_INTEGER : Z := 2 ^ 53 - 1.

Definition safeInteger (n : Z) : Prop :=
  - MAX_SAFE_INTEGER ≤ n ≤ MAX_SAFE_INTEGER.

Definition safeRectangle (p : Geo.Coordinate) (s : Geo.Size) : Prop :=
  safeInteger (Geo.x p) ∧ safeInteger (Geo.y p)
  ∧ safeInteger (Geo.width s) ∧ safeInteger (Geo.height s)
  ∧ safeInteger (Geo.x p + Geo.width s)
  ∧ safeInteger (Geo.y p + Geo.height s).

(** The buffer as the constructor allocates it and as the writes keep it:
    every row of the extent is there and no slot of it is a hole. *)
Definition allocated (w : World.t) : Prop :=
  ∀ row, 0 ≤ row < World.height w →
    is_Some (World._map w !! row)
    ∧ ∀ col, 0 ≤ col < World.width w * WorldObjectLayerCount →
        slot w row col ≠ undefined.

Global Instance allocated_dec w : Decision (allocated w).
Proof.
  refine (cast_if (decide (Forall (λ row,
    is_Some (World._map w !! row)
    ∧ Forall (λ col, slot w row col ≠ undefined)
        (seqZ 0 (World.width w * WorldObjectLayerCount)))
    (seqZ 0 (World.height w))))).
  - rename select (Forall _ _) into HF.
    intros row Hrow. rewrite Forall_seqZ in HF.
    destruct (HF row ltac:(lia)) as [Hr Hc]. split; [exact Hr|].
    rewrite Forall_seqZ in Hc. intros col Hcol. apply Hc. lia.
  - rename select (¬ Forall _ _) into HF.
    intros Hal. apply HF. apply Forall_seqZ. intros row Hrow.
    destruct (Hal row ltac:(lia)) as [Hr Hc]. split; [exact Hr|].
    apply Forall_seqZ. intros col Hcol. apply Hc. lia.
Defined.

(** A method that leaves the buffer allocated, however it completes. *)
Definition keepsAllocated {A} (m : Eff World.t A) : Prop :=
  ∀ w, allocated w → allocated (m w).2.

(** The part of the state that no write of a cell touches. *)
Record stable (w w' : World.t) : Prop := mkStable {
  stable_id : World.id w' = World.id w;
  stable_width : World.width w' = World.width w;
  stable_height : World.height w' = World.height w;
  stable_objects : World.objects w' = World.objects w;
  stable_isInitialized : World._isInitialized w' = World._isInitialized w;
  stable_rows : ∀ row,
    is_Some (World._map w !! row) → is_Some (World._map w' !! row);
  stable_defined : ∀ row col,
    slot w row col ≠ undefined → slot w' row col ≠ undefined;
}.

(** The layers other than [l], as [setMapCell] goes through them. *)
Definition otherLayers (l : WorldObjectLayer) (indices : list Z) : list Z :=
  filter (λ index, index ≠ layerValue l) indices.

(** What the scan of [setMapCell] collects at the column of [c]. *)
Definition intersected (w : World.t) (l : WorldObjectLayer)
    (c : Geo.Coordinate) (indices : list Z) : list Cell :=
  filter (λ v, isNotNull v = true)
    ((λ index, slot w (Geo.y c) (Geo.x c + index)) <$> otherLayers l indices).

(** The events that the event center of the world has seen. *)
Definition events (w : World.t) : option (list IEvent) :=
  GameSession.eventCenter <$> World._gameSession w.

(** ** Worlds used in the examples *)

Definition at_ (x y : Z) : Geo.Coordinate := Geo.mkCoordinate x y.

(** [new Brick({ position })] *)
Definition Brick (uuid : string) (p : Geo.Coordinate) : WorldObject.t :=
  WorldObject.new "brick" uuid GROUND (Some p) (Some (Geo.mkSize 1 1)).

(** [run m w] is the state that [m] leaves. *)
Definition run {A} (m : Eff World.t A) (w : World.t) : World.t := (m w).2.
Definition result {A} (m : Eff World.t A) (w : World.t) : Completion A :=
  (m w).1.

(** [new World({ id: "test", width: 10, height: 10 }); world.init()] *)
Definition testWorld : World.t :=
  run (World.init None) (World.new (World.mkProps "test" 10 10 None)).

(** The same, initialized with a game session whose event center has seen
    no event. *)
Definition sessionWorld : World.t :=
  run (World.init (Some (GameSession.mk [])))
      (World.new (World.mkProps "test" 10 10 None)).

(** A brick installed and placed at [(0, 0)]. *)
Definition brickWorld : World.t :=
  run (World.placeObject "brick/A" None)
      (run (World.installObject (Brick "A" (at_ 0 0))) testWorld).

(** The world before [init], the brick given to the constructor. *)
Definition freshWorld : World.t :=
  World.new (World.mkProps "test" 10 10 (Some [Brick "A" (at_ 0 0)])).

(** Next to the brick at [(0, 0)], a second brick installed and placed at
    [(1, 0)], in a world that has a game session. *)
Definition sessionBrickWorld : World.t :=
  run (World.placeObject "brick/A" None)
      (run (World.installObject (Brick "A" (at_ 0 0))) sessionWorld).

Definition twoBricksWorld : World.t :=
  run (World.placeObject "brick/B" None)
      (run (World.installObject (Brick "B" (at_ 1 0))) sessionBrickWorld).

(** An object of the ground layer that is two cells wide, installed with
    the position [(0, 0)] in a world whose cell [(1, 0)] holds a brick. *)
Definition Beam (uuid : string) (p : Geo.Coordinate) : WorldObject.t :=
  WorldObject.new "beam" uuid GROUND (Some p) (Some (Geo.mkSize 2 1)).

Definition beamWorld : World.t :=
  run (World.installObject (Beam "B" (at_ 0 0)))
      (run (World.placeObject "brick/A" None)
           (run (World.installObject (Brick "A" (at_ 1 0))) testWorld)).

(** A brick whose position is outside the extent, installed and never
    placed. *)
Definition strayWorld : World.t :=
  run (World.installObject (Brick "A" (at_ 10 0))) testWorld.

(** A beam installed and placed at [(0, 0)], alone in a world that has a
    game session. *)
Definition sessionBeamWorld : World.t :=
  run (World.placeObject "beam/A" None)
      (run (World.installObject (Beam "A" (at_ 0 0))) sessionWorld).

(** The world of the lookup tests: the brick is given to the constructor
    and [init] places it. *)
Definition lookupTestWorld : World.t :=
  run (World.init None) freshWorld.


(** * Further definitions *)

(** What every operation of the grid keeps, however it completes: the
    identity and the extent of the world, the rows of its buffer, and the
    slots that are not holes. *)
Record shaped (w w' : World.t) : Prop := mkShaped {
  shaped_id : World.id w' = World.id w;
  shaped_width : World.width w' = World.width w;
  shaped_height : World.height w' = World.height w;
  shaped_rows : ∀ row,
    is_Some (World._map w !! row) → is_Some (World._map w' !! row);
  shaped_defined : ∀ row col,
    slot w row col ≠ undefined → slot w' row col ≠ undefined;
}.

Definition keepsShape {A} (m : Eff World.t A) : Prop :=
  ∀ w, shaped w (m w).2.

Global Instance fits_dec w p s : Decision (fits w p s).
Proof. unfold fits. apply _. Defined.

(** [w'] has seen the events of [w] followed, if a game session is
    there, by intersect events that [initiator] started, each with at
    least one other identity. *)
Definition emitted (initiator : WorldObjectID) (w w' : World.t) : Prop :=
  ∃ new,
    events w' = (λ old, old ++ new) <$> events w
    ∧ Forall (λ e, ∃ ids, e = INTERSECT initiator ids ∧ ids ≠ []) new.

(** ** object.player.ts: the move of a player *)

Inductive PlayerFacing := UP | DOWN | LEFT | RIGHT.

Global Instance PlayerFacing_eq_dec : EqDecision PlayerFacing.
Proof. solve_decision. Defined.

Module Player.
(** What a player adds to the base class, as far as [move] reads or
    writes it.  The base fields of a player (identity, layer, position,
    size) are those of the object that the registry of its world holds
    under its identity.  [_world] tells whether the field is set; the
    world it then refers to is the world of the state. *)
Record t := mk {
  id : WorldObjectID;
  facing : PlayerFacing;
  _world : bool;
}.

Definition with_facing (f : PlayerFacing) (p : t) : t :=
  {| id := id p; facing := f; _world := _world p |}.

(** [new Player({ name, facing, position })], the uuid being given: the
    object of the base class, on the ground layer with the default size,
    and the fields of the player. *)
Definition new (uuid : string) (f : PlayerFacing) (position : Geo.Coordinate)
    : WorldObject.t * t :=
  let object := WorldObject.new "player" uuid GROUND (Some position) None in
  (object, {| id := WorldObject.id object; facing := f; _world := false |}).

Definition MOVEMENT_SPEED : Z := 1.

(** The destination that [move] computes from the position. *)
Definition destination (position : Geo.Coordinate) (f : PlayerFacing)
    : Geo.Coordinate :=
  match f with
  | UP => Geo.mkCoordinate (Geo.x position) (Geo.y position - MOVEMENT_SPEED)
  | DOWN => Geo.mkCoordinate (Geo.x position) (Geo.y position + MOVEMENT_SPEED)
  | LEFT => Geo.mkCoordinate (Geo.x position - MOVEMENT_SPEED) (Geo.y position)
  | RIGHT => Geo.mkCoordinate (Geo.x position + MOVEMENT_SPEED) (Geo.y position)
  end.

(** [this._positionSubject.next(newPosition)], seen through the registry
    that holds the object. *)
Definition positionNext (objectID : WorldObjectID)
    (newPosition : Geo.Coordinate) (w : World.t) : World.t :=
  World.with_objects (λ m,
    match JsMap.get objectID m with
    | Some object =>
        JsMap.set objectID
          {| WorldObject.id := WorldObject.id object;
             WorldObject.kind := WorldObject.kind object;
             WorldObject.layer := WorldObject.layer object;
             WorldObject.position := newPosition;
             WorldObject.size := WorldObject.size object;
             WorldObject.isInitialized := WorldObject.isInitialized object |} m
    | None => m
    end) w.

(** [move(facing)].  What [moveObject] raises is caught and logged, so the
    call completes normally with the world as the raise left it.  For an
    identity that the registry does not hold [moveObject] returns
    undefined whatever the destination, and [move] returns. *)
Definition move (f : PlayerFacing) : Eff (World.t * t) unit :=
  λ '(w, p),
    if negb (_world p) then (Normal tt, (w, p))
    else if decide (facing p ≠ f) then
      (* only update the facing if the direction has changed. *)
      (Normal tt, (w, with_facing f p))
    else
      match JsMap.get (id p) (World.objects w) with
      | None => (Normal tt, (w, p))
      | Some object =>
          let destinationPosition :=
            destination (WorldObject.position object) f in
          match World.moveObject (id p) destinationPosition w with
          | (Normal (Some newPosition), w') =>
              (Normal tt, (positionNext (id p) newPosition w', p))
          | (Normal None, w') => (Normal tt, (w', p))
          | (Throw e, w') => (Normal tt, (w', p))
          end
      end.
End Player.

(** The cells of the stored rectangle of the object hold its identity. *)
Definition onGrid (w : World.t) (object : WorldObject.t) : Prop :=
  ∀ c, c ∈ footprint (WorldObject.position object) (WorldObject.size object) →
       cellAt w (WorldObject.layer object) c
       = occupant (WorldObject.id object).

(** A player installed and placed at [(0, 0)], facing right, next to a
    brick at [(1, 0)], in a world that has a game session. *)
Definition playerWorld : World.t * Player.t :=
  let '(object, player) := Player.new "P" RIGHT (at_ 0 0) in
  (run (World.placeObject "brick/B" None)
     (run (World.installObject (Brick "B" (at_ 1 0)))
        (run (World.placeObject (WorldObject.id object) None)
           (run (World.installObject object) sessionWorld))),
   Player.mk (Player.id player) (Player.facing player) true).

(** ** object.brick.ts and object.steel.ts: the objects of a region *)

Module Region.
Record t := mk { x : Z; y : Z; width : Z; height : Z }.
End Region.

Section create.
(** The identifiers that [uuidV4()] hands out, in the order of the calls;
    the state of a creation is the number of calls made so far. *)
Variable uuidV4 : nat → string.

(** [bricks.push(new Brick({ position }))], for the class of the given
    kind: the constructors of [Brick] and [Steel] pass the ground layer
    and the size 1 x 1 to the base class. *)
Definition pushNew (kind : string) (position : Geo.Coordinate)
    : Eff (nat * list WorldObject.t) unit :=
  λ '(calls, objects),
    (Normal tt,
     (S calls,
      objects ++ [WorldObject.new kind (uuidV4 calls) GROUND (Some position)
                    (Some (Geo.mkSize 1 1))])).

(** The body that [Brick.create] and [Steel.create] share. *)
Definition createIn (kind : string) (props : Region.t)
    : nat → list WorldObject.t * nat :=
  λ calls,
    let first :=
      WorldObject.new kind (uuidV4 calls) GROUND
        (Some (Geo.mkCoordinate (Region.x props) (Region.y props)))
        (Some (Geo.mkSize 1 1)) in
    if (Region.width props <=? 1) && (Region.height props <=? 1)
    then ([first], S calls)
    else
      let '(_, (calls', objects)) :=
        forRange 1 (Region.height props) (λ yDelta,
          forRange 1 (Region.width props) (λ xDelta,
            pushNew kind
              (Geo.mkCoordinate (xDelta + Region.x props)
                                (yDelta + Region.y props))))
          (S calls, [first]) in
      (objects, calls').

Definition Brick_create : Region.t → nat → list WorldObject.t * nat :=
  createIn "brick".
Definition Steel_create : Region.t → nat → list WorldObject.t * nat :=
  createIn "steel".
End create.


(** ** Objects that [initObject] can initialize

    [initObject] leaves an initialized object alone and otherwise calls
    its [init], which throws for a player when the world has no game
    session.  [initializable session object] says that the call, in a
    world whose session is [session], completes. *)
Definition initializable (session : option GameSession.t)
    (object : WorldObject.t) : Prop :=
  WorldObject.isInitialized object = true
  ∨ WorldObject.kind object ≠ ObjectPlayer.PLAYER_KIND
  ∨ is_Some session.

Global Instance initializable_dec session object :
  Decision (initializable session object).
Proof. unfold initializable. apply _. Defined.

(** ** The objects given to the constructor *)

(** The entry of the registry for an object. *)
Definition entry (o : WorldObject.t) : WorldObjectID * WorldObject.t :=
  (WorldObject.id o, o).

(** The slots (row, column) that the stored rectangle of an object
    addresses in the buffer. *)
Definition addresses (o : WorldObject.t) : list (Z * Z) :=
  (λ c, (Geo.y c, Geo.x c + layerValue (WorldObject.layer o)))
    <$> footprint (WorldObject.position o) (WorldObject.size o).

(** * The session controller of [lib/server/session_controller.ts]

    The state that [sessionSubject] holds and the methods that replace
    it.  [_getState] reads the value of the subject and [updateState]
    sets it, so a method is a function from the value before to the
    value after; what the subscribers of [init] publish is outside.
    The fields of the state that no method writes (bombs, objects,
    explosions and their positions) are left out. *)

From stdpp Require Import pretty.

Open Scope Z_scope.

Module CharacterFacing.
Inductive t := up | right | down | left.
Global Instance eq_dec : EqDecision t.
Proof. solve_decision. Defined.
End CharacterFacing.

Module CharacterState.
Inductive t := dead | idle | walking | running | jumping | taunting.
End CharacterState.

Module CharacterSpriteType.
Inductive t := default.
End CharacterSpriteType.

Module KeycodesMap.
Inductive t :=
  | keyup | keydown | keyleft | keyright | space | enter | escape
  | shift | ctrl | alt | tab | backspace | delete | insert.
End KeycodesMap.

(** [(typeof MOVEMENT_KEYCODES)[number]], the type of the keys of
    [MAPPED_MOVEMENT_AND_FACING]. *)
Module IMovementKeycodes.
Inductive t := keyup | keydown | keyleft | keyright.
End IMovementKeycodes.

(** [MOVEMENT_KEYCODES.includes(action)], with the key as a movement key
    when it is one. *)
Definition MOVEMENT_KEYCODES_includes (action : KeycodesMap.t)
    : option IMovementKeycodes.t :=
  match action with
  | KeycodesMap.keyup => Some IMovementKeycodes.keyup
  | KeycodesMap.keydown => Some IMovementKeycodes.keydown
  | KeycodesMap.keyleft => Some IMovementKeycodes.keyleft
  | KeycodesMap.keyright => Some IMovementKeycodes.keyright
  | _ => None
  end.

Definition MAPPED_MOVEMENT_AND_FACING (action : IMovementKeycodes.t)
    : CharacterFacing.t :=
  match action with
  | IMovementKeycodes.keyup => CharacterFacing.up
  | IMovementKeycodes.keydown => CharacterFacing.down
  | IMovementKeycodes.keyleft => CharacterFacing.left
  | IMovementKeycodes.keyright => CharacterFacing.right
  end.

Module IPlayer.
Record t := mk {
  id : string;
  name : string;
  sprite_type : CharacterSpriteType.t;
  facing : CharacterFacing.t;
  level : Z;
  state : CharacterState.t;
  kill_count : Z;
}.

Definition with_facing (f : CharacterFacing.t) (p : t) : t :=
  {| id := id p; name := name p; sprite_type := sprite_type p; facing := f;
     level := level p; state := state p; kill_count := kill_count p |}.
End IPlayer.

Module IPosition.
Record t := mk { id : string; x : Z; y : Z }.
End IPosition.

(** The fields of the map that the controller reads. *)
Module IMap.
Record t := mk { width : Z; height : Z }.
End IMap.

Module IGameState.
Record t := mk {
  map : IMap.t;
  players : list IPlayer.t;
  player_positions : list IPosition.t;
}.
End IGameState.

Module SessionController.
(** [players.findIndex((player) => player.id === id)] and
    [players.find(...)]: the first match, with its index. *)
Definition findPlayer (id : string) (players : list IPlayer.t)
    : option (nat * IPlayer.t) :=
  list_find (λ player, IPlayer.id player = id) players.

Definition findPosition (id : string) (positions : list IPosition.t)
    : option (nat * IPosition.t) :=
  list_find (λ position, IPosition.id position = id) positions.

(** The state that the constructor puts in the subject, for a given map. *)
Definition new (map : IMap.t) : IGameState.t :=
  {| IGameState.map := map; IGameState.players := [];
     IGameState.player_positions := [] |}.

Definition addNewPlayer (id : string) (_state : IGameState.t)
    : string * IGameState.t :=
  let _newPlayer :=
    {| IPlayer.id := id;
       IPlayer.name :=
         "Player " +:+ pretty (length (IGameState.players _state) + 1)%nat;
       IPlayer.sprite_type := CharacterSpriteType.default;
       IPlayer.facing := CharacterFacing.down;
       IPlayer.level := 1;
       IPlayer.state := CharacterState.idle;
       IPlayer.kill_count := 0 |} in
  (id,
   {| IGameState.map := IGameState.map _state;
      IGameState.players := IGameState.players _state ++ [_newPlayer];
      IGameState.player_positions :=
        IGameState.player_positions _state
        ++ [{| IPosition.id := IPlayer.id _newPlayer;
               IPosition.x := 0; IPosition.y := 0 |}] |}).

Definition removePlayer (id : string) (_state : IGameState.t)
    : IGameState.t :=
  match findPlayer id (IGameState.players _state),
        findPosition id (IGameState.player_positions _state) with
  | Some (_playerIndex, _), Some (_playerPositionIndex, _) =>
      {| IGameState.map := IGameState.map _state;
         IGameState.players :=
           delete _playerIndex (IGameState.players _state);
         IGameState.player_positions :=
           delete _playerPositionIndex (IGameState.player_positions _state) |}
  | _, _ => _state
  end.

(** The recipe of the inner [produce] of [movePlayer]. *)
Definition step (action : IMovementKeycodes.t) (map : IMap.t)
    (position : IPosition.t) : IPosition.t :=
  match action with
  | IMovementKeycodes.keyup =>
      if decide (IPosition.y position > 0)
      then {| IPosition.id := IPosition.id position;
              IPosition.x := IPosition.x position;
              IPosition.y := IPosition.y position - 1 |}
      else position
  | IMovementKeycodes.keydown =>
      if decide (IPosition.y position < IMap.height map)
      then {| IPosition.id := IPosition.id position;
              IPosition.x := IPosition.x position;
              IPosition.y := IPosition.y position + 1 |}
      else position
  | IMovementKeycodes.keyleft =>
      if decide (IPosition.x position > 0)
      then {| IPosition.id := IPosition.id position;
              IPosition.x := IPosition.x position - 1;
              IPosition.y := IPosition.y position |}
      else position
  | IMovementKeycodes.keyright =>
      if decide (IPosition.x position < IMap.width map)
      then {| IPosition.id := IPosition.id position;
              IPosition.x := IPosition.x position + 1;
              IPosition.y := IPosition.y position |}
      else position
  end.

Definition movePlayer (playerID : string) (action : IMovementKeycodes.t)
    (_state : IGameState.t) : IGameState.t :=
  match findPosition playerID (IGameState.player_positions _state) with
  | None => _state
  | Some (_playerPositionIndex, _playerPosition) =>
      match findPlayer playerID (IGameState.players _state) with
      | None => _state
      | Some (index, _player) =>
          if decide (IPlayer.facing _player
                     ≠ MAPPED_MOVEMENT_AND_FACING action)
          then
            {| IGameState.map := IGameState.map _state;
               IGameState.players :=
                 <[index := IPlayer.with_facing
                              (MAPPED_MOVEMENT_AND_FACING action) _player]>
                   (IGameState.players _state);
               IGameState.player_positions :=
                 IGameState.player_positions _state |}
          else
            {| IGameState.map := IGameState.map _state;
               IGameState.players := IGameState.players _state;
               IGameState.player_positions :=
                 <[_playerPositionIndex :=
                     step action (IGameState.map _state) _playerPosition]>
                   (IGameState.player_positions _state) |}
      end
  end.

Definition doPlayerAction (playerID : string) (action : KeycodesMap.t)
    (_state : IGameState.t) : IGameState.t :=
  match findPlayer playerID (IGameState.players _state) with
  | None => _state
  | Some _ =>
      match MOVEMENT_KEYCODES_includes action with
      | Some movement => movePlayer playerID movement _state
      | None => _state
      end
  end.
End SessionController.

(** A position inside the range that [movePlayer] keeps: both bounds
    included. *)
Definition inRange (map : IMap.t) (position : IPosition.t) : Prop :=
  0 ≤ IPosition.x position ≤ IMap.width map
  ∧ 0 ≤ IPosition.y position ≤ IMap.height map.
(** * Properties *)

(** ** The monad and its loops *)

Lemma forEach_app {S A} (l1 l2 : list A) (body : A → Eff S unit) s :
  forEach (l1 ++ l2) body s = bind (forEach l1 body) (λ _, forEach l2 body) s.
Proof.
  revert s. induction l1 as [|a l1 IH]; intros s; simpl.
  - reflexivity.
  - unfold bind in *. destruct (body a s) as [[[]|e] s1]; [|reflexivity].
    apply IH.
Qed.


(** Two nested counting loops visit the cells of the rectangle in the
    order of [rect]. *)
Lemma forRange_nested {S} (x0 x1 y0 y1 : Z)
    (body : Geo.Coordinate → Eff S unit) s :
  forRange x0 x1 (λ x, forRange y0 y1 (λ y, body (Geo.mkCoordinate x y))) s
  = forEach (rect x0 x1 y0 y1) body s.
Proof.
  unfold forRange, rect. generalize (seqZ x0 (x1 - x0)) as xs.
  intros xs. revert s. induction xs as [|x xs IH]; intros s.
  - reflexivity.
  - change (mbind ?f (x :: xs)) with (f x ++ mbind f xs).
    rewrite forEach_app. simpl. unfold bind.
    assert (Hin : ∀ s0,
      forEach (seqZ y0 (y1 - y0)) (λ y, body (Geo.mkCoordinate x y)) s0
      = forEach (y ← seqZ y0 (y1 - y0); [Geo.mkCoordinate x y]) body s0).
    { generalize (seqZ y0 (y1 - y0)) as ys. intros ys.
      induction ys as [|y ys IHy]; intros s0; simpl; [reflexivity|].
      unfold bind. destruct (body _ s0) as [[[]|e] s1]; auto. }
    rewrite Hin.
    destruct (forEach _ body s) as [[[]|e] s1]; [apply IH|reflexivity].
Qed.

Lemma elem_of_rect x0 x1 y0 y1 c :
  c ∈ rect x0 x1 y0 y1 ↔ x0 ≤ Geo.x c < x1 ∧ y0 ≤ Geo.y c < y1.
Proof.
  unfold rect. rewrite list_elem_of_bind. split.
  - intros (x & Hc & Hx). apply list_elem_of_bind in Hc as (y & Hc & Hy).
    apply list_elem_of_singleton in Hc as ->. simpl.
    apply elem_of_seqZ in Hx, Hy. lia.
  - intros [Hx Hy]. exists (Geo.x c). split.
    + apply list_elem_of_bind. exists (Geo.y c). split.
      * destruct c. simpl. apply list_elem_of_singleton. reflexivity.
      * apply elem_of_seqZ. lia.
    + apply elem_of_seqZ. lia.
Qed.

Lemma elem_of_footprint p s c :
  c ∈ footprint p s ↔
    Geo.x p ≤ Geo.x c < Geo.x p + Geo.width s
    ∧ Geo.y p ≤ Geo.y c < Geo.y p + Geo.height s.
Proof. apply elem_of_rect. Qed.

Lemma NoDup_rect x0 x1 y0 y1 : NoDup (rect x0 x1 y0 y1).
Proof.
  unfold rect. apply NoDup_bind.
  - intros x x' c _ _ Hc Hc'.
    apply list_elem_of_bind in Hc as (y & Hc & _).
    apply list_elem_of_bind in Hc' as (y' & Hc' & _).
    apply list_elem_of_singleton in Hc, Hc'. congruence.
  - intros x _. apply NoDup_bind.
    + intros y y' c _ _ Hc Hc'.
      apply list_elem_of_singleton in Hc, Hc'. congruence.
    + intros y _. apply NoDup_singleton.
    + apply NoDup_seqZ.
  - apply NoDup_seqZ.
Qed.

Lemma fits_inBounds w p s c :
  fits w p s → c ∈ footprint p s → inBounds w c.
Proof.
  unfold fits, inBounds. rewrite elem_of_footprint. lia.
Qed.

(** ** Reads and writes of one slot *)

Lemma stable_refl w : stable w w.
Proof. constructor; auto. Qed.

Lemma stable_trans w1 w2 w3 : stable w1 w2 → stable w2 w3 → stable w1 w3.
Proof.
  intros [] []. constructor; try congruence; auto.
Qed.

Lemma stable_inBounds w w' c : stable w w' → inBounds w c → inBounds w' c.
Proof. intros [] H. unfold inBounds in *. congruence. Qed.

Lemma stable_allocated w w' : stable w w' → allocated w → allocated w'.
Proof.
  intros Hst Hal row Hrow. destruct Hst.
  rewrite stable_height0 in Hrow. destruct (Hal row Hrow) as [Hr Hc].
  split; [auto|]. intros col Hcol. rewrite stable_width0 in Hcol. auto.
Qed.

Lemma allocated_row w c :
  allocated w → inBounds w c → is_Some (World._map w !! Geo.y c).
Proof. intros Hal [_ Hy]. apply Hal, Hy. Qed.

Lemma readMap_spec w row col :
  is_Some (World._map w !! row) →
  World.readMap row col w = (Normal (slot w row col), w).
Proof.
  intros [r Hr]. unfold World.readMap, slot. rewrite Hr. reflexivity.
Qed.

(** A write to a row that is there stores the value in its slot and
    leaves the other slots and the other fields. *)
Lemma writeMap_spec w row col v :
  is_Some (World._map w !! row) → v ≠ undefined →
  ∃ w', World.writeMap row col v w = (Normal tt, w')
    ∧ stable w w'
    ∧ World._gameSession w' = World._gameSession w
    ∧ slot w' row col = v
    ∧ ∀ row' col', (row', col') ≠ (row, col) →
        slot w' row' col' = slot w row' col'.
Proof.
  intros [r Hr] Hv. unfold World.writeMap. rewrite Hr.
  eexists. split; [reflexivity|].
  assert (Hslot : ∀ row' col',
    slot (World.with_map (<[row:=<[col:=v]> r]> (World._map w)) w) row' col'
    = if decide ((row', col') = (row, col)) then v else slot w row' col').
  { intros row' col'. unfold slot. simpl.
    destruct (decide (row' = row)) as [->|Hrow].
    - rewrite lookup_insert_eq, Hr.
      destruct (decide (col' = col)) as [->|Hcol].
      + rewrite lookup_total_insert_eq. rewrite decide_True; auto.
      + rewrite lookup_total_insert_ne by auto.
        rewrite decide_False by congruence. reflexivity.
    - rewrite lookup_insert_ne by auto.
      rewrite decide_False by congruence. reflexivity. }
  split; [|split; [reflexivity|split]].
  - constructor; simpl; auto.
    + intros row' Hsome. destruct (decide (row = row')) as [->|Hne].
      * rewrite lookup_insert_eq. eauto.
      * rewrite lookup_insert_ne; auto.
    + intros row' col'. rewrite Hslot. case_decide; auto.
  - rewrite Hslot, decide_True; auto.
  - intros row' col' Hne. rewrite Hslot, decide_False; auto.
Qed.


(** ** setMapCell *)

Lemma outOfBounds_false w c :
  inBounds w c →
  (Geo.x c <? 0) || (Geo.y c <? 0) || (Geo.x c >=? World.width w)
  || (Geo.y c >=? World.height w) = false.
Proof.
  intros [Hx Hy]. rewrite !orb_false_iff, !Z.ltb_ge, !Z.geb_leb, !Z.leb_gt. lia.
Qed.

Lemma outOfBounds_true w c :
  ¬ inBounds w c →
  (Geo.x c <? 0) || (Geo.y c <? 0) || (Geo.x c >=? World.width w)
  || (Geo.y c >=? World.height w) = true.
Proof.
  intros Hout. destruct (_ || _) eqn:E; [reflexivity|]. exfalso. apply Hout.
  rewrite !orb_false_iff, !Z.ltb_ge, !Z.geb_leb, !Z.leb_gt in E.
  unfold inBounds. lia.
Qed.

Lemma intersected_ext w w' l c indices :
  (∀ index, index ≠ layerValue l →
     slot w' (Geo.y c) (Geo.x c + index) = slot w (Geo.y c) (Geo.x c + index)) →
  intersected w' l c indices = intersected w l c indices.
Proof.
  intros Hsame. unfold intersected. f_equal. apply Forall_fmap_ext.
  apply Forall_forall. intros index Hin.
  apply list_elem_of_filter in Hin as [Hne _]. auto.
Qed.

(** The scan writes the slot of the own layer when it meets it and
    collects what the other layers hold. *)
Lemma scanLayers_spec c l i indices : ∀ acc w,
  is_Some (World._map w !! Geo.y c) →
  ∃ w', World.scanLayers c l i indices acc w
        = (Normal (acc ++ intersected w l c indices), w')
    ∧ stable w w'
    ∧ World._gameSession w' = World._gameSession w
    ∧ ∀ row col,
        slot w' row col
        = if decide ((row, col) = (Geo.y c, Geo.x c + layerValue l)
                     ∧ layerValue l ∈ indices)
          then occupant i else slot w row col.
Proof.
  induction indices as [|index rest IH]; intros acc w Hrow; simpl.
  - exists w. unfold intersected, otherLayers. simpl. rewrite app_nil_r.
    split; [reflexivity|]. split; [apply stable_refl|]. split; [reflexivity|].
    intros row col. rewrite decide_False; [reflexivity|].
    intros [_ Hin]. inversion Hin.
  - destruct (decide (index = layerValue l)) as [->|Hne].
    + destruct (writeMap_spec w (Geo.y c) (Geo.x c + layerValue l) (occupant i)
                  Hrow) as (w1 & Hw & Hst & Hgs & Hset & Hframe); [done|].
      destruct (IH acc w1) as (w' & Hscan & Hst' & Hgs' & Hslots).
      { apply Hst, Hrow. }
      exists w'. unfold bind. rewrite Hw, Hscan. split.
      * f_equal. f_equal. f_equal.
        unfold intersected at 2, otherLayers.
        rewrite filter_cons_False by (intros H; apply H; reflexivity).
        apply intersected_ext. intros index Hidx. apply Hframe.
        intros [= ?]. lia.
      * split; [eapply stable_trans; eauto|]. split; [congruence|].
        intros row col. rewrite Hslots.
        destruct (decide ((row, col) = (Geo.y c, Geo.x c + layerValue l)))
          as [[= -> ->]|Hrc].
        -- rewrite Hset.
           destruct (decide (_ ∧ layerValue l ∈ rest)) as [_|_];
             (rewrite decide_True; [reflexivity|]);
             (split; [reflexivity|apply list_elem_of_here]).
        -- rewrite Hframe by assumption.
           rewrite !decide_False by tauto. reflexivity.
    + unfold bind. rewrite (readMap_spec _ _ _ Hrow).
      destruct (IH (if isNotNull (slot w (Geo.y c) (Geo.x c + index))
                    then acc ++ [slot w (Geo.y c) (Geo.x c + index)]
                    else acc) w Hrow) as (w' & Hscan & Hst' & Hgs' & Hslots).
      exists w'. rewrite Hscan. split.
      * f_equal. f_equal. unfold intersected at 2, otherLayers.
        rewrite filter_cons_True by assumption. rewrite fmap_cons.
        fold (otherLayers l rest).
        destruct (isNotNull (slot w (Geo.y c) (Geo.x c + index))) eqn:E.
        -- rewrite filter_cons_True by assumption.
           rewrite <- app_assoc. reflexivity.
        -- rewrite filter_cons_False by (rewrite E; discriminate).
           reflexivity.
      * split; [assumption|]. split; [assumption|].
        intros row col. rewrite Hslots.
        destruct (decide ((row, col) = (Geo.y c, Geo.x c + layerValue l)
                          ∧ layerValue l ∈ rest)) as [[Hrc Hl]|Hno].
        -- rewrite decide_True; [reflexivity|].
           split; [exact Hrc|apply list_elem_of_further, Hl].
        -- rewrite decide_False; [reflexivity|].
           intros [Hrc Hl]. apply Hno. split; [exact Hrc|].
           apply elem_of_cons in Hl as [Hl|Hl]; [congruence|exact Hl].
Qed.

(** Writing [null] is unconditional. *)
Lemma setMapCell_clear w c l :
  inBounds w c → is_Some (World._map w !! Geo.y c) →
  ∃ w', World.setMapCell c l None w = (Normal tt, w')
    ∧ stable w w'
    ∧ World._gameSession w' = World._gameSession w
    ∧ cellAt w' l c = null
    ∧ ∀ row col, (row, col) ≠ (Geo.y c, Geo.x c + layerValue l) →
        slot w' row col = slot w row col.
Proof.
  intros Hin Hrow. unfold World.setMapCell, bind, get.
  rewrite (outOfBounds_false _ _ Hin).
  apply writeMap_spec; [assumption|discriminate].
Qed.

(** A slot that does not read [null] makes the write of an identity
    raise, with nothing written. *)
Lemma setMapCell_occupied w c l i :
  inBounds w c → is_Some (World._map w !! Geo.y c) →
  cellAt w l c ≠ null →
  World.setMapCell c l (Some i) w
  = (Throw (ErrorOverlappingObject i (cellAt w l c)), w).
Proof.
  intros Hin Hrow Hocc. unfold World.setMapCell, bind, get.
  rewrite (outOfBounds_false _ _ Hin), (readMap_spec _ _ _ Hrow).
  unfold cellAt in *.
  destruct (slot w (Geo.y c) (Geo.x c + layerValue l)); simpl;
    [reflexivity|congruence|reflexivity].
Qed.


Lemma layerValue_scanned l : layerValue l ∈ seqZ 0 WorldObjectLayerCount.
Proof. apply elem_of_seqZ. destruct l; simpl; unfold WorldObjectLayerCount; lia. Qed.

(** A slot that reads [null] takes the identity; when the world is
    initialized the event center is told what the other layers of the
    column hold, if they hold anything. *)
Lemma setMapCell_free w c l i :
  inBounds w c → is_Some (World._map w !! Geo.y c) →
  cellAt w l c = null →
  ∃ w', World.setMapCell c l (Some i) w = (Normal tt, w')
    ∧ stable w w'
    ∧ cellAt w' l c = occupant i
    ∧ (∀ row col, (row, col) ≠ (Geo.y c, Geo.x c + layerValue l) →
         slot w' row col = slot w row col)
    ∧ events w'
      = if World._isInitialized w
        then EventCenter.objectIntersect i
               (intersected w l c (seqZ 0 WorldObjectLayerCount)) <$> events w
        else events w.
Proof.
  intros Hin Hrow Hfree. unfold World.setMapCell, bind, get.
  rewrite (outOfBounds_false _ _ Hin), (readMap_spec _ _ _ Hrow).
  unfold cellAt in *. rewrite Hfree. cbn [isNotNull].
  destruct (World._isInitialized w) eqn:Hinit; cbn [negb].
  - destruct (scanLayers_spec c l i (seqZ 0 WorldObjectLayerCount) [] w Hrow)
      as (w1 & Hscan & Hst & Hgs & Hslots).
    rewrite Hscan. simpl.
    assert (Hset : slot w1 (Geo.y c) (Geo.x c + layerValue l) = occupant i).
    { rewrite Hslots, decide_True; [reflexivity|].
      split; [reflexivity|apply layerValue_scanned]. }
    assert (Hframe : ∀ row col,
      (row, col) ≠ (Geo.y c, Geo.x c + layerValue l) →
      slot w1 row col = slot w row col).
    { intros row col Hne. rewrite Hslots, decide_False; [reflexivity|tauto]. }
    destruct (intersected w l c (seqZ 0 WorldObjectLayerCount))
      as [|v vs] eqn:Hint; cbn [length Nat.ltb Nat.leb].
    + exists w1. split; [reflexivity|]. split; [exact Hst|].
      split; [exact Hset|]. split; [exact Hframe|].
      unfold events. rewrite Hgs.
      destruct (World._gameSession w); reflexivity.
    + unfold World.notifyIntersect, modify.
      eexists. split; [reflexivity|].
      destruct (World._gameSession w1) as [g|] eqn:Hg1.
      * split; [|split; [|split]].
        -- destruct Hst. constructor; simpl; auto.
        -- exact Hset.
        -- exact Hframe.
        -- unfold events. simpl. rewrite <- Hgs. reflexivity.
      * split; [exact Hst|]. split; [exact Hset|]. split; [exact Hframe|].
        unfold events. rewrite <- Hgs, Hg1. reflexivity.
  - destruct (writeMap_spec w (Geo.y c) (Geo.x c + layerValue l) (occupant i)
                Hrow) as (w1 & Hw & Hst & Hgs & Hset & Hframe); [done|].
    exists w1. split; [exact Hw|]. split; [exact Hst|].
    split; [exact Hset|]. split; [exact Hframe|].
    unfold events. rewrite Hgs. reflexivity.
Qed.

Lemma setMapCell_outOfBounds w c l v :
  ¬ inBounds w c →
  World.setMapCell c l v w
  = (Throw (Error_OutOfBounds (Geo.x c) (Geo.y c)), w).
Proof.
  intros Hout. unfold World.setMapCell, bind, get.
  rewrite (outOfBounds_true _ _ Hout). reflexivity.
Qed.

(** ** The loops of restructureMap *)

(** On one layer two cells share their slot only when they are the same
    cell. *)
Lemma address_inj l c c' :
  (Geo.y c, Geo.x c + layerValue l) = (Geo.y c', Geo.x c' + layerValue l) →
  c = c'.
Proof.
  destruct c as [x y], c' as [x' y']. simpl. intros [= -> Hx].
  f_equal. lia.
Qed.

(** Clearing a list of cells of the extent clears each of them and leaves
    every slot that is not the slot of one of them. *)
Lemma clearCells_spec l cs : ∀ w,
  allocated w → (∀ c, c ∈ cs → inBounds w c) →
  ∃ w', forEach cs (λ c, World.setMapCell c l None) w = (Normal tt, w')
    ∧ stable w w'
    ∧ World._gameSession w' = World._gameSession w
    ∧ (∀ c, c ∈ cs → cellAt w' l c = null)
    ∧ (∀ row col,
         (∀ c, c ∈ cs → (row, col) ≠ (Geo.y c, Geo.x c + layerValue l)) →
         slot w' row col = slot w row col).
Proof.
  induction cs as [|c cs IH]; intros w Hal Hin; simpl.
  - exists w. split; [reflexivity|]. split; [apply stable_refl|].
    split; [reflexivity|]. split; [|reflexivity].
    intros c Hc. inversion Hc.
  - assert (Hc : inBounds w c) by (apply Hin; left).
    destruct (setMapCell_clear w c l Hc (allocated_row _ _ Hal Hc))
      as (w1 & Hset & Hst & Hgs & Hnull & Hframe).
    destruct (IH w1) as (w' & Hrest & Hst' & Hgs' & Hnull' & Hframe').
    { eapply stable_allocated; eauto. }
    { intros c' Hc'. eapply stable_inBounds; [eassumption|].
      apply Hin. right. assumption. }
    exists w'. unfold bind. rewrite Hset, Hrest.
    split; [reflexivity|]. split; [eapply stable_trans; eauto|].
    split; [congruence|]. split.
    + intros c' Hc'. destruct (decide (c' ∈ cs)) as [Hcs|Hcs].
      * apply Hnull', Hcs.
      * apply elem_of_cons in Hc' as [->|?]; [|contradiction].
        unfold cellAt. rewrite Hframe'; [exact Hnull|].
        intros c' Hc' Heq. apply address_inj in Heq. congruence.
    + intros row col Hout. rewrite Hframe'.
      * apply Hframe. apply Hout. left.
      * intros c' Hc'. apply Hout. right. assumption.
Qed.

(** The first cell outside the extent stops the clearing with an
    out-of-bounds error. *)
Lemma clearCells_outOfBounds l pre c post : ∀ w,
  allocated w → (∀ c', c' ∈ pre → inBounds w c') → ¬ inBounds w c →
  ∃ w', forEach (pre ++ c :: post) (λ c, World.setMapCell c l None) w
        = (Throw (Error_OutOfBounds (Geo.x c) (Geo.y c)), w')
    ∧ stable w w'.
Proof.
  intros w Hal Hin Hout.
  destruct (clearCells_spec l pre w Hal Hin) as (w1 & Hpre & Hst & _).
  exists w1. rewrite forEach_app. unfold bind. rewrite Hpre. simpl.
  unfold bind. rewrite setMapCell_outOfBounds.
  - split; [reflexivity|assumption].
  - intros Hc. apply Hout. destruct Hst. unfold inBounds in *. congruence.
Qed.

(** Writing an identity into cells that all read [null]. *)
Lemma writeCells_free l i cs : ∀ w,
  allocated w → NoDup cs → (∀ c, c ∈ cs → inBounds w c) →
  (∀ c, c ∈ cs → cellAt w l c = null) →
  ∃ w', forEach cs (λ c, World.setMapCell c l (Some i)) w = (Normal tt, w')
    ∧ stable w w'
    ∧ (∀ c, c ∈ cs → cellAt w' l c = occupant i)
    ∧ (∀ row col,
         (∀ c, c ∈ cs → (row, col) ≠ (Geo.y c, Geo.x c + layerValue l)) →
         slot w' row col = slot w row col).
Proof.
  induction cs as [|c cs IH]; intros w Hal Hnd Hin Hfree; simpl.
  - exists w. split; [reflexivity|]. split; [apply stable_refl|].
    split; [|reflexivity]. intros c Hc. inversion Hc.
  - apply NoDup_cons in Hnd as [Hc_cs Hnd].
    assert (Hc : inBounds w c) by (apply Hin; left).
    destruct (setMapCell_free w c l i Hc (allocated_row _ _ Hal Hc))
      as (w1 & Hset & Hst & Hid & Hframe & _); [apply Hfree; left|].
    destruct (IH w1) as (w' & Hrest & Hst' & Hid' & Hframe').
    { eapply stable_allocated; eauto. }
    { assumption. }
    { intros c' Hc'. eapply stable_inBounds; [eassumption|].
      apply Hin. right. assumption. }
    { intros c' Hc'. unfold cellAt. rewrite Hframe.
      - apply Hfree. right. assumption.
      - intros Heq. apply address_inj in Heq. congruence. }
    exists w'. unfold bind. rewrite Hset, Hrest.
    split; [reflexivity|]. split; [eapply stable_trans; eauto|]. split.
    + intros c' Hc'. apply elem_of_cons in Hc' as [->|Hc'].
      * unfold cellAt. rewrite Hframe'; [exact Hid|].
        intros c' Hc' Heq. apply address_inj in Heq. congruence.
      * apply Hid', Hc'.
    + intros row col Hout. rewrite Hframe'.
      * apply Hframe. apply Hout. left.
      * intros c' Hc'. apply Hout. right. assumption.
Qed.

(** Writing stops at the first cell that does not read [null]: the cells
    before it keep the identity just written, the error names the
    occupant of that cell as it was. *)
Lemma writeCells_occupied l i pre c post : ∀ w,
  allocated w → NoDup (pre ++ c :: post) →
  (∀ c', c' ∈ pre ++ c :: post → inBounds w c') →
  (∀ c', c' ∈ pre → cellAt w l c' = null) →
  cellAt w l c ≠ null →
  ∃ w', forEach (pre ++ c :: post) (λ c, World.setMapCell c l (Some i)) w
        = (Throw (ErrorOverlappingObject i (cellAt w l c)), w')
    ∧ stable w w'
    ∧ (∀ c', c' ∈ pre → cellAt w' l c' = occupant i)
    ∧ (∀ row col,
         (∀ c', c' ∈ pre → (row, col) ≠ (Geo.y c', Geo.x c' + layerValue l)) →
         slot w' row col = slot w row col).
Proof.
  intros w Hal Hnd Hin Hfree Hocc.
  apply NoDup_app in Hnd as (Hpre & Hdisj & Hrest).
  destruct (writeCells_free l i pre w Hal Hpre) as (w1 & Hw & Hst & Hid & Hframe).
  { intros c' Hc'. apply Hin, elem_of_app. left. assumption. }
  { assumption. }
  assert (Hsame : cellAt w1 l c = cellAt w l c).
  { unfold cellAt. apply Hframe. intros c' Hc' Heq.
    apply address_inj in Heq. subst c'. apply (Hdisj c Hc'). left. }
  assert (Hc : inBounds w1 c).
  { eapply stable_inBounds; [eassumption|]. apply Hin, elem_of_app.
    right. left. }
  exists w1. rewrite forEach_app. unfold bind. rewrite Hw. simpl.
  unfold bind. rewrite setMapCell_occupied.
  - rewrite Hsame. split; [reflexivity|]. split; [assumption|].
    split; assumption.
  - assumption.
  - apply allocated_row; [eapply stable_allocated; eauto|assumption].
  - rewrite Hsame. assumption.
Qed.

(** ** restructureMap *)

Lemma fits_check w p s :
  fits w p s →
  (Geo.x p <? 0) || (Geo.y p <? 0)
  || (Geo.x p + Geo.width s >? World.width w)
  || (Geo.y p + Geo.height s >? World.height w) = false.
Proof.
  intros (Hx & Hy & Hw & Hh).
  rewrite !orb_false_iff, !Z.ltb_ge, !Z.gtb_ltb, !Z.ltb_ge. lia.
Qed.

Lemma not_fits_check w p s :
  ¬ fits w p s →
  (Geo.x p <? 0) || (Geo.y p <? 0)
  || (Geo.x p + Geo.width s >? World.width w)
  || (Geo.y p + Geo.height s >? World.height w) = true.
Proof.
  intros Hout. destruct (_ || _) eqn:E; [reflexivity|]. exfalso. apply Hout.
  rewrite !orb_false_iff, !Z.ltb_ge, !Z.gtb_ltb, !Z.ltb_ge in E.
  unfold fits. lia.
Qed.

(** A new position that does not fit is rejected before any write,
    whatever the old position. *)
Lemma restructureMap_rejects i l s old p w :
  ¬ fits w p s →
  World.restructureMap i l s old (Some p) w = (Normal false, w).
Proof.
  intros Hout. unfold World.restructureMap, bind, get.
  destruct old; rewrite (not_fits_check _ _ _ Hout); reflexivity.
Qed.

(** Only the old position: its rectangle is cleared. *)
Lemma restructureMap_remove i l s old w :
  allocated w → (∀ c, c ∈ footprint old s → inBounds w c) →
  ∃ w', World.restructureMap i l s (Some old) None w = (Normal true, w')
    ∧ stable w w'
    ∧ World._gameSession w' = World._gameSession w
    ∧ (∀ c, c ∈ footprint old s → cellAt w' l c = null)
    ∧ (∀ row col,
         (∀ c, c ∈ footprint old s →
            (row, col) ≠ (Geo.y c, Geo.x c + layerValue l)) →
         slot w' row col = slot w row col).
Proof.
  intros Hal Hin.
  destruct (clearCells_spec l (footprint old s) w Hal Hin)
    as (w' & Hclear & Hrest).
  exists w'. split; [|exact Hrest].
  unfold World.restructureMap, bind, get.
  rewrite (forRange_nested _ _ _ _ (λ c, World.setMapCell c l None)).
  fold (footprint old s). rewrite Hclear. reflexivity.
Qed.

(** Only the old position, with a cell outside the extent: the write of
    the first such cell raises. *)
Lemma restructureMap_remove_outOfBounds i l s old pre c post w :
  allocated w → footprint old s = pre ++ c :: post →
  (∀ c', c' ∈ pre → inBounds w c') → ¬ inBounds w c →
  ∃ w', World.restructureMap i l s (Some old) None w
        = (Throw (Error_OutOfBounds (Geo.x c) (Geo.y c)), w')
    ∧ stable w w'.
Proof.
  intros Hal Hsplit Hin Hout.
  destruct (clearCells_outOfBounds l pre c post w Hal Hin Hout)
    as (w' & Hclear & Hst).
  exists w'. split; [|exact Hst].
  unfold World.restructureMap, bind, get.
  rewrite (forRange_nested _ _ _ _ (λ c, World.setMapCell c l None)).
  fold (footprint old s). rewrite Hsplit, Hclear. reflexivity.
Qed.

(** Only the new position, all of whose cells read [null]. *)
Lemma restructureMap_add_free i l s p w :
  allocated w → fits w p s →
  (∀ c, c ∈ footprint p s → cellAt w l c = null) →
  ∃ w', World.restructureMap i l s None (Some p) w = (Normal true, w')
    ∧ stable w w'
    ∧ (∀ c, c ∈ footprint p s → cellAt w' l c = occupant i)
    ∧ (∀ row col,
         (∀ c, c ∈ footprint p s →
            (row, col) ≠ (Geo.y c, Geo.x c + layerValue l)) →
         slot w' row col = slot w row col).
Proof.
  intros Hal Hfits Hfree.
  destruct (writeCells_free l i (footprint p s) w Hal (NoDup_rect _ _ _ _))
    as (w' & Hwrite & Hrest); [eauto using fits_inBounds|assumption|].
  exists w'. split; [|exact Hrest].
  unfold World.restructureMap, bind, get. rewrite (fits_check _ _ _ Hfits).
  rewrite (forRange_nested _ _ _ _ (λ c, World.setMapCell c l (Some i))).
  fold (footprint p s). rewrite Hwrite. reflexivity.
Qed.

(** Only the new position, one of whose cells does not read [null]. *)
Lemma restructureMap_add_occupied i l s p pre c post w :
  allocated w → fits w p s →
  footprint p s = pre ++ c :: post →
  (∀ c', c' ∈ pre → cellAt w l c' = null) →
  cellAt w l c ≠ null →
  ∃ w', World.restructureMap i l s None (Some p) w
        = (Throw (ErrorOverlappingObject i (cellAt w l c)), w')
    ∧ stable w w'
    ∧ (∀ c', c' ∈ pre → cellAt w' l c' = occupant i)
    ∧ (∀ row col,
         (∀ c', c' ∈ pre → (row, col) ≠ (Geo.y c', Geo.x c' + layerValue l)) →
         slot w' row col = slot w row col).
Proof.
  intros Hal Hfits Hsplit Hfree Hocc.
  destruct (writeCells_occupied l i pre c post w Hal)
    as (w' & Hwrite & Hrest); try assumption.
  { rewrite <- Hsplit. apply NoDup_rect. }
  { intros c' Hc'. rewrite <- Hsplit in Hc'. eauto using fits_inBounds. }
  exists w'. split; [|exact Hrest].
  unfold World.restructureMap, bind, get. rewrite (fits_check _ _ _ Hfits).
  rewrite (forRange_nested _ _ _ _ (λ c, World.setMapCell c l (Some i))).
  fold (footprint p s). rewrite Hsplit, Hwrite. reflexivity.
Qed.

(** A list splits at its first element with a decidable property. *)
Lemma first_split {A} (P : A → Prop) `{∀ a, Decision (P a)} (l : list A) :
  (∃ a, a ∈ l ∧ P a) →
  ∃ pre a post, l = pre ++ a :: post ∧ (∀ b, b ∈ pre → ¬ P b) ∧ P a.
Proof.
  induction l as [|b l IH]; intros (a & Hin & Ha).
  - inversion Hin.
  - destruct (decide (P b)) as [Hb|Hb].
    + exists [], b, l. split; [reflexivity|]. split; [|assumption].
      intros b' Hb'. inversion Hb'.
    + destruct IH as (pre & a' & post & -> & Hpre & Ha').
      { exists a. split; [|assumption].
        apply elem_of_cons in Hin as [->|Hin]; [contradiction|assumption]. }
      exists (b :: pre), a', post. split; [reflexivity|]. split; [|assumption].
      intros b' Hb'. apply elem_of_cons in Hb' as [->|Hb']; auto.
Qed.

(** ** No write of a cell touches the rest of the state *)

Lemma setMapCell_stable c l v w : stable w (World.setMapCell c l v w).2.
Proof.
  destruct (decide (inBounds w c)) as [Hin|Hout].
  2: { rewrite setMapCell_outOfBounds by assumption. apply stable_refl. }
  destruct (World._map w !! Geo.y c) as [r|] eqn:Hr.
  - assert (Hrow : is_Some (World._map w !! Geo.y c)) by (rewrite Hr; eauto).
    destruct v as [i|].
    + destruct (decide (cellAt w l c = null)) as [Hfree|Hocc].
      * destruct (setMapCell_free w c l i Hin Hrow Hfree) as (w' & -> & Hst & _).
        exact Hst.
      * rewrite setMapCell_occupied by assumption. apply stable_refl.
    + destruct (setMapCell_clear w c l Hin Hrow) as (w' & -> & Hst & _).
      exact Hst.
  - unfold World.setMapCell, bind, get. rewrite (outOfBounds_false _ _ Hin).
    destruct v; unfold World.readMap, World.writeMap; rewrite Hr;
      apply stable_refl.
Qed.

Lemma forEach_stable {A} (body : A → Eff World.t unit) (l : list A) :
  (∀ a w, stable w (body a w).2) → ∀ w, stable w (forEach l body w).2.
Proof.
  intros Hbody. induction l as [|a l IH]; intros w; simpl.
  - apply stable_refl.
  - unfold bind. specialize (Hbody a w).
    destruct (body a w) as [[[]|e] w1]; simpl in *; [|assumption].
    eapply stable_trans; [eassumption|apply IH].
Qed.

Lemma bind_stable {A B} (m : Eff World.t A) (k : A → Eff World.t B) w :
  stable w (m w).2 → (∀ a w1, stable w1 (k a w1).2) →
  stable w (bind m k w).2.
Proof.
  intros Hm Hk. unfold bind. destruct (m w) as [[a|e] w1]; simpl in *.
  - eapply stable_trans; [eassumption|apply Hk].
  - assumption.
Qed.

Lemma strip_stable x0 x1 y0 y1 l v w :
  stable w (forRange x0 x1 (λ x, forRange y0 y1 (λ y,
              World.setMapCell (Geo.mkCoordinate x y) l v)) w).2.
Proof.
  unfold forRange. apply forEach_stable. intros x w1.
  apply forEach_stable. intros y w2. apply setMapCell_stable.
Qed.

(** Whatever its arguments and however it completes, [restructureMap]
    leaves the registry, the extent and the shape of the buffer. *)
Lemma restructureMap_stable i l s old new w :
  stable w (World.restructureMap i l s old new w).2.
Proof.
  unfold World.restructureMap. apply bind_stable; [apply stable_refl|].
  intros w0 w1. destruct old as [old|], new as [new|];
    try apply stable_refl;
    try (match goal with
         | |- context [if ?b then _ else _] => destruct b
         end);
    try apply stable_refl;
    repeat (apply bind_stable; [apply strip_stable|intros ? ?]);
    apply stable_refl.
Qed.

(** ** The registry *)

Lemma JsMap_set_same {V} k (v : V) m :
  JsMap.get k m = Some v → JsMap.set k v m = m.
Proof.
  induction m as [|[k' v'] m IH]; simpl; [discriminate|].
  destruct (decide (k' = k)) as [->|Hne].
  - intros [= ->]. reflexivity.
  - intros Hget. rewrite IH by assumption. reflexivity.
Qed.

Lemma JsMap_get_set {V} k (v : V) m : JsMap.get k (JsMap.set k v m) = Some v.
Proof.
  induction m as [|[k' v'] m IH]; simpl.
  - rewrite decide_True; reflexivity.
  - destruct (decide (k' = k)) as [->|Hne]; simpl.
    + rewrite decide_True; reflexivity.
    + rewrite decide_False by assumption. exact IH.
Qed.

Lemma JsMap_get_delete {V} k (m : JsMap.t V) :
  JsMap.get k (JsMap.delete k m) = None.
Proof.
  unfold JsMap.delete, JsMap.t in *.
  induction m as [|[k' v'] m IH]; [reflexivity|].
  rewrite filter_cons. simpl. destruct (decide (k' ≠ k)) as [Hne|Heq].
  - simpl. rewrite decide_False by assumption. exact IH.
  - exact IH.
Qed.

Lemma with_objects_same f w :
  f (World.objects w) = World.objects w → World.with_objects f w = w.
Proof. destruct w. unfold World.with_objects. simpl. intros ->. reflexivity. Qed.

Lemma coordinate_eta p : Geo.mkCoordinate (Geo.x p) (Geo.y p) = p.
Proof. destruct p. reflexivity. Qed.

(** In an allocated buffer a cell of the extent is [null] or holds an
    identity. *)
Lemma allocated_cell w l c :
  allocated w → inBounds w c → cellAt w l c ≠ undefined.
Proof.
  intros Hal [Hx Hy]. apply (Hal _ Hy).
  unfold WorldObjectLayerCount. destruct l; simpl; lia.
Qed.

(** ** The tests of the repository, run on the model *)

(** "normal placement" and "overlapping placement" *)
Example test_placeObject :
  result (World.placeObject "brick/A" None)
    (run (World.installObject (Brick "A" (at_ 0 0))) testWorld)
  = Normal (Some (at_ 0 0))
  ∧ result (World.placeObject "brick/B" None)
      (run (World.installObject (Brick "B" (at_ 0 0))) brickWorld)
    = Throw (ErrorOverlappingObject "brick/B" (occupant "brick/A")).
Proof. vm_compute. split; reflexivity. Qed.

(** "single lookup" and "multiple lookup" *)
Example test_lookupByLayer :
  result (World.lookupByLayer GROUND [at_ 0 0]) lookupTestWorld
  = Normal [occupant "brick/A"]
  ∧ result (World.lookupByLayer GROUND [at_ 0 0; at_ 1 1]) lookupTestWorld
    = Normal [occupant "brick/A"; null].
Proof. vm_compute. split; reflexivity. Qed.

(** "normal takeout" and "non-existent takeout" *)
Example test_displaceObject :
  result (World.displaceObject "brick/A") brickWorld = Normal true
  ∧ result (World.lookupByLayer GROUND [at_ 0 0])
      (run (World.displaceObject "brick/A") brickWorld)
    = Normal [null]
  ∧ result (World.displaceObject "non-existent") testWorld = Normal false.
Proof. vm_compute. repeat split. Qed.

(** "normal move" and "non-existent move" *)
Example test_moveObject :
  result (World.moveObject "brick/A" (at_ 1 1)) brickWorld
  = Normal (Some (at_ 1 1))
  ∧ result (World.lookupByLayer GROUND [at_ 0 0; at_ 1 1])
      (run (World.moveObject "brick/A" (at_ 1 1)) brickWorld)
    = Normal [null; occupant "brick/A"]
  ∧ result (World.moveObject "non-existent" (at_ 2 2)) brickWorld
    = Normal None
  ∧ result (World.lookupByLayer GROUND [at_ 2 2])
      (run (World.moveObject "non-existent" (at_ 2 2)) brickWorld)
    = Normal [null].
Proof. vm_compute. repeat split. Qed.

(** * The claims *)

(** ** Moving out of the extent *)

(** The bounds check of [restructureMap] is the first thing a move does
    for a registered entity. *)
Lemma moveObject_rejects w objectID object newPosition :
  JsMap.get objectID (World.objects w) = Some object →
  ¬ fits w newPosition (WorldObject.size object) →
  World.moveObject objectID newPosition w = (Normal None, w).
Proof.
  intros Hget Hout. unfold World.moveObject, bind, get.
  destruct (World._isInitialized w); [|reflexivity]. simpl. rewrite Hget.
  rewrite coordinate_eta, restructureMap_rejects; [reflexivity|exact Hout].
Qed.

(** C6. For every registered entity and every destination whose footprint
    has a cell outside [0,width) x [0,height), [moveObject] returns none
    and the world it leaves is the world it found: no cell is written
    before the bounds check rejects, and the placement of the entity is
    intact. *)
Theorem moveObject_out_of_bounds_unchanged
    (w : World.t) (objectID : WorldObjectID) (object : WorldObject.t)
    (newPosition : Geo.Coordinate) :
  JsMap.get objectID (World.objects w) = Some object →
  (∃ c, c ∈ footprint newPosition (WorldObject.size object)
        ∧ ¬ inBounds w c) →
  World.moveObject objectID newPosition w = (Normal None, w).
Proof.
  intros Hget (c & Hc & Hout). apply (moveObject_rejects _ _ _ _ Hget).
  intros Hfits. apply Hout. eapply fits_inBounds; eassumption.
Qed.

Lemma moveObject_out_of_bounds_unchanged_witness :
  JsMap.get "brick/A" (World.objects brickWorld)
  = Some (WorldObject.init (Brick "A" (at_ 0 0)))
  ∧ at_ 10 0 ∈ footprint (at_ 10 0) (Geo.mkSize 1 1)
  ∧ ¬ inBounds brickWorld (at_ 10 0)
  ∧ World.moveObject "brick/A" (at_ 10 0) brickWorld
    = (Normal None, brickWorld).
Proof.
  assert (Hget : JsMap.get "brick/A" (World.objects brickWorld)
                 = Some (WorldObject.init (Brick "A" (at_ 0 0))))
    by (vm_compute; reflexivity).
  assert (Hin : at_ 10 0 ∈ footprint (at_ 10 0) (Geo.mkSize 1 1))
    by (apply elem_of_footprint; simpl; lia).
  assert (Hout : ¬ inBounds brickWorld (at_ 10 0)).
  { assert (Hw : World.width brickWorld = 10) by (vm_compute; reflexivity).
    unfold inBounds. rewrite Hw. simpl. lia. }
  split; [exact Hget|]. split; [exact Hin|]. split; [exact Hout|].
  apply (moveObject_out_of_bounds_unchanged brickWorld "brick/A" _ (at_ 10 0)
           Hget).
  exists (at_ 10 0). split; [exact Hin|exact Hout].
Defined.

(** ** Operations before init *)

(** C7, as the code has it. Before [init], [installObject],
    [uninstallObject], [placeObject], [displaceObject] and the two
    compositions built on them raise "World is not initialized";
    [moveObject] returns none without raising. All of them leave the world,
    so the registry and the cell buffer, as it was. *)
Theorem operations_before_init
    (w : World.t) (object : WorldObject.t) (objectID : WorldObjectID)
    (position : option Geo.Coordinate) (newPosition : Geo.Coordinate) :
  World._isInitialized w = false →
  World.installObject object w = (Throw Error_WorldNotInitialized, w)
  ∧ World.uninstallObject objectID w = (Throw Error_WorldNotInitialized, w)
  ∧ World.placeObject objectID position w
    = (Throw Error_WorldNotInitialized, w)
  ∧ World.displaceObject objectID w = (Throw Error_WorldNotInitialized, w)
  ∧ World.installAndPlaceObject object w
    = (Throw Error_WorldNotInitialized, w)
  ∧ World.uninstallAndDisplaceObject objectID w
    = (Throw Error_WorldNotInitialized, w)
  ∧ World.moveObject objectID newPosition w = (Normal None, w).
Proof.
  intros Hinit.
  unfold World.installAndPlaceObject, World.uninstallAndDisplaceObject,
    World.installObject, World.uninstallObject, World.placeObject,
    World.displaceObject, World.moveObject, bind, get.
  rewrite Hinit. simpl. repeat split.
Qed.

Lemma operations_before_init_witness :
  World._isInitialized freshWorld = false
  ∧ World.installObject (Brick "B" (at_ 1 1)) freshWorld
    = (Throw Error_WorldNotInitialized, freshWorld)
  ∧ World.uninstallObject "brick/A" freshWorld
    = (Throw Error_WorldNotInitialized, freshWorld)
  ∧ World.placeObject "brick/A" None freshWorld
    = (Throw Error_WorldNotInitialized, freshWorld)
  ∧ World.displaceObject "brick/A" freshWorld
    = (Throw Error_WorldNotInitialized, freshWorld)
  ∧ World.installAndPlaceObject (Brick "B" (at_ 1 1)) freshWorld
    = (Throw Error_WorldNotInitialized, freshWorld)
  ∧ World.uninstallAndDisplaceObject "brick/A" freshWorld
    = (Throw Error_WorldNotInitialized, freshWorld)
  ∧ World.moveObject "brick/A" (at_ 1 1) freshWorld
    = (Normal None, freshWorld).
Proof.
  split; [reflexivity|].
  apply (operations_before_init freshWorld (Brick "B" (at_ 1 1)) "brick/A"
           None (at_ 1 1)).
  reflexivity.
Defined.

(** C7 as stated fails: [moveObject] on a world that was never initialized
    completes normally with none; nothing is raised. *)
Lemma moveObject_before_init_is_silent :
  World._isInitialized freshWorld = false
  ∧ JsMap.has "brick/A" (World.objects freshWorld) = true
  ∧ result (World.moveObject "brick/A" (at_ 1 1)) freshWorld = Normal None
  ∧ ¬ ∃ e, result (World.moveObject "brick/A" (at_ 1 1)) freshWorld = Throw e.
Proof.
  split; [reflexivity|]. split; [reflexivity|]. split; [reflexivity|].
  intros [e He]. vm_compute in He. discriminate.
Qed.

(** ** uninstallAndDisplaceObject *)

(** What the composition does for a registered identity: the uninstall
    removes it, so the displace that follows does not find it. *)
Lemma uninstallAndDisplaceObject_registered w object :
  World._isInitialized w = true →
  JsMap.get (WorldObject.id object) (World.objects w) = Some object →
  World.uninstallAndDisplaceObject (WorldObject.id object) w
  = (Normal false,
     World.with_objects (JsMap.delete (WorldObject.id object)) w).
Proof.
  intros Hinit Hget.
  unfold World.uninstallAndDisplaceObject, World.uninstallObject,
    World.displaceObject, bind, get, modify, ret.
  rewrite Hinit. simpl. rewrite Hget. simpl. rewrite Hinit. simpl.
  rewrite JsMap_get_delete. reflexivity.
Qed.

(** C8 fails on the code. The brick is registered and placed at (0, 0);
    [uninstallAndDisplaceObject] returns false, the brick is gone from the
    registry, and its cell still holds its identity. *)
Theorem uninstallAndDisplaceObject_leaves_cells :
  World._isInitialized brickWorld = true
  ∧ JsMap.has "brick/A" (World.objects brickWorld) = true
  ∧ cellAt brickWorld GROUND (at_ 0 0) = occupant "brick/A"
  ∧ result (World.uninstallAndDisplaceObject "brick/A") brickWorld
    = Normal false
  ∧ JsMap.has "brick/A"
      (World.objects (run (World.uninstallAndDisplaceObject "brick/A")
                          brickWorld)) = false
  ∧ cellAt (run (World.uninstallAndDisplaceObject "brick/A") brickWorld)
      GROUND (at_ 0 0) = occupant "brick/A".
Proof. vm_compute. repeat split. Qed.

(** ** placeObject *)

(** The part of [placeObject] that comes before the writes, for an object
    registered under its identity: the registry is as it was when
    [restructureMap] runs. *)
Lemma placeObject_registered w object position :
  World._isInitialized w = true →
  JsMap.get (WorldObject.id object) (World.objects w) = Some object →
  World.placeObject (WorldObject.id object) position w
  = bind
      (World.restructureMap (WorldObject.id object) (WorldObject.layer object)
         (WorldObject.size object) None
         (Some (default (WorldObject.position object) position)))
      (λ isSuccessful,
         if negb isSuccessful then ret None
         else
           match WorldObject.placed
                   (default (WorldObject.position object) position) object
           with
           | Throw e => throw e
           | Normal object' =>
               bind
                 (modify (World.with_objects (λ m,
                    match JsMap.get (WorldObject.id object) m with
                    | Some _ => JsMap.set (WorldObject.id object) object' m
                    | None => m
                    end)))
                 (λ _, ret (Some (default (WorldObject.position object)
                                    position)))
           end) w.
Proof.
  intros Hinit Hget. unfold World.placeObject.
  unfold bind at 1, get. rewrite Hinit. cbn [negb]. rewrite Hget.
  rewrite !coordinate_eta. unfold bind at 1, modify.
  rewrite with_objects_same by (apply JsMap_set_same, Hget). reflexivity.
Qed.

(** Placing on a footprint one of whose cells is taken: the error names
    the incoming identity and the occupant of the first taken cell; the
    cells visited before it stay written. *)
Lemma placeObject_occupied w object position pre c post :
  World._isInitialized w = true → allocated w →
  JsMap.get (WorldObject.id object) (World.objects w) = Some object →
  fits w (default (WorldObject.position object) position)
         (WorldObject.size object) →
  footprint (default (WorldObject.position object) position)
            (WorldObject.size object) = pre ++ c :: post →
  (∀ c', c' ∈ pre → cellAt w (WorldObject.layer object) c' = null) →
  cellAt w (WorldObject.layer object) c ≠ null →
  ∃ w', World.placeObject (WorldObject.id object) position w
        = (Throw (ErrorOverlappingObject (WorldObject.id object)
                    (cellAt w (WorldObject.layer object) c)), w')
    ∧ stable w w'
    ∧ (∀ c', c' ∈ pre →
         cellAt w' (WorldObject.layer object) c'
         = occupant (WorldObject.id object))
    ∧ (∀ row col,
         (∀ c', c' ∈ pre →
            (row, col)
            ≠ (Geo.y c', Geo.x c' + layerValue (WorldObject.layer object))) →
         slot w' row col = slot w row col).
Proof.
  intros Hinit Hal Hget Hfits Hsplit Hfree Hocc.
  destruct (restructureMap_add_occupied (WorldObject.id object)
              (WorldObject.layer object) (WorldObject.size object)
              _ pre c post w Hal Hfits Hsplit Hfree Hocc)
    as (w' & Hr & Hrest).
  exists w'. split; [|exact Hrest].
  rewrite placeObject_registered by assumption.
  unfold bind at 1. rewrite Hr. reflexivity.
Qed.

(** Placing on a footprint all of whose cells read [null]: every cell
    takes the identity, the object is told its position, which the
    registry then shows, and the position asked for is returned. *)
Lemma placeObject_free w object position :
  World._isInitialized w = true → allocated w →
  JsMap.get (WorldObject.id object) (World.objects w) = Some object →
  fits w (default (WorldObject.position object) position)
         (WorldObject.size object) →
  (∀ c, c ∈ footprint (default (WorldObject.position object) position)
                      (WorldObject.size object) →
        cellAt w (WorldObject.layer object) c = null) →
  ∃ w', World.placeObject (WorldObject.id object) position w
        = (match WorldObject.placed
                   (default (WorldObject.position object) position) object
           with
           | Normal _ =>
               Normal (Some (default (WorldObject.position object) position))
           | Throw e => Throw e
           end, w')
    ∧ World.objects w'
      = match WorldObject.placed
                (default (WorldObject.position object) position) object
        with
        | Normal object' =>
            JsMap.set (WorldObject.id object) object' (World.objects w)
        | Throw _ => World.objects w
        end
    ∧ (∀ c, c ∈ footprint (default (WorldObject.position object) position)
                          (WorldObject.size object) →
         cellAt w' (WorldObject.layer object) c
         = occupant (WorldObject.id object))
    ∧ (∀ row col,
         (∀ c, c ∈ footprint (default (WorldObject.position object) position)
                             (WorldObject.size object) →
            (row, col)
            ≠ (Geo.y c, Geo.x c + layerValue (WorldObject.layer object))) →
         slot w' row col = slot w row col).
Proof.
  intros Hinit Hal Hget Hfits Hfree.
  destruct (restructureMap_add_free (WorldObject.id object)
              (WorldObject.layer object) (WorldObject.size object)
              _ w Hal Hfits Hfree) as (w1 & Hr & Hst & Hid & Hframe).
  rewrite placeObject_registered by assumption.
  unfold bind at 1. rewrite Hr. simpl.
  destruct (WorldObject.placed _ object) as [object'|e].
  - eexists. split; [reflexivity|]. split; [|split; assumption].
    simpl. rewrite (stable_objects _ _ Hst), Hget. reflexivity.
  - exists w1. split; [reflexivity|]. split; [apply Hst|]. split; assumption.
Qed.

(** After a placement that succeeds the registry holds the entity with
    the position it was placed at. *)
Lemma placeObject_stores_position w object position :
  World._isInitialized w = true → allocated w →
  JsMap.get (WorldObject.id object) (World.objects w) = Some object →
  WorldObject.isInitialized object = true →
  fits w (default (WorldObject.position object) position)
         (WorldObject.size object) →
  (∀ c, c ∈ footprint (default (WorldObject.position object) position)
                      (WorldObject.size object) →
        cellAt w (WorldObject.layer object) c = null) →
  ∃ w', World.placeObject (WorldObject.id object) position w
        = (Normal (Some (default (WorldObject.position object) position)), w')
    ∧ WorldObject.position <$>
        JsMap.get (WorldObject.id object) (World.objects w')
      = Some (default (WorldObject.position object) position).
Proof.
  intros Hinit Hal Hget Hobj Hfits Hfree.
  destruct (placeObject_free w object position Hinit Hal Hget Hfits Hfree)
    as (w' & Hplace & Hobjects & _).
  unfold WorldObject.placed in *. rewrite Hobj in *. simpl in *.
  exists w'. split; [exact Hplace|].
  rewrite Hobjects, JsMap_get_set. reflexivity.
Qed.

(** The same with the occupant named: in an allocated buffer the taken
    cell holds an identity. *)
Lemma placeObject_taken w object position pre c post :
  World._isInitialized w = true → allocated w →
  JsMap.get (WorldObject.id object) (World.objects w) = Some object →
  fits w (default (WorldObject.position object) position)
         (WorldObject.size object) →
  footprint (default (WorldObject.position object) position)
            (WorldObject.size object) = pre ++ c :: post →
  (∀ c', c' ∈ pre → cellAt w (WorldObject.layer object) c' = null) →
  cellAt w (WorldObject.layer object) c ≠ null →
  ∃ existing w',
    cellAt w (WorldObject.layer object) c = occupant existing
    ∧ World.placeObject (WorldObject.id object) position w
      = (Throw (ErrorOverlappingObject (WorldObject.id object)
                  (occupant existing)), w')
    ∧ stable w w'
    ∧ (∀ c', c' ∈ pre →
         cellAt w' (WorldObject.layer object) c'
         = occupant (WorldObject.id object))
    ∧ (∀ row col,
         (∀ c', c' ∈ pre →
            (row, col)
            ≠ (Geo.y c', Geo.x c' + layerValue (WorldObject.layer object))) →
         slot w' row col = slot w row col).
Proof.
  intros Hinit Hal Hget Hfits Hsplit Hfree Hocc.
  destruct (placeObject_occupied w object position pre c post)
    as (w' & Hplace & Hst & Hid & Hframe); try assumption.
  assert (Hc : inBounds w c).
  { eapply fits_inBounds; [exact Hfits|]. rewrite Hsplit.
    apply elem_of_app. right. left. }
  pose proof (allocated_cell w (WorldObject.layer object) c Hal Hc) as Hdef.
  destruct (cellAt w (WorldObject.layer object) c) as [| |existing] eqn:Hcell;
    try congruence.
  exists existing, w'. split; [reflexivity|]. split; [exact Hplace|].
  split; [exact Hst|]. split; assumption.
Qed.

(** C2, as the code has it. For every placement of a registered entity on
    an initialized grid whose target footprint fits the extent and has a
    cell that is taken on the layer of the entity, an overlap error is
    raised that names the incoming identity and the occupant of the first
    taken cell in the order of the scan; the registry is unchanged; the
    cells of the footprint that the scan visited before that cell hold
    the incoming identity afterwards (they are not rolled back) and every
    other slot of the buffer is as before. *)
Theorem placeObject_overlap_keeps_earlier_writes
    (w : World.t) (object : WorldObject.t) (position : option Geo.Coordinate)
    (pre : list Geo.Coordinate) (c : Geo.Coordinate)
    (post : list Geo.Coordinate) :
  World._isInitialized w = true → allocated w →
  JsMap.get (WorldObject.id object) (World.objects w) = Some object →
  fits w (default (WorldObject.position object) position)
         (WorldObject.size object) →
  footprint (default (WorldObject.position object) position)
            (WorldObject.size object) = pre ++ c :: post →
  (∀ c', c' ∈ pre → cellAt w (WorldObject.layer object) c' = null) →
  cellAt w (WorldObject.layer object) c ≠ null →
  ∃ existing w',
    cellAt w (WorldObject.layer object) c = occupant existing
    ∧ World.placeObject (WorldObject.id object) position w
      = (Throw (ErrorOverlappingObject (WorldObject.id object)
                  (occupant existing)), w')
    ∧ World.objects w' = World.objects w
    ∧ (∀ c', c' ∈ pre →
         cellAt w' (WorldObject.layer object) c'
         = occupant (WorldObject.id object))
    ∧ (∀ row col,
         (∀ c', c' ∈ pre →
            (row, col)
            ≠ (Geo.y c', Geo.x c' + layerValue (WorldObject.layer object))) →
         slot w' row col = slot w row col).
Proof.
  intros Hinit Hal Hget Hfits Hsplit Hfree Hocc.
  destruct (placeObject_taken w object position pre c post)
    as (existing & w' & Hcell & Hplace & Hst & Hid & Hframe); try assumption.
  exists existing, w'. split; [exact Hcell|]. split; [exact Hplace|].
  split; [apply Hst|]. split; assumption.
Qed.

Lemma placeObject_overlap_keeps_earlier_writes_witness :
  World._isInitialized beamWorld = true
  ∧ allocated beamWorld
  ∧ footprint (at_ 0 0) (Geo.mkSize 2 1) = [at_ 0 0] ++ at_ 1 0 :: []
  ∧ ∃ existing w',
      cellAt beamWorld GROUND (at_ 1 0) = occupant existing
      ∧ World.placeObject "beam/B" None beamWorld
        = (Throw (ErrorOverlappingObject "beam/B" (occupant existing)), w')
      ∧ World.objects w' = World.objects beamWorld
      ∧ (∀ c', c' ∈ [at_ 0 0] → cellAt w' GROUND c' = occupant "beam/B")
      ∧ (∀ row col,
           (∀ c', c' ∈ [at_ 0 0] →
              (row, col) ≠ (Geo.y c', Geo.x c' + layerValue GROUND)) →
           slot w' row col = slot beamWorld row col).
Proof.
  assert (Hal : allocated beamWorld)
    by (apply (bool_decide_unpack _); vm_compute; reflexivity).
  split; [reflexivity|]. split; [exact Hal|]. split; [reflexivity|].
  apply (placeObject_overlap_keeps_earlier_writes beamWorld
           (WorldObject.init (Beam "B" (at_ 0 0))) None
           [at_ 0 0] (at_ 1 0) []).
  - reflexivity.
  - exact Hal.
  - vm_compute. reflexivity.
  - vm_compute. repeat split; discriminate.
  - reflexivity.
  - intros c' Hc'. apply list_elem_of_singleton in Hc' as ->.
    vm_compute. reflexivity.
  - vm_compute. discriminate.
Defined.

(** C2 as stated fails: the beam at (0, 0) is two cells wide and its
    second cell is taken by the brick. The overlap is raised, and the first
    cell of the beam, empty before the attempt, holds the beam after it. *)
Lemma placeObject_overlap_is_not_atomic :
  cellAt beamWorld GROUND (at_ 1 0) = occupant "brick/A"
  ∧ result (World.placeObject "beam/B" None) beamWorld
    = Throw (ErrorOverlappingObject "beam/B" (occupant "brick/A"))
  ∧ cellAt beamWorld GROUND (at_ 0 0) = null
  ∧ cellAt (run (World.placeObject "beam/B" None) beamWorld) GROUND (at_ 0 0)
    = occupant "beam/B"
  ∧ World._map (run (World.placeObject "beam/B" None) beamWorld)
    ≠ World._map beamWorld.
Proof.
  split; [reflexivity|]. split; [reflexivity|]. split; [reflexivity|].
  split; [reflexivity|].
  intros Heq.
  assert (H : cellAt (run (World.placeObject "beam/B" None) beamWorld)
                GROUND (at_ 0 0) = cellAt beamWorld GROUND (at_ 0 0)).
  { unfold cellAt, slot. rewrite Heq. reflexivity. }
  vm_compute in H. discriminate.
Qed.

(** C4, as the code has it. For every [placeObject] of a registered entity
    on an initialized grid with a target footprint that fits the extent,
    an overlap error is raised if and only if some target cell on the
    layer of the entity does not read empty, whoever holds it, the entity
    itself included; the error carries the incoming identity and the
    identity that holds the first such cell in the order of the scan. *)
Theorem placeObject_raises_overlap_iff_taken
    (w : World.t) (object : WorldObject.t)
    (position : option Geo.Coordinate) :
  World._isInitialized w = true → allocated w →
  JsMap.get (WorldObject.id object) (World.objects w) = Some object →
  fits w (default (WorldObject.position object) position)
         (WorldObject.size object) →
  ((∃ i e, result (World.placeObject (WorldObject.id object) position) w
           = Throw (ErrorOverlappingObject i e))
   ↔ ∃ c, c ∈ footprint (default (WorldObject.position object) position)
                        (WorldObject.size object)
          ∧ cellAt w (WorldObject.layer object) c ≠ null)
  ∧ ∀ i e, result (World.placeObject (WorldObject.id object) position) w
           = Throw (ErrorOverlappingObject i e) →
      i = WorldObject.id object
      ∧ ∃ pre c post existing,
          footprint (default (WorldObject.position object) position)
                    (WorldObject.size object) = pre ++ c :: post
          ∧ (∀ c', c' ∈ pre → cellAt w (WorldObject.layer object) c' = null)
          ∧ cellAt w (WorldObject.layer object) c = occupant existing
          ∧ e = occupant existing.
Proof.
  intros Hinit Hal Hget Hfits.
  set (p := default (WorldObject.position object) position) in *.
  set (l := WorldObject.layer object) in *.
  destruct (decide (Exists (λ c, cellAt w l c ≠ null)
                      (footprint p (WorldObject.size object))))
    as [Htaken|Hfree].
  - apply Exists_exists in Htaken.
    destruct (first_split (λ c, cellAt w l c ≠ null) _ Htaken)
      as (pre & c & post & Hsplit & Hpre & Hc).
    assert (Hpre' : ∀ c', c' ∈ pre → cellAt w l c' = null).
    { intros c' Hc'. destruct (decide (cellAt w l c' = null)); [assumption|].
      exfalso. eapply Hpre; eassumption. }
    destruct (placeObject_taken w object position
                pre c post Hinit Hal Hget Hfits Hsplit Hpre' Hc)
      as (existing & w' & Hcell & Hplace & _).
    unfold result. rewrite Hplace. simpl. split.
    + split; [intros _; exact Htaken|intros _; eauto].
    + intros i e [= <- <-]. split; [reflexivity|].
      exists pre, c, post, existing. auto.
  - assert (Hnull : ∀ c, c ∈ footprint p (WorldObject.size object) →
                         cellAt w l c = null).
    { intros c Hc. destruct (decide (cellAt w l c = null)); [assumption|].
      exfalso. apply Hfree, Exists_exists. eauto. }
    destruct (placeObject_free w object position Hinit Hal Hget Hfits Hnull)
      as (w' & Hplace & _).
    unfold result. rewrite Hplace. simpl.
    assert (Hno : ∀ i e,
      match WorldObject.placed p object with
      | Normal _ => Normal (Some p)
      | Throw e0 => Throw e0
      end ≠ Throw (ErrorOverlappingObject i e)).
    { intros i e. unfold WorldObject.placed.
      destruct (negb (WorldObject.isInitialized object)); discriminate. }
    split.
    + split.
      * intros (i & e & He). exfalso. eapply Hno, He.
      * intros (c & Hc & Hocc). exfalso. apply Hocc, Hnull, Hc.
    + intros i e He. exfalso. eapply Hno, He.
Qed.

Lemma placeObject_raises_overlap_iff_taken_witness :
  World._isInitialized brickWorld = true
  ∧ allocated brickWorld
  ∧ ((∃ i e, result (World.placeObject "brick/A" (Some (at_ 0 0))) brickWorld
             = Throw (ErrorOverlappingObject i e))
     ↔ ∃ c, c ∈ footprint (at_ 0 0) (Geo.mkSize 1 1)
            ∧ cellAt brickWorld GROUND c ≠ null)
  ∧ ∀ i e, result (World.placeObject "brick/A" (Some (at_ 0 0))) brickWorld
           = Throw (ErrorOverlappingObject i e) →
      i = "brick/A"
      ∧ ∃ pre c post existing,
          footprint (at_ 0 0) (Geo.mkSize 1 1) = pre ++ c :: post
          ∧ (∀ c', c' ∈ pre → cellAt brickWorld GROUND c' = null)
          ∧ cellAt brickWorld GROUND c = occupant existing
          ∧ e = occupant existing.
Proof.
  assert (Hal : allocated brickWorld)
    by (apply (bool_decide_unpack _); vm_compute; reflexivity).
  split; [reflexivity|]. split; [exact Hal|].
  apply (placeObject_raises_overlap_iff_taken brickWorld
           (WorldObject.init (Brick "A" (at_ 0 0))) (Some (at_ 0 0))).
  - reflexivity.
  - exact Hal.
  - vm_compute. reflexivity.
  - vm_compute. repeat split; discriminate.
Defined.

(** C4 as stated fails: the only cell of the footprint holds the brick
    itself, no other identity, and placing the brick on it raises the
    overlap, with the brick named twice. *)
Lemma placeObject_on_own_cell_raises :
  footprint (at_ 0 0) (Geo.mkSize 1 1) = [at_ 0 0]
  ∧ cellAt brickWorld GROUND (at_ 0 0) = occupant "brick/A"
  ∧ JsMap.get "brick/A" (World.objects brickWorld)
    = Some (WorldObject.init (Brick "A" (at_ 0 0)))
  ∧ result (World.placeObject "brick/A" None) brickWorld
    = Throw (ErrorOverlappingObject "brick/A" (occupant "brick/A")).
Proof. vm_compute. repeat split. Qed.

(** ** displaceObject *)

Lemma displaceObject_registered w objectID object :
  World._isInitialized w = true →
  JsMap.get objectID (World.objects w) = Some object →
  World.displaceObject objectID w
  = bind
      (World.restructureMap (WorldObject.id object) (WorldObject.layer object)
         (WorldObject.size object) (Some (WorldObject.position object)) None)
      (λ isSuccessful, if negb isSuccessful then ret false else ret true) w.
Proof.
  intros Hinit Hget. unfold World.displaceObject.
  unfold bind at 1, get. rewrite Hinit. cbn [negb]. rewrite Hget. reflexivity.
Qed.

(** Displacing an entity whose stored rectangle lies in the extent. *)
Lemma displaceObject_clears w objectID object :
  World._isInitialized w = true → allocated w →
  JsMap.get objectID (World.objects w) = Some object →
  (∀ c, c ∈ footprint (WorldObject.position object) (WorldObject.size object)
        → inBounds w c) →
  ∃ w', World.displaceObject objectID w = (Normal true, w')
    ∧ stable w w'
    ∧ World._gameSession w' = World._gameSession w
    ∧ (∀ c, c ∈ footprint (WorldObject.position object)
                          (WorldObject.size object) →
         cellAt w' (WorldObject.layer object) c = null)
    ∧ (∀ row col,
         (∀ c, c ∈ footprint (WorldObject.position object)
                             (WorldObject.size object) →
            (row, col)
            ≠ (Geo.y c, Geo.x c + layerValue (WorldObject.layer object))) →
         slot w' row col = slot w row col).
Proof.
  intros Hinit Hal Hget Hin.
  destruct (restructureMap_remove (WorldObject.id object)
              (WorldObject.layer object) (WorldObject.size object)
              (WorldObject.position object) w Hal Hin) as (w' & Hr & Hrest).
  exists w'. split; [|exact Hrest].
  rewrite (displaceObject_registered _ _ _ Hinit Hget).
  unfold bind. rewrite Hr. reflexivity.
Qed.

(** C10, as the code has it. On an initialized grid [displaceObject]
    returns false, with nothing changed, for an identity that is not in the
    registry. For an entity of the registry whose stored rectangle
    (position and size) lies in the extent it returns true and writes empty
    to every cell of that rectangle on the layer of the entity, whatever
    the cells held and whether or not the entity was ever placed, leaving
    the registry and every other slot. When a cell of the stored rectangle
    is outside the extent, and the corner, the size and the far corner of
    the rectangle are integers that a number holds exactly, the write of
    such a cell raises the out-of-bounds error instead. *)
Theorem displaceObject_clears_stored_rectangle
    (w : World.t) (objectID : WorldObjectID) :
  World._isInitialized w = true → allocated w →
  match JsMap.get objectID (World.objects w) with
  | None => World.displaceObject objectID w = (Normal false, w)
  | Some object =>
      let stored :=
        footprint (WorldObject.position object) (WorldObject.size object) in
      ((∀ c, c ∈ stored → inBounds w c) →
       ∃ w', World.displaceObject objectID w = (Normal true, w')
         ∧ World.objects w' = World.objects w
         ∧ (∀ c, c ∈ stored → cellAt w' (WorldObject.layer object) c = null)
         ∧ (∀ row col,
              (∀ c, c ∈ stored →
                 (row, col)
                 ≠ (Geo.y c,
                    Geo.x c + layerValue (WorldObject.layer object))) →
              slot w' row col = slot w row col))
      ∧ (safeRectangle (WorldObject.position object)
                       (WorldObject.size object) →
         (∃ c, c ∈ stored ∧ ¬ inBounds w c) →
         ∃ c w', c ∈ stored ∧ ¬ inBounds w c
           ∧ World.displaceObject objectID w
             = (Throw (Error_OutOfBounds (Geo.x c) (Geo.y c)), w')
           ∧ World.objects w' = World.objects w)
  end.
Proof.
  intros Hinit Hal. destruct (JsMap.get _ _) as [object|] eqn:Hget.
  - cbv zeta. split.
    + intros Hin.
      destruct (displaceObject_clears w objectID object Hinit Hal Hget Hin)
        as (w' & Hd & Hst & _ & Hnull & Hframe).
      exists w'. split; [exact Hd|]. split; [apply Hst|]. split; assumption.
    + intros _ Hout.
      destruct (first_split (λ c, ¬ inBounds w c) _ Hout)
        as (pre & c & post & Hsplit & Hpre & Hc).
      assert (Hpre' : ∀ c', c' ∈ pre → inBounds w c').
      { intros c' Hc'. destruct (decide (inBounds w c')); [assumption|].
        exfalso. eapply Hpre; eassumption. }
      destruct (restructureMap_remove_outOfBounds (WorldObject.id object)
                  (WorldObject.layer object) (WorldObject.size object)
                  (WorldObject.position object) pre c post w
                  Hal Hsplit Hpre' Hc) as (w' & Hr & Hst).
      exists c, w'. split; [rewrite Hsplit; apply elem_of_app; right; left|].
      split; [exact Hc|]. split; [|apply Hst].
      rewrite (displaceObject_registered _ _ _ Hinit Hget).
      unfold bind. rewrite Hr. reflexivity.
  - unfold World.displaceObject, bind, get. rewrite Hinit. cbn [negb].
    rewrite Hget. reflexivity.
Qed.

Lemma displaceObject_clears_stored_rectangle_witness :
  (World._isInitialized brickWorld = true
   ∧ allocated brickWorld
   ∧ JsMap.get "brick/A" (World.objects brickWorld)
     = Some (WorldObject.init (Brick "A" (at_ 0 0)))
   ∧ cellAt brickWorld GROUND (at_ 0 0) = occupant "brick/A"
   ∧ ∃ w', World.displaceObject "brick/A" brickWorld = (Normal true, w')
       ∧ World.objects w' = World.objects brickWorld
       ∧ cellAt w' GROUND (at_ 0 0) = null)
  ∧ (JsMap.get "brick/A" (World.objects strayWorld)
     = Some (WorldObject.init (Brick "A" (at_ 10 0)))
     ∧ safeRectangle (at_ 10 0) (Geo.mkSize 1 1)
     ∧ ¬ inBounds strayWorld (at_ 10 0)
     ∧ ∃ c w', c ∈ footprint (at_ 10 0) (Geo.mkSize 1 1)
         ∧ World.displaceObject "brick/A" strayWorld
           = (Throw (Error_OutOfBounds (Geo.x c) (Geo.y c)), w')
         ∧ World.objects w' = World.objects strayWorld).
Proof.
  assert (Hal : allocated brickWorld)
    by (apply (bool_decide_unpack _); vm_compute; reflexivity).
  assert (Hstray : allocated strayWorld)
    by (apply (bool_decide_unpack _); vm_compute; reflexivity).
  assert (Hsafe : safeRectangle (at_ 10 0) (Geo.mkSize 1 1))
    by (vm_compute; repeat split; discriminate).
  assert (Hout : ¬ inBounds strayWorld (at_ 10 0)).
  { assert (Hw : World.width strayWorld = 10) by (vm_compute; reflexivity).
    unfold inBounds. rewrite Hw. simpl. lia. }
  split.
  - split; [reflexivity|]. split; [exact Hal|]. split; [reflexivity|].
    split; [reflexivity|].
    pose proof (displaceObject_clears_stored_rectangle brickWorld "brick/A"
                  eq_refl Hal) as H.
    change (JsMap.get "brick/A" (World.objects brickWorld))
      with (Some (WorldObject.init (Brick "A" (at_ 0 0)))) in H.
    cbv beta iota zeta in H. destruct H as [H _].
    destruct H as (w' & Hd & Hobjects & Hnull & _).
    + intros c Hc. apply elem_of_footprint in Hc. simpl in Hc.
      assert (Hw : World.width brickWorld = 10) by (vm_compute; reflexivity).
      assert (Hh : World.height brickWorld = 10) by (vm_compute; reflexivity).
      unfold inBounds. rewrite Hw, Hh. lia.
    + exists w'. split; [exact Hd|]. split; [exact Hobjects|].
      apply (Hnull (at_ 0 0)). apply elem_of_footprint. simpl. lia.
  - split; [reflexivity|]. split; [exact Hsafe|]. split; [exact Hout|].
    pose proof (displaceObject_clears_stored_rectangle strayWorld "brick/A"
                  eq_refl Hstray) as H.
    change (JsMap.get "brick/A" (World.objects strayWorld))
      with (Some (WorldObject.init (Brick "A" (at_ 10 0)))) in H.
    cbv beta iota zeta in H. destruct H as [_ H].
    destruct (H Hsafe) as (c & w' & Hc & _ & Hd & Hobjects).
    + exists (at_ 10 0). split; [|exact Hout].
      apply elem_of_footprint. simpl. lia.
    + exists c, w'. split; [exact Hc|]. split; [exact Hd|exact Hobjects].
Defined.

(** C10 as stated fails: the brick is in the registry of an initialized
    grid, its stored position (10, 0) is outside the 10 x 10 extent, and
    [displaceObject] raises instead of returning true. *)
Lemma displaceObject_stray_raises :
  World._isInitialized strayWorld = true
  ∧ JsMap.get "brick/A" (World.objects strayWorld)
    = Some (WorldObject.init (Brick "A" (at_ 10 0)))
  ∧ result (World.displaceObject "brick/A") strayWorld
    = Throw (Error_OutOfBounds 10 0).
Proof. vm_compute. repeat split. Qed.

(** ** moveObject and the stored position *)

Lemma moveObject_registered w objectID object newPosition :
  World._isInitialized w = true →
  JsMap.get objectID (World.objects w) = Some object →
  World.moveObject objectID newPosition w
  = bind
      (World.restructureMap (WorldObject.id object) (WorldObject.layer object)
         (WorldObject.size object) (Some (WorldObject.position object))
         (Some newPosition))
      (λ moved, if negb moved then ret None else ret (Some newPosition)) w.
Proof.
  intros Hinit Hget. unfold World.moveObject.
  unfold bind at 1, get. rewrite Hinit. cbn [negb]. rewrite Hget.
  rewrite !coordinate_eta. reflexivity.
Qed.

(** However it completes, [moveObject] leaves the registry, and with it
    the position that each entity stores. *)
Lemma moveObject_stable w objectID newPosition :
  stable w (World.moveObject objectID newPosition w).2.
Proof.
  unfold World.moveObject. apply bind_stable; [apply stable_refl|].
  intros w0 w1. destruct (negb _); [apply stable_refl|].
  destruct (JsMap.get _ _); [|apply stable_refl].
  apply bind_stable; [apply restructureMap_stable|].
  intros [] ?; apply stable_refl.
Qed.

(** C9. After a successful [moveObject] the registry holds the entity as
    it was, so with the position stored before the move: [moveObject] does
    not call [placed]. What follows reads that position: a further
    [moveObject] runs the diff from it, and [displaceObject] clears the
    rectangle at it and leaves every other slot, the cells that the move
    wrote outside that rectangle included. *)
Theorem moveObject_keeps_stored_position
    (w : World.t) (objectID : WorldObjectID) (object : WorldObject.t)
    (newPosition moved : Geo.Coordinate) (w' : World.t) :
  allocated w →
  JsMap.get objectID (World.objects w) = Some object →
  (∀ c, c ∈ footprint (WorldObject.position object) (WorldObject.size object)
        → inBounds w c) →
  World.moveObject objectID newPosition w = (Normal (Some moved), w') →
  JsMap.get objectID (World.objects w') = Some object
  ∧ (∀ next,
       World.moveObject objectID next w'
       = bind
           (World.restructureMap (WorldObject.id object)
              (WorldObject.layer object) (WorldObject.size object)
              (Some (WorldObject.position object)) (Some next))
           (λ ok, if negb ok then ret None else ret (Some next)) w')
  ∧ ∃ w'', World.displaceObject objectID w' = (Normal true, w'')
      ∧ (∀ c, c ∈ footprint (WorldObject.position object)
                            (WorldObject.size object) →
           cellAt w'' (WorldObject.layer object) c = null)
      ∧ (∀ row col,
           (∀ c, c ∈ footprint (WorldObject.position object)
                               (WorldObject.size object) →
              (row, col)
              ≠ (Geo.y c, Geo.x c + layerValue (WorldObject.layer object))) →
           slot w'' row col = slot w' row col).
Proof.
  intros Hal Hget Hin Hmove.
  assert (Hinit : World._isInitialized w = true).
  { destruct (World._isInitialized w) eqn:E; [reflexivity|].
    unfold World.moveObject, bind, get in Hmove. rewrite E in Hmove.
    discriminate. }
  pose proof (moveObject_stable w objectID newPosition) as Hst.
  rewrite Hmove in Hst. simpl in Hst.
  assert (Hget' : JsMap.get objectID (World.objects w') = Some object)
    by (rewrite (stable_objects _ _ Hst); exact Hget).
  assert (Hinit' : World._isInitialized w' = true)
    by (rewrite (stable_isInitialized _ _ Hst); exact Hinit).
  split; [exact Hget'|]. split.
  - intros next. apply moveObject_registered; assumption.
  - destruct (displaceObject_clears w' objectID object Hinit')
      as (w'' & Hd & _ & _ & Hnull & Hframe).
    + eapply stable_allocated; eassumption.
    + exact Hget'.
    + intros c Hc. eapply stable_inBounds; [exact Hst|]. apply Hin, Hc.
    + exists w''. split; [exact Hd|]. split; assumption.
Qed.

Lemma moveObject_keeps_stored_position_witness :
  World.moveObject "brick/A" (at_ 1 1) brickWorld
  = (Normal (Some (at_ 1 1)), run (World.moveObject "brick/A" (at_ 1 1))
                                  brickWorld)
  ∧ WorldObject.position <$>
      JsMap.get "brick/A"
        (World.objects (run (World.moveObject "brick/A" (at_ 1 1)) brickWorld))
    = Some (at_ 0 0)
  ∧ cellAt (run (World.moveObject "brick/A" (at_ 1 1)) brickWorld)
      GROUND (at_ 1 1) = occupant "brick/A"
  ∧ ∃ w'', World.displaceObject "brick/A"
             (run (World.moveObject "brick/A" (at_ 1 1)) brickWorld)
           = (Normal true, w'')
      ∧ cellAt w'' GROUND (at_ 0 0) = null
      ∧ cellAt w'' GROUND (at_ 1 1) = occupant "brick/A".
Proof.
  assert (Hal : allocated brickWorld)
    by (apply (bool_decide_unpack _); vm_compute; reflexivity).
  assert (Hmove : World.moveObject "brick/A" (at_ 1 1) brickWorld
    = (Normal (Some (at_ 1 1)),
       run (World.moveObject "brick/A" (at_ 1 1)) brickWorld))
    by (vm_compute; reflexivity).
  assert (Hget0 : JsMap.get "brick/A" (World.objects brickWorld)
                  = Some (WorldObject.init (Brick "A" (at_ 0 0))))
    by (vm_compute; reflexivity).
  assert (Hin : ∀ c,
    c ∈ footprint
          (WorldObject.position (WorldObject.init (Brick "A" (at_ 0 0))))
          (WorldObject.size (WorldObject.init (Brick "A" (at_ 0 0)))) →
    inBounds brickWorld c).
  { intros c Hc. apply elem_of_footprint in Hc. simpl in Hc.
    assert (Hw : World.width brickWorld = 10) by (vm_compute; reflexivity).
    assert (Hh : World.height brickWorld = 10) by (vm_compute; reflexivity).
    unfold inBounds. rewrite Hw, Hh. lia. }
  destruct (moveObject_keeps_stored_position brickWorld "brick/A"
              (WorldObject.init (Brick "A" (at_ 0 0))) (at_ 1 1) (at_ 1 1)
              (run (World.moveObject "brick/A" (at_ 1 1)) brickWorld)
              Hal Hget0 Hin Hmove)
    as (Hget & _ & w'' & Hd & Hnull & Hframe).
  - split; [exact Hmove|]. split; [rewrite Hget; reflexivity|].
    split; [vm_compute; reflexivity|].
    exists w''. split; [exact Hd|]. split.
    + apply (Hnull (at_ 0 0)). apply elem_of_footprint. simpl. lia.
    + unfold cellAt. rewrite Hframe; [vm_compute; reflexivity|].
      intros c Hc. apply elem_of_footprint in Hc. simpl in Hc.
      intros [= Hy Hx]. lia.
Defined.

(** ** Where the code departs from the addressing of the buffer *)

(** Whatever the world, a cell of one layer is the cell of the layer
    below it one column to the right. *)
Lemma layers_share_slots w x y :
  cellAt w GROUND (at_ x y) = cellAt w UNDERGROUND (at_ (x + 1) y)
  ∧ cellAt w OVERGROUND (at_ x y) = cellAt w GROUND (at_ (x + 1) y).
Proof. unfold cellAt. simpl. split; f_equal; lia. Qed.

(** C3 fails on the code. The slot of the cell [(x, y)] of a layer is row
    [y], column [x + layer], not [x * layerCount + layer]: the cell (0, 0)
    of the ground layer and the cell (1, 0) of the underground layer are
    one slot. The brick placed at (0, 0) on the ground layer is read back
    from the underground layer at (1, 0), a cell that its footprint does
    not cover and that read empty before the brick was placed. *)
Theorem lookupByLayer_reads_the_neighbour :
  0 + layerValue GROUND = 1 + layerValue UNDERGROUND
  ∧ specColumn 0 GROUND ≠ specColumn 1 UNDERGROUND
  ∧ footprint (at_ 0 0) (Geo.mkSize 1 1) = [at_ 0 0]
  ∧ result (World.lookupByLayer UNDERGROUND [at_ 1 0])
      (run (World.installObject (Brick "A" (at_ 0 0))) testWorld)
    = Normal [null]
  ∧ result (World.placeObject "brick/A" None)
      (run (World.installObject (Brick "A" (at_ 0 0))) testWorld)
    = Normal (Some (at_ 0 0))
  ∧ result (World.lookupByLayer UNDERGROUND [at_ 1 0]) brickWorld
    = Normal [occupant "brick/A"].
Proof. vm_compute. repeat split. discriminate. Qed.

(** C5 fails on the code, by the same addressing. Every entity of these
    worlds is on the ground layer, so no other layer of any column is
    occupied. Placing the brick B at (1, 0), next to the brick A at (0, 0),
    sends an intersect event that names A; placing the beam, two cells
    wide and alone in its world, sends one in which the beam intersects
    itself. *)
Theorem placing_ground_objects_notifies :
  events sessionBrickWorld = Some []
  ∧ Forall (λ entry, WorldObject.layer entry.2 = GROUND)
      (World.objects twoBricksWorld)
  ∧ events twoBricksWorld = Some [INTERSECT "brick/B" [occupant "brick/A"]]
  ∧ Forall (λ entry, WorldObject.layer entry.2 = GROUND)
      (World.objects sessionBeamWorld)
  ∧ JsMap.keys (World.objects sessionBeamWorld) = ["beam/A"]
  ∧ events sessionBeamWorld = Some [INTERSECT "beam/A" [occupant "beam/A"]].
Proof.
  split; [reflexivity|]. split; [repeat constructor|].
  split; [reflexivity|]. split; [repeat constructor|].
  split; reflexivity.
Qed.

(** ** The diff of a move *)

(** C1 fails on the code. The brick moves from (0, 0) to (3, 0), both in
    the extent; the footprints are one cell each and two cells apart. The
    cells (1, 0) and (2, 0), in neither footprint and empty before the
    move, hold the brick after it. *)
Theorem moveObject_across_a_gap_writes_between :
  footprint (at_ 0 0) (Geo.mkSize 1 1) = [at_ 0 0]
  ∧ footprint (at_ 3 0) (Geo.mkSize 1 1) = [at_ 3 0]
  ∧ result (World.lookupByLayer GROUND [at_ 0 0; at_ 1 0; at_ 2 0; at_ 3 0])
      brickWorld
    = Normal [occupant "brick/A"; null; null; null]
  ∧ result (World.moveObject "brick/A" (at_ 3 0)) brickWorld
    = Normal (Some (at_ 3 0))
  ∧ result (World.lookupByLayer GROUND [at_ 0 0; at_ 1 0; at_ 2 0; at_ 3 0])
      (run (World.moveObject "brick/A" (at_ 3 0)) brickWorld)
    = Normal [null; occupant "brick/A"; occupant "brick/A";
              occupant "brick/A"].
Proof. vm_compute. repeat split. Qed.

(** When the footprints overlap or touch, the extents of the overlap
    rectangle are not negative and the diff is the one the specification
    describes: the strips of the old footprint are the cells of the old
    footprint that the new one does not cover, and the other way round. *)

Lemma seq_strip_first {S} (f : Geo.Coordinate → Eff S unit) {B}
    x0 x1 y0 y1 (k : unit → Eff S B) s :
  bind (forRange x0 x1 (λ x, forRange y0 y1 (λ y, f (Geo.mkCoordinate x y))))
       k s
  = bind (forEach (rect x0 x1 y0 y1) f) k s.
Proof. unfold bind. rewrite forRange_nested. reflexivity. Qed.

Lemma seq_strip_next {S} (f : Geo.Coordinate → Eff S unit) {B}
    l1 x0 x1 y0 y1 (k : unit → Eff S B) s :
  bind (forEach l1 f)
       (λ _, bind (forRange x0 x1 (λ x, forRange y0 y1 (λ y,
                     f (Geo.mkCoordinate x y)))) k) s
  = bind (forEach (l1 ++ rect x0 x1 y0 y1) f) k s.
Proof.
  unfold bind at 3. rewrite forEach_app. unfold bind.
  destruct (forEach l1 f s) as [[[]|e] s1]; [|reflexivity].
  rewrite forRange_nested. reflexivity.
Qed.

(** The move as two loops: one over the strips of the old footprint, one
    over the strips of the new. *)
Lemma restructureMap_move_strips i l s old new w :
  fits w new s →
  World.restructureMap i l s (Some old) (Some new) w
  = bind (forEach (strips old new old s) (λ c, World.setMapCell c l None))
      (λ _, bind (forEach (strips old new new s)
                    (λ c, World.setMapCell c l (Some i)))
              (λ _, ret true)) w.
Proof.
  intros Hfits. unfold World.restructureMap.
  unfold bind at 1, get. rewrite (fits_check _ _ _ Hfits).
  fold (overlapX old new) (overlapY old new).
  fold (overlapWidth old new s) (overlapHeight old new s).
  rewrite (seq_strip_first (λ c, World.setMapCell c l None)).
  do 3 rewrite (seq_strip_next (λ c, World.setMapCell c l None)).
  fold (strips old new old s).
  unfold bind at 1. symmetry. unfold bind at 1. symmetry.
  destruct (forEach (strips old new old s) _ w) as [[[]|e] w1]; [|reflexivity].
  rewrite (seq_strip_first (λ c, World.setMapCell c l (Some i))).
  do 3 rewrite (seq_strip_next (λ c, World.setMapCell c l (Some i))).
  reflexivity.
Qed.

Lemma elem_of_strips_old old new s c :
  0 ≤ overlapWidth old new s → 0 ≤ overlapHeight old new s →
  c ∈ strips old new old s ↔ c ∈ footprint old s ∧ c ∉ footprint new s.
Proof.
  unfold strips, overlapWidth, overlapHeight, overlapX, overlapY.
  intros Hw Hh. rewrite !elem_of_app, !elem_of_rect, !elem_of_footprint. lia.
Qed.

Lemma elem_of_strips_new old new s c :
  0 ≤ overlapWidth old new s → 0 ≤ overlapHeight old new s →
  c ∈ strips old new new s ↔ c ∈ footprint new s ∧ c ∉ footprint old s.
Proof.
  unfold strips, overlapWidth, overlapHeight, overlapX, overlapY.
  intros Hw Hh. rewrite !elem_of_app, !elem_of_rect, !elem_of_footprint. lia.
Qed.

Lemma NoDup_strips old new p s :
  0 ≤ overlapWidth old new s → 0 ≤ overlapHeight old new s →
  NoDup (strips old new p s).
Proof.
  unfold strips, overlapWidth, overlapHeight, overlapX, overlapY.
  intros Hw Hh. repeat (apply NoDup_app; split_and!);
    try apply NoDup_rect;
    intros c; rewrite ?elem_of_app, !elem_of_rect; lia.
Qed.

(** The move between footprints that overlap or touch: the cells that
    only the old footprint covers are cleared, the cells that only the new
    one covers take the identity, and no other slot changes, so the cells
    that both cover keep what they held. *)
Lemma restructureMap_move_touching i l s old new w :
  allocated w → fits w new s →
  (∀ c, c ∈ footprint old s → inBounds w c) →
  0 ≤ overlapWidth old new s → 0 ≤ overlapHeight old new s →
  (∀ c, c ∈ footprint new s → c ∉ footprint old s → cellAt w l c = null) →
  ∃ w', World.restructureMap i l s (Some old) (Some new) w = (Normal true, w')
    ∧ stable w w'
    ∧ (∀ c, c ∈ footprint old s → c ∉ footprint new s →
         cellAt w' l c = null)
    ∧ (∀ c, c ∈ footprint new s → c ∉ footprint old s →
         cellAt w' l c = occupant i)
    ∧ (∀ row col,
         (∀ c, (c ∈ footprint old s ∧ c ∉ footprint new s)
               ∨ (c ∈ footprint new s ∧ c ∉ footprint old s) →
               (row, col) ≠ (Geo.y c, Geo.x c + layerValue l)) →
         slot w' row col = slot w row col).
Proof.
  intros Hal Hfits Hold Hw Hh Hfree.
  rewrite restructureMap_move_strips by assumption.
  destruct (clearCells_spec l (strips old new old s) w Hal)
    as (w1 & Hclear & Hst1 & _ & Hnull & Hframe1).
  { intros c Hc. apply elem_of_strips_old in Hc as [Hc _]; auto. }
  destruct (writeCells_free l i (strips old new new s) w1)
    as (w2 & Hwrite & Hst2 & Hid & Hframe2).
  { eapply stable_allocated; eassumption. }
  { apply NoDup_strips; assumption. }
  { intros c Hc. apply elem_of_strips_new in Hc as [Hc _]; [|assumption..].
    eapply stable_inBounds; [eassumption|]. eapply fits_inBounds; eassumption. }
  { intros c Hc. apply elem_of_strips_new in Hc as [Hc Hc']; [|assumption..].
    unfold cellAt. rewrite Hframe1; [apply Hfree; assumption|].
    intros c' Hc'' Heq. apply address_inj in Heq. subst c'.
    apply elem_of_strips_old in Hc'' as [Hc'' _]; [|assumption..].
    contradiction. }
  exists w2. unfold bind. rewrite Hclear, Hwrite.
  split; [reflexivity|]. split; [eapply stable_trans; eassumption|].
  split; [|split].
  - intros c Hc Hc'. unfold cellAt. rewrite Hframe2.
    + apply Hnull. apply elem_of_strips_old; auto.
    + intros c' Hc'' Heq. apply address_inj in Heq. subst c'.
      apply elem_of_strips_new in Hc'' as [_ Hc'']; [|assumption..].
      contradiction.
  - intros c Hc Hc'. apply Hid. apply elem_of_strips_new; auto.
  - intros row col Hout. rewrite Hframe2, Hframe1; [reflexivity| |].
    + intros c Hc. apply Hout. left. apply elem_of_strips_old in Hc; auto.
    + intros c Hc. apply Hout. right. apply elem_of_strips_new in Hc; auto.
Qed.

(** [moveObject] between footprints that overlap or touch, for an entity
    whose stored position is where it was placed. *)
Lemma moveObject_touching w objectID object newPosition :
  World._isInitialized w = true → allocated w →
  JsMap.get objectID (World.objects w) = Some object →
  fits w newPosition (WorldObject.size object) →
  (∀ c, c ∈ footprint (WorldObject.position object) (WorldObject.size object)
        → inBounds w c) →
  0 ≤ overlapWidth (WorldObject.position object) newPosition
        (WorldObject.size object) →
  0 ≤ overlapHeight (WorldObject.position object) newPosition
        (WorldObject.size object) →
  (∀ c, c ∈ footprint newPosition (WorldObject.size object) →
        c ∉ footprint (WorldObject.position object) (WorldObject.size object) →
        cellAt w (WorldObject.layer object) c = null) →
  ∃ w', World.moveObject objectID newPosition w
        = (Normal (Some newPosition), w')
    ∧ World.objects w' = World.objects w
    ∧ (∀ c, c ∈ footprint (WorldObject.position object)
                          (WorldObject.size object) →
            c ∉ footprint newPosition (WorldObject.size object) →
         cellAt w' (WorldObject.layer object) c = null)
    ∧ (∀ c, c ∈ footprint newPosition (WorldObject.size object) →
            c ∉ footprint (WorldObject.position object)
                          (WorldObject.size object) →
         cellAt w' (WorldObject.layer object) c
         = occupant (WorldObject.id object))
    ∧ (∀ c, c ∈ footprint (WorldObject.position object)
                          (WorldObject.size object) →
            c ∈ footprint newPosition (WorldObject.size object) →
         cellAt w' (WorldObject.layer object) c
         = cellAt w (WorldObject.layer object) c)
    ∧ (∀ row col,
         (∀ c, c ∈ footprint (WorldObject.position object)
                             (WorldObject.size object)
               ∨ c ∈ footprint newPosition (WorldObject.size object) →
               (row, col)
               ≠ (Geo.y c,
                  Geo.x c + layerValue (WorldObject.layer object))) →
         slot w' row col = slot w row col).
Proof.
  intros Hinit Hal Hget Hfits Hold Hw Hh Hfree.
  destruct (restructureMap_move_touching (WorldObject.id object)
              (WorldObject.layer object) (WorldObject.size object)
              (WorldObject.position object) newPosition w
              Hal Hfits Hold Hw Hh Hfree)
    as (w' & Hr & Hst & Hnull & Hid & Hframe).
  exists w'. rewrite (moveObject_registered _ _ _ _ Hinit Hget).
  unfold bind. rewrite Hr. split; [reflexivity|]. split; [apply Hst|].
  split; [exact Hnull|]. split; [exact Hid|]. split.
  - intros c Hc Hc'. unfold cellAt. apply Hframe.
    intros c' Hc'' Heq. apply address_inj in Heq. subst c'. tauto.
  - intros row col Hout. apply Hframe. intros c Hc. apply Hout. tauto.
Qed.

(** ** The buffer stays allocated *)

Lemma lookup_foldl_insert {V} (v : V) (keys : list Z) : ∀ (m : gmap Z V) k,
  foldl (λ m key, <[key:=v]> m) m keys !! k
  = if decide (k ∈ keys) then Some v else m !! k.
Proof.
  induction keys as [|key keys IH]; intros m k; cbn [foldl].
  - rewrite decide_False; [reflexivity|]. intros H. inversion H.
  - rewrite IH. destruct (decide (k ∈ keys)) as [Hin|Hout].
    + rewrite decide_True; [reflexivity|]. right. assumption.
    + destruct (decide (key = k)) as [->|Hne].
      * rewrite lookup_insert_eq, decide_True; [reflexivity|left].
      * rewrite lookup_insert_ne by assumption.
        rewrite decide_False; [reflexivity|].
        intros Hin. apply elem_of_cons in Hin as [->|Hin]; contradiction.
Qed.

(** The constructor allocates every row of the extent, every slot of
    which reads [null]. *)
Lemma new_allocated props : allocated (World.new props).
Proof.
  intros row Hrow.
  change (World.height (World.new props)) with (World.props_height props)
    in Hrow.
  assert (Hr : World._map (World.new props) !! row
    = Some (foldl (λ r x, <[x:=null]> r) ∅
              (seqZ 0 (World.props_width props * WorldObjectLayerCount)))).
  { unfold World.new. cbn [World._map]. rewrite lookup_foldl_insert.
    rewrite decide_True; [reflexivity|]. apply elem_of_seqZ. lia. }
  split; [rewrite Hr; eauto|].
  intros col Hcol.
  change (World.width (World.new props)) with (World.props_width props)
    in Hcol.
  unfold slot. rewrite Hr.
  rewrite lookup_total_alt, lookup_foldl_insert.
  rewrite decide_True; [discriminate|]. apply elem_of_seqZ. lia.
Qed.

Lemma keepsAllocated_ret {A} (a : A) : keepsAllocated (ret a).
Proof. intros w Hal. exact Hal. Qed.

Lemma keepsAllocated_throw {A} e : keepsAllocated (throw (A:=A) e).
Proof. intros w Hal. exact Hal. Qed.

Lemma keepsAllocated_bind {A B} (m : Eff World.t A) (k : A → Eff World.t B) :
  keepsAllocated m → (∀ a, keepsAllocated (k a)) → keepsAllocated (bind m k).
Proof.
  intros Hm Hk w Hal. unfold bind. specialize (Hm w Hal).
  destruct (m w) as [[a|e] w1]; simpl in *; [apply Hk, Hm|exact Hm].
Qed.

Lemma keepsAllocated_forEach {A} (l : list A) (body : A → Eff World.t unit) :
  (∀ a, keepsAllocated (body a)) → keepsAllocated (forEach l body).
Proof.
  intros Hbody. induction l as [|a l IH]; simpl.
  - apply keepsAllocated_ret.
  - apply keepsAllocated_bind; [apply Hbody|intros _; exact IH].
Qed.

Lemma keepsAllocated_with_objects f :
  keepsAllocated (modify (World.with_objects f)).
Proof. intros w Hal. exact Hal. Qed.

Lemma keepsAllocated_restructureMap i l s old new :
  keepsAllocated (World.restructureMap i l s old new).
Proof.
  intros w Hal. eapply stable_allocated; [apply restructureMap_stable|exact Hal].
Qed.

Lemma keepsAllocated_initObject objectID :
  keepsAllocated (World.initObject objectID).
Proof.
  unfold World.initObject. apply keepsAllocated_bind; [intros w; auto|].
  intros w0. destruct (JsMap.get _ _); [|apply keepsAllocated_ret].
  destruct (WorldObject.isInitialized _); [apply keepsAllocated_ret|].
  destruct (World.objectInit _ _);
    [apply keepsAllocated_with_objects|apply keepsAllocated_throw].
Qed.

Lemma keepsAllocated_installObject object :
  keepsAllocated (World.installObject object).
Proof.
  unfold World.installObject. apply keepsAllocated_bind; [intros w; auto|].
  intros w0. destruct (negb _); [apply keepsAllocated_throw|].
  destruct (JsMap.has _ _); [apply keepsAllocated_ret|].
  apply keepsAllocated_bind; [apply keepsAllocated_with_objects|]. intros _.
  apply keepsAllocated_bind; [apply keepsAllocated_initObject|]. intros _.
  apply keepsAllocated_ret.
Qed.

Lemma keepsAllocated_uninstallObject objectID :
  keepsAllocated (World.uninstallObject objectID).
Proof.
  unfold World.uninstallObject. apply keepsAllocated_bind; [intros w; auto|].
  intros w0. destruct (negb _); [apply keepsAllocated_throw|].
  destruct (JsMap.get _ _); [|apply keepsAllocated_ret].
  apply keepsAllocated_bind; [apply keepsAllocated_with_objects|].
  intros _. apply keepsAllocated_ret.
Qed.

Lemma keepsAllocated_placeObject objectID position :
  keepsAllocated (World.placeObject objectID position).
Proof.
  unfold World.placeObject. apply keepsAllocated_bind; [intros w; auto|].
  intros w0. destruct (negb _); [apply keepsAllocated_throw|].
  destruct (JsMap.get _ _) as [object|]; [|apply keepsAllocated_ret].
  apply keepsAllocated_bind; [apply keepsAllocated_with_objects|]. intros _.
  apply keepsAllocated_bind; [apply keepsAllocated_restructureMap|].
  intros ok. destruct (negb ok); [apply keepsAllocated_ret|].
  destruct (WorldObject.placed _ _); [|apply keepsAllocated_throw].
  apply keepsAllocated_bind; [apply keepsAllocated_with_objects|].
  intros _. apply keepsAllocated_ret.
Qed.

Lemma keepsAllocated_displaceObject objectID :
  keepsAllocated (World.displaceObject objectID).
Proof.
  unfold World.displaceObject. apply keepsAllocated_bind; [intros w; auto|].
  intros w0. destruct (negb _); [apply keepsAllocated_throw|].
  destruct (JsMap.get _ _) as [object|]; [|apply keepsAllocated_ret].
  apply keepsAllocated_bind; [apply keepsAllocated_restructureMap|].
  intros ok. destruct (negb ok); apply keepsAllocated_ret.
Qed.

Lemma keepsAllocated_moveObject objectID newPosition :
  keepsAllocated (World.moveObject objectID newPosition).
Proof.
  intros w Hal. eapply stable_allocated; [apply moveObject_stable|exact Hal].
Qed.

(** [init] initializes and places the objects given to the constructor;
    the buffer it leaves is allocated, as is the buffer that every later
    operation leaves. *)
Lemma keepsAllocated_init gameSession : keepsAllocated (World.init gameSession).
Proof.
  unfold World.init.
  apply keepsAllocated_bind; [intros w Hal; simpl; destruct gameSession; exact Hal|].
  intros _. apply keepsAllocated_bind; [intros w Hal; exact Hal|].
  intros _. apply keepsAllocated_bind; [intros w; auto|].
  intros w0. apply keepsAllocated_forEach. intros objectID.
  apply keepsAllocated_bind; [apply keepsAllocated_initObject|]. intros _.
  apply keepsAllocated_bind; [apply keepsAllocated_placeObject|]. intros _.
  apply keepsAllocated_ret.
Qed.

(** * Further properties of the grid *)

(** ** lookupByLayer *)

Lemma lookupByLayer_rows w l ps :
  Forall (λ p, is_Some (World._map w !! Geo.y p)) ps →
  World.lookupByLayer l ps w = (Normal (cellAt w l <$> ps), w).
Proof.
  induction 1 as [|p ps Hp _ IH]; simpl; [reflexivity|].
  unfold bind. rewrite (readMap_spec _ _ _ Hp), IH. reflexivity.
Qed.

(** A lookup whose positions all name a row of the extent reads, in
    order, the slot [x + layer] of each row; it changes nothing. *)
Theorem lookupByLayer_reads_each_position
    (w : World.t) (layer : WorldObjectLayer)
    (positions : list Geo.Coordinate) :
  allocated w →
  Forall (λ p, 0 ≤ Geo.y p < World.height w) positions →
  World.lookupByLayer layer positions w
  = (Normal (cellAt w layer <$> positions), w).
Proof.
  intros Hal Hrows. apply lookupByLayer_rows.
  eapply Forall_impl; [exact Hrows|]. intros p Hp. apply Hal, Hp.
Qed.

Lemma lookupByLayer_reads_each_position_witness :
  allocated brickWorld
  ∧ World.lookupByLayer GROUND [at_ 0 0; at_ 1 1; at_ 9 9] brickWorld
    = (Normal [occupant "brick/A"; null; null], brickWorld).
Proof.
  assert (Hal : allocated brickWorld)
    by (apply (bool_decide_unpack _); vm_compute; reflexivity).
  split; [exact Hal|].
  rewrite (lookupByLayer_reads_each_position brickWorld GROUND
             [at_ 0 0; at_ 1 1; at_ 9 9] Hal).
  - vm_compute. reflexivity.
  - assert (Hh : World.height brickWorld = 10) by (vm_compute; reflexivity).
    rewrite Hh. repeat constructor; simpl; lia.
Defined.

(** The lookup does not defend against a row that is not there: the first
    position that names one makes the whole call raise a TypeError, and
    nothing of what was read before it is returned. *)
Theorem lookupByLayer_missing_row_raises
    (w : World.t) (layer : WorldObjectLayer)
    (before : list Geo.Coordinate) (p : Geo.Coordinate)
    (after : list Geo.Coordinate) :
  Forall (λ q, is_Some (World._map w !! Geo.y q)) before →
  World._map w !! Geo.y p = None →
  World.lookupByLayer layer (before ++ p :: after) w = (Throw TypeError, w).
Proof.
  intros Hbefore Hp. induction Hbefore as [|q qs Hq _ IH]; simpl.
  - unfold bind, World.readMap. rewrite Hp. reflexivity.
  - unfold bind at 1. rewrite (readMap_spec _ _ _ Hq).
    unfold bind at 1. rewrite IH. reflexivity.
Qed.

Lemma lookupByLayer_missing_row_raises_witness :
  World._map brickWorld !! 10 = None
  ∧ World.lookupByLayer GROUND ([at_ 0 0] ++ at_ 0 10 :: [at_ 1 1]) brickWorld
    = (Throw TypeError, brickWorld).
Proof.
  split; [reflexivity|].
  apply (lookupByLayer_missing_row_raises brickWorld GROUND
           [at_ 0 0] (at_ 0 10) [at_ 1 1]).
  - repeat constructor. vm_compute. eauto.
  - reflexivity.
Defined.

(** ** The constructor *)

Lemma new_slot props row col :
  0 ≤ row < World.props_height props →
  0 ≤ col < World.props_width props * WorldObjectLayerCount →
  slot (World.new props) row col = null.
Proof.
  intros Hrow Hcol. unfold slot, World.new. cbn [World._map].
  rewrite lookup_foldl_insert.
  rewrite decide_True by (apply elem_of_seqZ; lia).
  rewrite lookup_total_alt, lookup_foldl_insert.
  rewrite decide_True by (apply elem_of_seqZ; lia). reflexivity.
Qed.

(** A world as the constructor leaves it reads empty at every cell of its
    extent, on every layer, whatever objects it was given: the objects are
    registered, and placed only by [init]. *)
Theorem new_world_reads_empty
    (props : World.WorldProps) (layer : WorldObjectLayer)
    (positions : list Geo.Coordinate) :
  Forall (inBounds (World.new props)) positions →
  World.lookupByLayer layer positions (World.new props)
  = (Normal (replicate (length positions) null), World.new props).
Proof.
  intros Hin.
  rewrite lookupByLayer_rows.
  - f_equal. f_equal. induction Hin as [|p ps [Hx Hy] _ IH]; simpl; [reflexivity|].
    f_equal; [|exact IH]. apply new_slot; [exact Hy|].
    change (World.width (World.new props)) with (World.props_width props) in Hx.
    unfold WorldObjectLayerCount. destruct layer; simpl; lia.
  - eapply Forall_impl; [exact Hin|]. intros p [_ Hy].
    apply (new_allocated props), Hy.
Qed.

Lemma new_world_reads_empty_witness :
  Forall (inBounds freshWorld) [at_ 0 0; at_ 9 9]
  ∧ World.lookupByLayer GROUND [at_ 0 0; at_ 9 9] freshWorld
    = (Normal [null; null], freshWorld).
Proof.
  assert (Hin : Forall (inBounds freshWorld) [at_ 0 0; at_ 9 9]).
  { repeat constructor; simpl; lia. }
  split; [exact Hin|].
  exact (new_world_reads_empty
           (World.mkProps "test" 10 10 (Some [Brick "A" (at_ 0 0)]))
           GROUND [at_ 0 0; at_ 9 9] Hin).
Defined.

(** ** The extent and the rows never change *)

Lemma shaped_refl w : shaped w w.
Proof. constructor; auto. Qed.

Lemma shaped_trans w1 w2 w3 : shaped w1 w2 → shaped w2 w3 → shaped w1 w3.
Proof. intros [] []. constructor; try congruence; auto. Qed.

Lemma stable_shaped w w' : stable w w' → shaped w w'.
Proof. intros []. constructor; auto. Qed.

Lemma shaped_allocated w w' : shaped w w' → allocated w → allocated w'.
Proof.
  intros [] Hal row Hrow. rewrite shaped_height0 in Hrow.
  destruct (Hal row Hrow) as [Hr Hc]. split; [auto|].
  intros col Hcol. rewrite shaped_width0 in Hcol. auto.
Qed.

Lemma shaped_inBounds w w' c : shaped w w' → inBounds w c ↔ inBounds w' c.
Proof. intros []. unfold inBounds. rewrite shaped_width0, shaped_height0. tauto. Qed.

Lemma keepsShape_ret {A} (a : A) : keepsShape (ret a).
Proof. intros w. apply shaped_refl. Qed.

Lemma keepsShape_throw {A} e : keepsShape (throw (A:=A) e).
Proof. intros w. apply shaped_refl. Qed.

Lemma keepsShape_get : keepsShape get.
Proof. intros w. apply shaped_refl. Qed.

Lemma keepsShape_bind {A B} (m : Eff World.t A) (k : A → Eff World.t B) :
  keepsShape m → (∀ a, keepsShape (k a)) → keepsShape (bind m k).
Proof.
  intros Hm Hk w. unfold bind. specialize (Hm w).
  destruct (m w) as [[a|e] w1]; simpl in *; [|exact Hm].
  eapply shaped_trans; [exact Hm|apply Hk].
Qed.

Lemma keepsShape_forEach {A} (l : list A) (body : A → Eff World.t unit) :
  (∀ a, keepsShape (body a)) → keepsShape (forEach l body).
Proof.
  intros Hbody. induction l as [|a l IH]; simpl.
  - apply keepsShape_ret.
  - apply keepsShape_bind; [apply Hbody|intros _; exact IH].
Qed.

Lemma keepsShape_with_objects f : keepsShape (modify (World.with_objects f)).
Proof. intros w. constructor; auto. Qed.

Lemma keepsShape_restructureMap i l s old new :
  keepsShape (World.restructureMap i l s old new).
Proof. intros w. apply stable_shaped, restructureMap_stable. Qed.

Lemma keepsShape_initObject objectID :
  keepsShape (World.initObject objectID).
Proof.
  unfold World.initObject. apply keepsShape_bind; [apply keepsShape_get|].
  intros w0. destruct (JsMap.get _ _); [|apply keepsShape_ret].
  destruct (WorldObject.isInitialized _); [apply keepsShape_ret|].
  destruct (World.objectInit _ _);
    [apply keepsShape_with_objects|apply keepsShape_throw].
Qed.

Lemma keepsShape_installObject object :
  keepsShape (World.installObject object).
Proof.
  unfold World.installObject. apply keepsShape_bind; [apply keepsShape_get|].
  intros w0. destruct (negb _); [apply keepsShape_throw|].
  destruct (JsMap.has _ _); [apply keepsShape_ret|].
  apply keepsShape_bind; [apply keepsShape_with_objects|]. intros _.
  apply keepsShape_bind; [apply keepsShape_initObject|]. intros _.
  apply keepsShape_ret.
Qed.

Lemma keepsShape_uninstallObject objectID :
  keepsShape (World.uninstallObject objectID).
Proof.
  unfold World.uninstallObject. apply keepsShape_bind; [apply keepsShape_get|].
  intros w0. destruct (negb _); [apply keepsShape_throw|].
  destruct (JsMap.get _ _); [|apply keepsShape_ret].
  apply keepsShape_bind; [apply keepsShape_with_objects|].
  intros _. apply keepsShape_ret.
Qed.

Lemma keepsShape_placeObject objectID position :
  keepsShape (World.placeObject objectID position).
Proof.
  unfold World.placeObject. apply keepsShape_bind; [apply keepsShape_get|].
  intros w0. destruct (negb _); [apply keepsShape_throw|].
  destruct (JsMap.get _ _) as [object|]; [|apply keepsShape_ret].
  apply keepsShape_bind; [apply keepsShape_with_objects|]. intros _.
  apply keepsShape_bind; [apply keepsShape_restructureMap|].
  intros ok. destruct (negb ok); [apply keepsShape_ret|].
  destruct (WorldObject.placed _ _); [|apply keepsShape_throw].
  apply keepsShape_bind; [apply keepsShape_with_objects|].
  intros _. apply keepsShape_ret.
Qed.

Lemma keepsShape_displaceObject objectID :
  keepsShape (World.displaceObject objectID).
Proof.
  unfold World.displaceObject. apply keepsShape_bind; [apply keepsShape_get|].
  intros w0. destruct (negb _); [apply keepsShape_throw|].
  destruct (JsMap.get _ _) as [object|]; [|apply keepsShape_ret].
  apply keepsShape_bind; [apply keepsShape_restructureMap|].
  intros ok. destruct (negb ok); apply keepsShape_ret.
Qed.

Lemma keepsShape_moveObject objectID newPosition :
  keepsShape (World.moveObject objectID newPosition).
Proof. intros w. apply stable_shaped, moveObject_stable. Qed.

Lemma keepsShape_installAndPlaceObject object :
  keepsShape (World.installAndPlaceObject object).
Proof.
  unfold World.installAndPlaceObject.
  apply keepsShape_bind; [apply keepsShape_installObject|].
  intros ok. destruct (negb ok); [apply keepsShape_ret|].
  apply keepsShape_placeObject.
Qed.

Lemma keepsShape_uninstallAndDisplaceObject objectID :
  keepsShape (World.uninstallAndDisplaceObject objectID).
Proof.
  unfold World.uninstallAndDisplaceObject.
  apply keepsShape_bind; [apply keepsShape_uninstallObject|].
  intros ok. destruct (negb ok); [apply keepsShape_ret|].
  apply keepsShape_displaceObject.
Qed.

Lemma keepsShape_init gameSession : keepsShape (World.init gameSession).
Proof.
  unfold World.init.
  apply keepsShape_bind.
  { intros w. unfold modify. simpl. destruct gameSession; constructor; auto. }
  intros _. apply keepsShape_bind; [intros w; constructor; auto|].
  intros _. apply keepsShape_bind; [apply keepsShape_get|].
  intros w0. apply keepsShape_forEach. intros objectID.
  apply keepsShape_bind; [apply keepsShape_initObject|]. intros _.
  apply keepsShape_bind; [apply keepsShape_placeObject|]. intros _.
  apply keepsShape_ret.
Qed.

(** Whatever the arguments and however the call completes, normally or by
    raising, no operation of the grid changes the identity, the width or
    the height of the world, drops a row of the buffer or leaves a hole in
    a slot that held a value. *)
Theorem operations_keep_the_extent
    (w : World.t) (object : WorldObject.t) (objectID : WorldObjectID)
    (position : option Geo.Coordinate) (newPosition : Geo.Coordinate)
    (gameSession : option GameSession.t) :
  shaped w (run (World.init gameSession) w)
  ∧ shaped w (run (World.installObject object) w)
  ∧ shaped w (run (World.uninstallObject objectID) w)
  ∧ shaped w (run (World.placeObject objectID position) w)
  ∧ shaped w (run (World.displaceObject objectID) w)
  ∧ shaped w (run (World.moveObject objectID newPosition) w)
  ∧ shaped w (run (World.installAndPlaceObject object) w)
  ∧ shaped w (run (World.uninstallAndDisplaceObject objectID) w).
Proof.
  repeat split;
    first [apply keepsShape_init | apply keepsShape_installObject
          | apply keepsShape_uninstallObject | apply keepsShape_placeObject
          | apply keepsShape_displaceObject | apply keepsShape_moveObject
          | apply keepsShape_installAndPlaceObject
          | apply keepsShape_uninstallAndDisplaceObject].
Qed.

(** ** Placing and reading back *)

Lemma fmap_replicate_const {A B} (f : A → B) (v : B) (l : list A) :
  (∀ a, a ∈ l → f a = v) → f <$> l = replicate (length l) v.
Proof.
  induction l as [|a l IH]; intros Hf; simpl; [reflexivity|].
  f_equal; [apply Hf; left|]. apply IH. intros b Hb. apply Hf. right. exact Hb.
Qed.

(** An initialized object of the registry placed on a footprint that fits
    the extent and reads empty: the position asked for is returned and
    stored in the object, a lookup of the footprint on the layer of the
    object returns its identity at every cell, and no slot outside the
    footprint changes. *)
Theorem placeObject_then_lookup
    (w : World.t) (object : WorldObject.t)
    (position : option Geo.Coordinate) :
  World._isInitialized w = true → allocated w →
  JsMap.get (WorldObject.id object) (World.objects w) = Some object →
  WorldObject.isInitialized object = true →
  fits w (default (WorldObject.position object) position)
         (WorldObject.size object) →
  (∀ c, c ∈ footprint (default (WorldObject.position object) position)
                      (WorldObject.size object) →
        cellAt w (WorldObject.layer object) c = null) →
  ∃ w', World.placeObject (WorldObject.id object) position w
        = (Normal (Some (default (WorldObject.position object) position)), w')
    ∧ World.lookupByLayer (WorldObject.layer object)
        (footprint (default (WorldObject.position object) position)
                   (WorldObject.size object)) w'
      = (Normal
           (replicate
              (length (footprint
                         (default (WorldObject.position object) position)
                         (WorldObject.size object)))
              (occupant (WorldObject.id object))), w')
    ∧ WorldObject.position <$>
        JsMap.get (WorldObject.id object) (World.objects w')
      = Some (default (WorldObject.position object) position)
    ∧ (∀ row col,
         (∀ c, c ∈ footprint (default (WorldObject.position object) position)
                             (WorldObject.size object) →
            (row, col)
            ≠ (Geo.y c, Geo.x c + layerValue (WorldObject.layer object))) →
         slot w' row col = slot w row col).
Proof.
  intros Hinit Hal Hget Hobj Hfits Hfree.
  destruct (placeObject_free w object position Hinit Hal Hget Hfits Hfree)
    as (w' & Hplace & Hobjects & Hid & Hframe).
  unfold WorldObject.placed in Hplace, Hobjects. rewrite Hobj in *.
  cbn [negb] in *.
  exists w'. split; [exact Hplace|].
  pose proof (keepsShape_placeObject (WorldObject.id object) position w)
    as Hshape.
  rewrite Hplace in Hshape. cbn [snd] in Hshape.
  split; [|split; [|exact Hframe]].
  - rewrite lookupByLayer_rows.
    + f_equal. f_equal. apply fmap_replicate_const. exact Hid.
    + apply Forall_forall. intros c Hc.
      apply (shaped_rows _ _ Hshape). eapply allocated_row; [exact Hal|].
      eapply fits_inBounds; eassumption.
  - rewrite Hobjects, JsMap_get_set. reflexivity.
Qed.

Lemma placeObject_then_lookup_witness :
  ∃ w', World.placeObject "beam/B" (Some (at_ 2 3)) beamWorld
        = (Normal (Some (at_ 2 3)), w')
    ∧ World.lookupByLayer GROUND [at_ 2 3; at_ 3 3] w'
      = (Normal [occupant "beam/B"; occupant "beam/B"], w')
    ∧ WorldObject.position <$> JsMap.get "beam/B" (World.objects w')
      = Some (at_ 2 3).
Proof.
  assert (Hal : allocated beamWorld)
    by (apply (bool_decide_unpack _); vm_compute; reflexivity).
  destruct (placeObject_then_lookup beamWorld
              (WorldObject.init (Beam "B" (at_ 0 0))) (Some (at_ 2 3)))
    as (w' & Hplace & Hlookup & Hpos & _).
  - reflexivity.
  - exact Hal.
  - vm_compute. reflexivity.
  - reflexivity.
  - vm_compute. repeat split; discriminate.
  - intros c Hc. apply elem_of_footprint in Hc. simpl in Hc.
    destruct c as [x y]. simpl in Hc.
    assert (y = 3) as -> by lia.
    assert (x = 2 ∨ x = 3) as [-> | ->] by lia; vm_compute; reflexivity.
  - exists w'. split; [exact Hplace|]. split; [exact Hlookup|exact Hpos].
Defined.

(** For an object of the registry, [placeObject] returns none exactly when
    the target footprint does not fit the extent, and then the world is as
    it was. *)
Theorem placeObject_none_iff_out_of_bounds
    (w : World.t) (object : WorldObject.t)
    (position : option Geo.Coordinate) :
  World._isInitialized w = true → allocated w →
  JsMap.get (WorldObject.id object) (World.objects w) = Some object →
  (result (World.placeObject (WorldObject.id object) position) w = Normal None
   ↔ ¬ fits w (default (WorldObject.position object) position)
             (WorldObject.size object))
  ∧ (¬ fits w (default (WorldObject.position object) position)
            (WorldObject.size object) →
     run (World.placeObject (WorldObject.id object) position) w = w).
Proof.
  intros Hinit Hal Hget.
  destruct (decide (fits w (default (WorldObject.position object) position)
                      (WorldObject.size object))) as [Hfits|Hout].
  - split; [|tauto]. split; [|tauto]. intros Hnone. exfalso.
    destruct (decide (Exists
                (λ c, cellAt w (WorldObject.layer object) c ≠ null)
                (footprint (default (WorldObject.position object) position)
                           (WorldObject.size object)))) as [Htaken|Hfree].
    + apply Exists_exists in Htaken.
      destruct (first_split _ _ Htaken) as (pre & c & post & Hsplit & Hpre & Hc).
      destruct (placeObject_occupied w object position pre c post)
        as (w' & Hplace & _); try assumption.
      { intros c' Hc'.
        destruct (decide (cellAt w (WorldObject.layer object) c' = null));
          [assumption|]. exfalso. eapply Hpre; eassumption. }
      unfold result in Hnone. rewrite Hplace in Hnone. discriminate.
    + destruct (placeObject_free w object position Hinit Hal Hget Hfits)
        as (w' & Hplace & _).
      { intros c Hc.
        destruct (decide (cellAt w (WorldObject.layer object) c = null));
          [assumption|]. exfalso. apply Hfree, Exists_exists. eauto. }
      unfold result in Hnone. rewrite Hplace in Hnone.
      unfold WorldObject.placed in Hnone.
      destruct (negb (WorldObject.isInitialized object)); discriminate.
  - assert (Hplace : World.placeObject (WorldObject.id object) position w
                     = (Normal None, w)).
    { rewrite placeObject_registered by assumption.
      unfold bind. rewrite restructureMap_rejects by assumption. reflexivity. }
    unfold result, run. rewrite Hplace. split; [tauto|reflexivity].
Qed.

Lemma placeObject_none_iff_out_of_bounds_witness :
  ¬ fits brickWorld (at_ 10 0) (Geo.mkSize 1 1)
  ∧ result (World.placeObject "brick/A" (Some (at_ 10 0))) brickWorld
    = Normal None
  ∧ run (World.placeObject "brick/A" (Some (at_ 10 0))) brickWorld
    = brickWorld.
Proof.
  assert (Hal : allocated brickWorld)
    by (apply (bool_decide_unpack _); vm_compute; reflexivity).
  assert (Hout : ¬ fits brickWorld (at_ 10 0) (Geo.mkSize 1 1)).
  { assert (Hw : World.width brickWorld = 10) by (vm_compute; reflexivity).
    unfold fits. rewrite Hw. simpl. lia. }
  destruct (placeObject_none_iff_out_of_bounds brickWorld
              (WorldObject.init (Brick "A" (at_ 0 0))) (Some (at_ 10 0))
              eq_refl Hal eq_refl) as [Hiff Hsame].
  split; [exact Hout|]. split; [apply Hiff, Hout|apply Hsame, Hout].
Defined.

(** ** The registry *)

Lemma JsMap_get_set_ne {V} k k' (v : V) m :
  k ≠ k' → JsMap.get k' (JsMap.set k v m) = JsMap.get k' m.
Proof.
  intros Hne. induction m as [|[k0 v0] m IH]; simpl.
  - rewrite decide_False by assumption. reflexivity.
  - destruct (decide (k0 = k)) as [->|Hk0]; simpl.
    + rewrite !decide_False by assumption. reflexivity.
    + destruct (decide (k0 = k')); [reflexivity|exact IH].
Qed.

Lemma JsMap_get_delete_ne {V} k k' (m : JsMap.t V) :
  k ≠ k' → JsMap.get k' (JsMap.delete k m) = JsMap.get k' m.
Proof.
  intros Hne. unfold JsMap.delete, JsMap.t in *.
  induction m as [|[k0 v0] m IH]; [reflexivity|].
  rewrite filter_cons. simpl. destruct (decide (k0 ≠ k)) as [Hk0|Hk0].
  - simpl. destruct (decide (k0 = k')); [reflexivity|exact IH].
  - assert (k0 = k) as -> by (destruct (decide (k0 = k)); tauto).
    rewrite decide_False by assumption. exact IH.
Qed.

Lemma JsMap_delete_set_fresh {V} k (v : V) m :
  JsMap.get k m = None → JsMap.delete k (JsMap.set k v m) = m.
Proof.
  unfold JsMap.delete, JsMap.t in *.
  induction m as [|[k0 v0] m IH]; simpl.
  - intros _. rewrite filter_cons. simpl.
    rewrite decide_False by (intros H; apply H; reflexivity). reflexivity.
  - destruct (decide (k0 = k)) as [->|Hne]; [discriminate|].
    intros Hget. rewrite filter_cons. simpl.
    rewrite decide_True by assumption. f_equal. apply IH, Hget.
Qed.

Lemma JsMap_set_set {V} k (v v' : V) m :
  JsMap.set k v' (JsMap.set k v m) = JsMap.set k v' m.
Proof.
  induction m as [|[k0 v0] m IH]; simpl.
  - rewrite decide_True; reflexivity.
  - destruct (decide (k0 = k)) as [->|Hne]; simpl.
    + rewrite decide_True; reflexivity.
    + rewrite decide_False by assumption. f_equal. exact IH.
Qed.

Lemma WorldObject_init_id object :
  WorldObject.id (WorldObject.init object) = WorldObject.id object.
Proof. unfold WorldObject.init. destruct (WorldObject.isInitialized object); reflexivity. Qed.

Lemma init_fields o :
  WorldObject.id (WorldObject.init o) = WorldObject.id o
  ∧ WorldObject.layer (WorldObject.init o) = WorldObject.layer o
  ∧ WorldObject.position (WorldObject.init o) = WorldObject.position o
  ∧ WorldObject.size (WorldObject.init o) = WorldObject.size o
  ∧ WorldObject.isInitialized (WorldObject.init o) = true.
Proof.
  unfold WorldObject.init. destruct (WorldObject.isInitialized o) eqn:E;
    repeat split; assumption.
Qed.

(** The [init] that [initObject] calls on an object that is not
    initialized. *)
Lemma objectInit_able session object :
  initializable session object →
  WorldObject.isInitialized object = false →
  World.objectInit session object = Normal (WorldObject.init object).
Proof.
  intros Hable Ei. unfold World.objectInit, ObjectPlayer.init.
  destruct (decide (WorldObject.kind object = ObjectPlayer.PLAYER_KIND))
    as [Hk|Hk]; [|reflexivity].
  destruct Hable as [H|[H|[g ->]]]; [congruence|contradiction|reflexivity].
Qed.

Lemma objectInit_unable session object :
  ¬ initializable session object →
  WorldObject.isInitialized object = false
  ∧ World.objectInit session object = Throw Error_InvalidInitProperties.
Proof.
  intros Hable. unfold initializable in Hable. split.
  - destruct (WorldObject.isInitialized object); [|reflexivity].
    exfalso. apply Hable. left. reflexivity.
  - unfold World.objectInit, ObjectPlayer.init.
    destruct (decide (WorldObject.kind object = ObjectPlayer.PLAYER_KIND))
      as [Hk|Hk]; [|exfalso; apply Hable; right; left; exact Hk].
    destruct session as [g|]; [|reflexivity].
    exfalso. apply Hable. right. right. eexists. reflexivity.
Qed.

Lemma init_initialized object :
  WorldObject.isInitialized object = true → WorldObject.init object = object.
Proof. intros Ei. unfold WorldObject.init. rewrite Ei. reflexivity. Qed.

(** What [installObject] leaves for an identity that the registry does not
    hold: the object is registered first, and its [init] may throw. *)
Lemma installObject_new w object :
  World._isInitialized w = true →
  JsMap.get (WorldObject.id object) (World.objects w) = None →
  World.installObject object w
  = if decide (initializable (World._gameSession w) object)
    then (Normal true,
          World.with_objects
            (JsMap.set (WorldObject.id object) (WorldObject.init object)) w)
    else (Throw Error_InvalidInitProperties,
          World.with_objects (JsMap.set (WorldObject.id object) object) w).
Proof.
  intros Hinit Hget.
  unfold World.installObject, bind, get, modify, JsMap.has.
  rewrite Hinit, Hget. cbn [negb].
  unfold World.initObject, bind, get.
  destruct w as [i wd ht objs gs ini mp]. unfold World.with_objects.
  cbn [World.objects World.id World.width World.height World._gameSession
       World._isInitialized World._map] in *.
  rewrite JsMap_get_set.
  destruct (decide (initializable gs object)) as [Hable|Hable].
  - destruct (WorldObject.isInitialized object) eqn:Ei.
    + unfold ret. rewrite init_initialized by assumption. reflexivity.
    + rewrite objectInit_able by assumption. unfold modify, ret.
      cbn [World.objects World.id World.width World.height
           World._gameSession World._isInitialized World._map].
      rewrite JsMap_set_set. reflexivity.
  - destruct (objectInit_unable gs object Hable) as [-> ->]. reflexivity.
Qed.

Lemma installObject_fresh w object :
  World._isInitialized w = true →
  JsMap.get (WorldObject.id object) (World.objects w) = None →
  initializable (World._gameSession w) object →
  World.installObject object w
  = (Normal true,
     World.with_objects
       (JsMap.set (WorldObject.id object) (WorldObject.init object)) w).
Proof.
  intros Hinit Hget Hable. rewrite installObject_new by assumption.
  rewrite decide_True by assumption. reflexivity.
Qed.

Lemma installObject_throws w object :
  World._isInitialized w = true →
  JsMap.get (WorldObject.id object) (World.objects w) = None →
  ¬ initializable (World._gameSession w) object →
  World.installObject object w
  = (Throw Error_InvalidInitProperties,
     World.with_objects (JsMap.set (WorldObject.id object) object) w).
Proof.
  intros Hinit Hget Hable. rewrite installObject_new by assumption.
  rewrite decide_False by assumption. reflexivity.
Qed.

(** [installObject] registers before it initializes.  For an identity
    that the registry does not hold: when the [init] of the object
    completes, the call returns true and the object is registered,
    initialized; when it throws, as for a player in a world without a
    game session, the call throws and the object stays registered as it
    was given, not initialized.  In both cases the buffer is as before,
    and installing the same identity again, with whatever object,
    returns false and changes nothing, so the object registered first
    stays. *)
Theorem installObject_twice
    (w : World.t) (object again : WorldObject.t) :
  World._isInitialized w = true →
  JsMap.get (WorldObject.id object) (World.objects w) = None →
  WorldObject.id again = WorldObject.id object →
  (initializable (World._gameSession w) object →
   result (World.installObject object) w = Normal true
   ∧ JsMap.get (WorldObject.id object)
       (World.objects (run (World.installObject object) w))
     = Some (WorldObject.init object))
  ∧ (¬ initializable (World._gameSession w) object →
     result (World.installObject object) w = Throw Error_InvalidInitProperties
     ∧ JsMap.get (WorldObject.id object)
         (World.objects (run (World.installObject object) w))
       = Some object)
  ∧ World._map (run (World.installObject object) w) = World._map w
  ∧ World.installObject again (run (World.installObject object) w)
    = (Normal false, run (World.installObject object) w).
Proof.
  intros Hinit Hget Hid. unfold result, run.
  rewrite installObject_new by assumption.
  destruct (decide (initializable (World._gameSession w) object))
    as [Hable|Hable]; cbn [fst snd].
  - split; [intros _; split; [reflexivity|apply JsMap_get_set]|].
    split; [intros H; contradiction|]. split; [reflexivity|].
    unfold World.installObject, bind, get, JsMap.has. simpl.
    rewrite Hinit, Hid, JsMap_get_set. reflexivity.
  - split; [intros H; contradiction|].
    split; [intros _; split; [reflexivity|apply JsMap_get_set]|].
    split; [reflexivity|].
    unfold World.installObject, bind, get, JsMap.has. simpl.
    rewrite Hinit, Hid, JsMap_get_set. reflexivity.
Qed.

Lemma installObject_twice_witness :
  (result (World.installObject (Brick "B" (at_ 5 5))) brickWorld = Normal true
   ∧ JsMap.get "brick/B"
       (World.objects (run (World.installObject (Brick "B" (at_ 5 5)))
                           brickWorld))
     = Some (WorldObject.init (Brick "B" (at_ 5 5))))
  ∧ World.installObject (Brick "B" (at_ 7 7))
      (run (World.installObject (Brick "B" (at_ 5 5))) brickWorld)
    = (Normal false, run (World.installObject (Brick "B" (at_ 5 5)))
                         brickWorld)
  ∧ (result (World.installObject (Player.new "P" RIGHT (at_ 0 0)).1) brickWorld
     = Throw Error_InvalidInitProperties
     ∧ JsMap.get "player/P"
         (World.objects
            (run (World.installObject (Player.new "P" RIGHT (at_ 0 0)).1)
                 brickWorld))
       = Some (Player.new "P" RIGHT (at_ 0 0)).1).
Proof.
  destruct (installObject_twice brickWorld (Brick "B" (at_ 5 5))
              (Brick "B" (at_ 7 7)) eq_refl eq_refl eq_refl)
    as (Hnormal & _ & _ & Hagain).
  destruct (installObject_twice brickWorld (Player.new "P" RIGHT (at_ 0 0)).1
              (Player.new "P" RIGHT (at_ 0 0)).1 eq_refl eq_refl eq_refl)
    as (_ & Hthrows & _ & _).
  split; [apply Hnormal; right; left; discriminate|].
  split; [exact Hagain|].
  apply Hthrows. intros [H|[H|[g H]]];
    [discriminate H|apply H; reflexivity|discriminate H].
Defined.

(** Uninstalling what was just installed gives back the world as it was:
    the registry, with its order, and everything else. *)
Theorem installObject_then_uninstallObject
    (w : World.t) (object : WorldObject.t) :
  World._isInitialized w = true →
  JsMap.get (WorldObject.id object) (World.objects w) = None →
  World.uninstallObject (WorldObject.id object)
    (run (World.installObject object) w)
  = (Normal true, w).
Proof.
  intros Hinit Hget. unfold run.
  rewrite installObject_new by assumption.
  destruct (decide (initializable (World._gameSession w) object))
    as [Hable|Hable];
    cbn [snd];
    unfold World.uninstallObject, bind, get, modify, ret;
    destruct w as [i wd ht objs gs ini mp]; unfold World.with_objects;
    cbn [World.objects World.id World.width World.height World._gameSession
         World._isInitialized World._map] in *;
    rewrite Hinit; cbn [negb]; rewrite JsMap_get_set; cbv beta iota;
    cbn [World.objects World.id World.width World.height World._gameSession
         World._isInitialized World._map];
    rewrite ?WorldObject_init_id, JsMap_delete_set_fresh by assumption;
    reflexivity.
Qed.

Lemma installObject_then_uninstallObject_witness :
  JsMap.get "brick/B" (World.objects brickWorld) = None
  ∧ World.uninstallObject "brick/B"
      (run (World.installObject (Brick "B" (at_ 5 5))) brickWorld)
    = (Normal true, brickWorld).
Proof.
  split; [reflexivity|].
  apply (installObject_then_uninstallObject brickWorld (Brick "B" (at_ 5 5)));
    reflexivity.
Defined.

(** [uninstallObject] removes the one identity from the registry and
    touches nothing else: the entries of the other identities, the cell
    buffer, so the cells that the object occupies, and the events stay. *)
Theorem uninstallObject_leaves_the_cells
    (w : World.t) (object : WorldObject.t) :
  World._isInitialized w = true →
  JsMap.get (WorldObject.id object) (World.objects w) = Some object →
  ∃ w', World.uninstallObject (WorldObject.id object) w = (Normal true, w')
    ∧ JsMap.get (WorldObject.id object) (World.objects w') = None
    ∧ (∀ other, other ≠ WorldObject.id object →
         JsMap.get other (World.objects w') = JsMap.get other (World.objects w))
    ∧ World._map w' = World._map w
    ∧ events w' = events w.
Proof.
  intros Hinit Hget.
  unfold World.uninstallObject, bind, get, modify, ret.
  rewrite Hinit. cbn [negb]. rewrite Hget.
  eexists. split; [reflexivity|]. simpl.
  split; [apply JsMap_get_delete|]. split; [|split; reflexivity].
  intros other Hne. apply JsMap_get_delete_ne. congruence.
Qed.

Lemma uninstallObject_leaves_the_cells_witness :
  cellAt brickWorld GROUND (at_ 0 0) = occupant "brick/A"
  ∧ ∃ w', World.uninstallObject "brick/A" brickWorld = (Normal true, w')
      ∧ JsMap.get "brick/A" (World.objects w') = None
      ∧ cellAt w' GROUND (at_ 0 0) = occupant "brick/A".
Proof.
  split; [reflexivity|].
  destruct (uninstallObject_leaves_the_cells brickWorld
              (WorldObject.init (Brick "A" (at_ 0 0))) eq_refl eq_refl)
    as (w' & Hun & Hgone & _ & Hmap & _).
  exists w'. split; [exact Hun|]. split; [exact Hgone|].
  unfold cellAt, slot. rewrite Hmap. reflexivity.
Defined.

(** ** How the operations compose *)

Lemma WorldObject_placed_same object :
  WorldObject.isInitialized object = true →
  WorldObject.placed (WorldObject.position object) object = Normal object.
Proof.
  intros Hobj. unfold WorldObject.placed. destruct object. simpl in *.
  subst. reflexivity.
Qed.

(** Displacing an object and placing it again at its stored position
    always succeeds when the stored rectangle fits the extent: whatever
    the cells of the rectangle held before, the identities of other
    objects included, they hold the object afterwards; no other slot and
    nothing of the registry changes. *)
Theorem displaceObject_then_placeObject
    (w : World.t) (object : WorldObject.t) :
  World._isInitialized w = true → allocated w →
  JsMap.get (WorldObject.id object) (World.objects w) = Some object →
  WorldObject.isInitialized object = true →
  fits w (WorldObject.position object) (WorldObject.size object) →
  ∃ w1 w2,
    World.displaceObject (WorldObject.id object) w = (Normal true, w1)
    ∧ World.placeObject (WorldObject.id object) None w1
      = (Normal (Some (WorldObject.position object)), w2)
    ∧ World.objects w2 = World.objects w
    ∧ (∀ c, c ∈ footprint (WorldObject.position object)
                          (WorldObject.size object) →
         cellAt w2 (WorldObject.layer object) c
         = occupant (WorldObject.id object))
    ∧ (∀ row col,
         (∀ c, c ∈ footprint (WorldObject.position object)
                             (WorldObject.size object) →
            (row, col)
            ≠ (Geo.y c, Geo.x c + layerValue (WorldObject.layer object))) →
         slot w2 row col = slot w row col).
Proof.
  intros Hinit Hal Hget Hobj Hfits.
  destruct (displaceObject_clears w (WorldObject.id object) object
              Hinit Hal Hget) as (w1 & Hd & Hst & _ & Hnull & Hframe1).
  { intros c Hc. eapply fits_inBounds; eassumption. }
  assert (Hget1 : JsMap.get (WorldObject.id object) (World.objects w1)
                  = Some object)
    by (rewrite (stable_objects _ _ Hst); exact Hget).
  destruct (placeObject_free w1 object None) as (w2 & Hp & Hobjects & Hid & Hframe2).
  - rewrite (stable_isInitialized _ _ Hst). exact Hinit.
  - eapply stable_allocated; eassumption.
  - exact Hget1.
  - destruct Hst, Hfits as (? & ? & ? & ?). unfold fits. simpl.
    rewrite stable_width0, stable_height0. auto.
  - exact Hnull.
  - simpl in Hp, Hobjects, Hid, Hframe2.
    rewrite WorldObject_placed_same in Hp, Hobjects by assumption.
    exists w1, w2. split; [exact Hd|]. split; [exact Hp|]. split; [|split].
    + rewrite Hobjects, JsMap_set_same by assumption. apply Hst.
    + exact Hid.
    + intros row col Hout. rewrite Hframe2, Hframe1 by assumption.
      reflexivity.
Qed.

Lemma displaceObject_then_placeObject_witness :
  cellAt beamWorld GROUND (at_ 1 0) = occupant "brick/A"
  ∧ ∃ w1 w2,
      World.displaceObject "beam/B" beamWorld = (Normal true, w1)
      ∧ World.placeObject "beam/B" None w1 = (Normal (Some (at_ 0 0)), w2)
      ∧ cellAt w2 GROUND (at_ 0 0) = occupant "beam/B"
      ∧ cellAt w2 GROUND (at_ 1 0) = occupant "beam/B".
Proof.
  split; [reflexivity|].
  assert (Hal : allocated beamWorld)
    by (apply (bool_decide_unpack _); vm_compute; reflexivity).
  destruct (displaceObject_then_placeObject beamWorld
              (WorldObject.init (Beam "B" (at_ 0 0))) eq_refl Hal eq_refl
              eq_refl)
    as (w1 & w2 & Hd & Hp & _ & Hid & _).
  - vm_compute. repeat split; discriminate.
  - exists w1, w2. split; [exact Hd|]. split; [exact Hp|].
    split; apply Hid; apply elem_of_footprint; simpl; lia.
Defined.

(** The diff of a move between footprints that overlap or touch. The
    object is registered, its stored rectangle lies in the extent, the
    destination fits, and the cells that only the new footprint covers
    read empty. The move returns the destination, clears the cells that
    only the old footprint covers, writes the identity to the cells that
    only the new one covers, and leaves the cells that both cover and
    every slot outside the two footprints. *)
Theorem moveObject_between_touching_footprints
    (w : World.t) (objectID : WorldObjectID) (object : WorldObject.t)
    (newPosition : Geo.Coordinate) :
  World._isInitialized w = true → allocated w →
  JsMap.get objectID (World.objects w) = Some object →
  fits w newPosition (WorldObject.size object) →
  (∀ c, c ∈ footprint (WorldObject.position object) (WorldObject.size object)
        → inBounds w c) →
  0 ≤ overlapWidth (WorldObject.position object) newPosition
        (WorldObject.size object) →
  0 ≤ overlapHeight (WorldObject.position object) newPosition
        (WorldObject.size object) →
  (∀ c, c ∈ footprint newPosition (WorldObject.size object) →
        c ∉ footprint (WorldObject.position object) (WorldObject.size object) →
        cellAt w (WorldObject.layer object) c = null) →
  ∃ w', World.moveObject objectID newPosition w
        = (Normal (Some newPosition), w')
    ∧ World.objects w' = World.objects w
    ∧ (∀ c, c ∈ footprint (WorldObject.position object)
                          (WorldObject.size object) →
            c ∉ footprint newPosition (WorldObject.size object) →
         cellAt w' (WorldObject.layer object) c = null)
    ∧ (∀ c, c ∈ footprint newPosition (WorldObject.size object) →
            c ∉ footprint (WorldObject.position object)
                          (WorldObject.size object) →
         cellAt w' (WorldObject.layer object) c
         = occupant (WorldObject.id object))
    ∧ (∀ c, c ∈ footprint (WorldObject.position object)
                          (WorldObject.size object) →
            c ∈ footprint newPosition (WorldObject.size object) →
         cellAt w' (WorldObject.layer object) c
         = cellAt w (WorldObject.layer object) c)
    ∧ (∀ row col,
         (∀ c, c ∈ footprint (WorldObject.position object)
                             (WorldObject.size object)
               ∨ c ∈ footprint newPosition (WorldObject.size object) →
               (row, col)
               ≠ (Geo.y c,
                  Geo.x c + layerValue (WorldObject.layer object))) →
         slot w' row col = slot w row col).
Proof. apply moveObject_touching. Qed.

Lemma moveObject_between_touching_footprints_witness :
  ∃ w', World.moveObject "beam/B" (at_ 1 1)
          (run (World.placeObject "beam/B" (Some (at_ 0 1))) beamWorld)
        = (Normal (Some (at_ 1 1)), w')
    ∧ cellAt w' GROUND (at_ 0 1) = null
    ∧ cellAt w' GROUND (at_ 1 1) = occupant "beam/B"
    ∧ cellAt w' GROUND (at_ 2 1) = occupant "beam/B".
Proof.
  set (w := run (World.placeObject "beam/B" (Some (at_ 0 1))) beamWorld).
  set (beam := WorldObject.mk "beam/B" "beam" GROUND (at_ 0 1)
                 (Geo.mkSize 2 1) true).
  assert (Hal : allocated w)
    by (apply (bool_decide_unpack _); vm_compute; reflexivity).
  assert (Hw : World.width w = 10) by (vm_compute; reflexivity).
  assert (Hh : World.height w = 10) by (vm_compute; reflexivity).
  destruct (moveObject_between_touching_footprints w "beam/B" beam (at_ 1 1))
    as (w' & Hmove & _ & Hnull & Hid & Hkeep & _).
  - reflexivity.
  - exact Hal.
  - vm_compute. reflexivity.
  - unfold fits. rewrite Hw, Hh. simpl. lia.
  - intros c Hc. apply elem_of_footprint in Hc. simpl in Hc.
    unfold inBounds. rewrite Hw, Hh. lia.
  - vm_compute. discriminate.
  - vm_compute. discriminate.
  - intros c Hc Hc'. rewrite elem_of_footprint in Hc, Hc'. simpl in Hc, Hc'.
    destruct c as [x y]. simpl in *.
    assert (x = 2) as -> by lia. assert (y = 1) as -> by lia.
    vm_compute. reflexivity.
  - exists w'. split; [exact Hmove|]. split; [|split].
    + apply Hnull; rewrite elem_of_footprint; simpl; lia.
    + rewrite Hkeep; [vm_compute; reflexivity| |];
        rewrite elem_of_footprint; simpl; lia.
    + apply Hid; rewrite elem_of_footprint; simpl; lia.
Defined.

(** A move between footprints that overlap or touch, one cell of the
    destination being taken. *)
Lemma moveObject_blocked w objectID object newPosition :
  World._isInitialized w = true → allocated w →
  JsMap.get objectID (World.objects w) = Some object →
  fits w newPosition (WorldObject.size object) →
  (∀ c, c ∈ footprint (WorldObject.position object) (WorldObject.size object)
        → inBounds w c) →
  0 ≤ overlapWidth (WorldObject.position object) newPosition
        (WorldObject.size object) →
  0 ≤ overlapHeight (WorldObject.position object) newPosition
        (WorldObject.size object) →
  (∃ c, c ∈ footprint newPosition (WorldObject.size object)
        ∧ (c ∉ footprint (WorldObject.position object)
                         (WorldObject.size object))
        ∧ cellAt w (WorldObject.layer object) c ≠ null) →
  ∃ c w',
    c ∈ footprint newPosition (WorldObject.size object)
    ∧ (c ∉ footprint (WorldObject.position object) (WorldObject.size object))
    ∧ cellAt w (WorldObject.layer object) c ≠ null
    ∧ World.moveObject objectID newPosition w
      = (Throw (ErrorOverlappingObject (WorldObject.id object)
                  (cellAt w (WorldObject.layer object) c)), w')
    ∧ World.objects w' = World.objects w
    ∧ (∀ c', c' ∈ footprint (WorldObject.position object)
                            (WorldObject.size object) →
             c' ∉ footprint newPosition (WorldObject.size object) →
         cellAt w' (WorldObject.layer object) c' = null)
    ∧ (∀ c', c' ∈ footprint (WorldObject.position object)
                            (WorldObject.size object) →
             c' ∈ footprint newPosition (WorldObject.size object) →
         cellAt w' (WorldObject.layer object) c'
         = cellAt w (WorldObject.layer object) c').
Proof.
  intros Hinit Hal Hget Hfits Hold Hw Hh (c0 & Hc0 & Hc0' & Hc0t).
  set (l := WorldObject.layer object) in *.
  set (s := WorldObject.size object) in *.
  set (old := WorldObject.position object) in *.
  destruct (clearCells_spec l (strips old newPosition old s) w Hal)
    as (w1 & Hclear & Hst1 & _ & Hnull & Hframe1).
  { intros c Hc. apply elem_of_strips_old in Hc as [Hc _]; auto. }
  assert (Hsame : ∀ c, c ∈ strips old newPosition newPosition s →
                       cellAt w1 l c = cellAt w l c).
  { intros c Hc. apply elem_of_strips_new in Hc as [Hc Hc']; [|assumption..].
    unfold cellAt. apply Hframe1. intros c' Hc'' Heq.
    apply address_inj in Heq. subst c'.
    apply elem_of_strips_old in Hc'' as [Hc'' _]; [|assumption..].
    contradiction. }
  destruct (first_split (λ c, cellAt w1 l c ≠ null)
              (strips old newPosition newPosition s))
    as (pre & c & post & Hsplit & Hpre & Hc).
  { exists c0. assert (Hin : c0 ∈ strips old newPosition newPosition s)
      by (apply elem_of_strips_new; auto).
    split; [exact Hin|]. rewrite Hsame; assumption. }
  assert (Hcin : c ∈ strips old newPosition newPosition s)
    by (rewrite Hsplit; apply elem_of_app; right; left).
  assert (Hprein : ∀ c', c' ∈ pre → c' ∈ strips old newPosition newPosition s)
    by (intros c' Hc'; rewrite Hsplit; apply elem_of_app; left; exact Hc').
  destruct (writeCells_occupied l (WorldObject.id object) pre c post w1)
    as (w2 & Hwrite & Hst2 & _ & Hframe2).
  { eapply stable_allocated; eassumption. }
  { rewrite <- Hsplit. apply NoDup_strips; assumption. }
  { intros c' Hc'. rewrite <- Hsplit in Hc'.
    apply elem_of_strips_new in Hc' as [Hc' _]; [|assumption..].
    eapply stable_inBounds; [eassumption|]. eapply fits_inBounds; eassumption. }
  { intros c' Hc'. destruct (decide (cellAt w1 l c' = null)); [assumption|].
    exfalso. eapply Hpre; eassumption. }
  { exact Hc. }
  pose proof Hcin as Hcin'.
  apply elem_of_strips_new in Hcin' as [HcB HcA]; [|assumption..].
  exists c, w2. split; [exact HcB|]. split; [exact HcA|].
  split; [rewrite <- Hsame; assumption|]. split; [|split; [|split]].
  - rewrite (moveObject_registered _ _ _ _ Hinit Hget).
    unfold bind at 1. rewrite restructureMap_move_strips by assumption.
    fold l s old. unfold bind. rewrite Hclear, Hsplit, Hwrite.
    rewrite (Hsame c Hcin). reflexivity.
  - rewrite (stable_objects _ _ Hst2). apply Hst1.
  - intros c' Hc' Hc''. unfold cellAt. rewrite Hframe2.
    + apply Hnull. apply elem_of_strips_old; auto.
    + intros c'' Hpre'' Heq. apply address_inj in Heq. subst c''.
      apply Hprein, elem_of_strips_new in Hpre'' as [_ Hno]; [|assumption..].
      contradiction.
  - intros c' Hc' Hc''. unfold cellAt. rewrite Hframe2, Hframe1.
    + reflexivity.
    + intros c'' Hin'' Heq. apply address_inj in Heq. subst c''.
      apply elem_of_strips_old in Hin'' as [_ Hno]; [|assumption..].
      contradiction.
    + intros c'' Hpre'' Heq. apply address_inj in Heq. subst c''.
      apply Hprein, elem_of_strips_new in Hpre'' as [_ Hno]; [|assumption..].
      contradiction.
Qed.

(** A move whose destination is taken is not undone. The footprints
    overlap or touch and some cell that only the new footprint covers does
    not read empty: [moveObject] raises the overlap, and by then the cells
    that only the old footprint covers have been cleared; the cells that
    both cover and the registry are as before. *)
Theorem moveObject_blocked_clears_first
    (w : World.t) (objectID : WorldObjectID) (object : WorldObject.t)
    (newPosition : Geo.Coordinate) :
  World._isInitialized w = true → allocated w →
  JsMap.get objectID (World.objects w) = Some object →
  fits w newPosition (WorldObject.size object) →
  (∀ c, c ∈ footprint (WorldObject.position object) (WorldObject.size object)
        → inBounds w c) →
  0 ≤ overlapWidth (WorldObject.position object) newPosition
        (WorldObject.size object) →
  0 ≤ overlapHeight (WorldObject.position object) newPosition
        (WorldObject.size object) →
  (∃ c, c ∈ footprint newPosition (WorldObject.size object)
        ∧ (c ∉ footprint (WorldObject.position object)
                         (WorldObject.size object))
        ∧ cellAt w (WorldObject.layer object) c ≠ null) →
  ∃ c w',
    c ∈ footprint newPosition (WorldObject.size object)
    ∧ (c ∉ footprint (WorldObject.position object) (WorldObject.size object))
    ∧ cellAt w (WorldObject.layer object) c ≠ null
    ∧ World.moveObject objectID newPosition w
      = (Throw (ErrorOverlappingObject (WorldObject.id object)
                  (cellAt w (WorldObject.layer object) c)), w')
    ∧ World.objects w' = World.objects w
    ∧ (∀ c', c' ∈ footprint (WorldObject.position object)
                            (WorldObject.size object) →
             c' ∉ footprint newPosition (WorldObject.size object) →
         cellAt w' (WorldObject.layer object) c' = null)
    ∧ (∀ c', c' ∈ footprint (WorldObject.position object)
                            (WorldObject.size object) →
             c' ∈ footprint newPosition (WorldObject.size object) →
         cellAt w' (WorldObject.layer object) c'
         = cellAt w (WorldObject.layer object) c').
Proof. apply moveObject_blocked. Qed.

Lemma moveObject_blocked_clears_first_witness :
  cellAt twoBricksWorld GROUND (at_ 0 0) = occupant "brick/A"
  ∧ ∃ w', World.moveObject "brick/A" (at_ 1 0) twoBricksWorld
          = (Throw (ErrorOverlappingObject "brick/A" (occupant "brick/B")), w')
      ∧ cellAt w' GROUND (at_ 0 0) = null
      ∧ cellAt w' GROUND (at_ 1 0) = occupant "brick/B".
Proof.
  split; [reflexivity|].
  assert (Hal : allocated twoBricksWorld)
    by (apply (bool_decide_unpack _); vm_compute; reflexivity).
  assert (Hw : World.width twoBricksWorld = 10) by (vm_compute; reflexivity).
  assert (Hh : World.height twoBricksWorld = 10) by (vm_compute; reflexivity).
  destruct (moveObject_blocked_clears_first twoBricksWorld "brick/A"
              (WorldObject.init (Brick "A" (at_ 0 0))) (at_ 1 0))
    as (c & w' & HcB & HcA & Hc & Hmove & _ & Hnull & _).
  - reflexivity.
  - exact Hal.
  - vm_compute. reflexivity.
  - unfold fits. rewrite Hw, Hh. simpl. lia.
  - intros c Hc. apply elem_of_footprint in Hc. simpl in Hc.
    unfold inBounds. rewrite Hw, Hh. lia.
  - vm_compute. discriminate.
  - vm_compute. discriminate.
  - exists (at_ 1 0). rewrite !elem_of_footprint. simpl.
    split; [lia|]. split; [lia|]. vm_compute. discriminate.
  - apply elem_of_footprint in HcB. simpl in HcB.
    assert (c = at_ 1 0) as -> by (destruct c; simpl in *; f_equal; lia).
    exists w'. split; [exact Hmove|]. split.
    + apply Hnull; rewrite elem_of_footprint; simpl; lia.
    + assert (Hw' : w' = run (World.moveObject "brick/A" (at_ 1 0))
                             twoBricksWorld)
        by (unfold run; rewrite Hmove; reflexivity).
      rewrite Hw'. vm_compute. reflexivity.
Defined.

(** ** After dispose *)

Lemma restructureMap_add_without_row i l s p w :
  fits w p s → 0 < Geo.width s → 0 < Geo.height s →
  World._map w !! Geo.y p = None →
  World.restructureMap i l s None (Some p) w = (Throw TypeError, w).
Proof.
  intros Hfits Hw Hh Hrow. unfold World.restructureMap, bind, get.
  rewrite (fits_check _ _ _ Hfits). unfold forRange.
  rewrite (seqZ_cons (Geo.x p)) by lia. cbn [forEach]. unfold bind at 1.
  rewrite (seqZ_cons (Geo.y p)) by lia. cbn [forEach]. unfold bind at 1.
  assert (Hset : World.setMapCell (Geo.mkCoordinate (Geo.x p) (Geo.y p)) l
                   (Some i) w = (Throw TypeError, w)).
  { unfold World.setMapCell, bind, get. rewrite outOfBounds_false.
    - unfold World.readMap. cbn [Geo.x Geo.y]. rewrite Hrow. reflexivity.
    - destruct Hfits as (? & ? & ? & ?). unfold inBounds. simpl. lia. }
  rewrite Hset. reflexivity.
Qed.

Lemma placeObject_without_rows w object position :
  World._isInitialized w = true →
  JsMap.get (WorldObject.id object) (World.objects w) = Some object →
  fits w (default (WorldObject.position object) position)
         (WorldObject.size object) →
  0 < Geo.width (WorldObject.size object) →
  0 < Geo.height (WorldObject.size object) →
  World._map w = ∅ →
  World.placeObject (WorldObject.id object) position w = (Throw TypeError, w).
Proof.
  intros Hinit Hget Hfits Hw Hh Hmap.
  rewrite placeObject_registered by assumption. unfold bind.
  rewrite restructureMap_add_without_row; try assumption; [reflexivity|].
  rewrite Hmap. apply lookup_empty.
Qed.

(** [dispose] drops the buffer and [init] does not allocate it again. In
    a world that was disposed and then initialized anew, installing an
    object registers it, and returns true when the [init] of the object
    completes; placing the object on any footprint that fits the extent
    and has a cell then raises a TypeError: the row of its first cell is
    not there. *)
Theorem placeObject_after_dispose_raises
    (w : World.t) (gameSession : option GameSession.t)
    (object : WorldObject.t) (position : option Geo.Coordinate) :
  fits w (default (WorldObject.position object) position)
         (WorldObject.size object) →
  0 < Geo.width (WorldObject.size object) →
  0 < Geo.height (WorldObject.size object) →
  (initializable
     (World._gameSession (run (World.init gameSession) (World.dispose w)))
     object →
   result (World.installObject object)
     (run (World.init gameSession) (World.dispose w)) = Normal true)
  ∧ is_Some (JsMap.get (WorldObject.id object)
               (World.objects
                  (run (World.installObject object)
                     (run (World.init gameSession) (World.dispose w)))))
  ∧ World.placeObject (WorldObject.id object) position
      (run (World.installObject object)
           (run (World.init gameSession) (World.dispose w)))
    = (Throw TypeError,
       run (World.installObject object)
           (run (World.init gameSession) (World.dispose w))).
Proof.
  intros Hfits Hw Hh.
  set (w0 := run (World.init gameSession) (World.dispose w)).
  assert (Hinit0 : World._isInitialized w0 = true)
    by (destruct w, gameSession; reflexivity).
  assert (Hobjects0 : World.objects w0 = [])
    by (destruct w, gameSession; reflexivity).
  assert (Hmap0 : World._map w0 = ∅)
    by (destruct w, gameSession; reflexivity).
  assert (Hwidth0 : World.width w0 = World.width w)
    by (destruct w, gameSession; reflexivity).
  assert (Hheight0 : World.height w0 = World.height w)
    by (destruct w, gameSession; reflexivity).
  assert (Hnew : JsMap.get (WorldObject.id object) (World.objects w0) = None)
    by (rewrite Hobjects0; reflexivity).
  assert (Hplace : ∀ o,
    WorldObject.id o = WorldObject.id object →
    WorldObject.position o = WorldObject.position object →
    WorldObject.size o = WorldObject.size object →
    World.placeObject (WorldObject.id object) position
      (World.with_objects (JsMap.set (WorldObject.id object) o) w0)
    = (Throw TypeError,
       World.with_objects (JsMap.set (WorldObject.id object) o) w0)).
  { intros o Eid Eposition Esize. rewrite <- Eid at 1.
    apply placeObject_without_rows.
    - exact Hinit0.
    - rewrite Eid. cbn [World.objects World.with_objects].
      apply JsMap_get_set.
    - rewrite Eposition, Esize. unfold fits.
      change (World.width (World.with_objects _ w0)) with (World.width w0).
      change (World.height (World.with_objects _ w0)) with (World.height w0).
      rewrite Hwidth0, Hheight0. exact Hfits.
    - rewrite Esize. exact Hw.
    - rewrite Esize. exact Hh.
    - exact Hmap0. }
  unfold result, run. rewrite installObject_new by assumption.
  destruct (decide (initializable (World._gameSession w0) object))
    as [Hable|Hable]; cbn [fst snd].
  - split; [reflexivity|].
    split; [cbn [World.objects World.with_objects]; rewrite JsMap_get_set;
            eexists; reflexivity|].
    destruct (init_fields object) as (Eid & _ & Eposition & Esize & _).
    apply Hplace; assumption.
  - split; [intros H; contradiction|].
    split; [cbn [World.objects World.with_objects]; rewrite JsMap_get_set;
            eexists; reflexivity|].
    apply Hplace; reflexivity.
Qed.

Lemma placeObject_after_dispose_raises_witness :
  result (World.installObject (Brick "B" (at_ 5 5)))
    (run (World.init None) (World.dispose brickWorld)) = Normal true
  ∧ World.placeObject "brick/B" None
      (run (World.installObject (Brick "B" (at_ 5 5)))
           (run (World.init None) (World.dispose brickWorld)))
    = (Throw TypeError,
       run (World.installObject (Brick "B" (at_ 5 5)))
           (run (World.init None) (World.dispose brickWorld))).
Proof.
  destruct (placeObject_after_dispose_raises brickWorld None
              (Brick "B" (at_ 5 5)) None) as (Hinstall & _ & Hplace).
  - assert (Hw : World.width brickWorld = 10) by (vm_compute; reflexivity).
    assert (Hh : World.height brickWorld = 10) by (vm_compute; reflexivity).
    unfold fits. rewrite Hw, Hh. simpl. lia.
  - simpl. lia.
  - simpl. lia.
  - split; [apply Hinstall; right; left; discriminate|exact Hplace].
Defined.

(** ** What reaches the event center *)

Lemma emitted_refl i w : emitted i w w.
Proof.
  exists []. split; [|constructor].
  destruct (events w) as [old|]; simpl; [rewrite app_nil_r|]; reflexivity.
Qed.

Lemma emitted_same i w w' : events w' = events w → emitted i w w'.
Proof.
  intros He. exists []. split; [|constructor]. rewrite He.
  destruct (events w) as [old|]; simpl; [rewrite app_nil_r|]; reflexivity.
Qed.

Lemma emitted_session i w w' :
  emitted i w w' →
  is_Some (World._gameSession w) → is_Some (World._gameSession w').
Proof.
  intros (new & He & _) [g Hg]. unfold events in He. rewrite Hg in He.
  destruct (World._gameSession w') as [g'|]; [eexists; reflexivity|].
  discriminate He.
Qed.

Lemma initializable_session session session' object :
  (is_Some session → is_Some session') →
  initializable session object → initializable session' object.
Proof.
  intros Hs [H|[H|H]]; [left|right; left|right; right; apply Hs]; exact H.
Qed.

Lemma emitted_trans i w1 w2 w3 :
  emitted i w1 w2 → emitted i w2 w3 → emitted i w1 w3.
Proof.
  intros (n1 & H1 & F1) (n2 & H2 & F2). exists (n1 ++ n2).
  split; [|apply Forall_app; split; assumption].
  rewrite H2, H1. destruct (events w1) as [old|]; simpl;
    [rewrite app_assoc|]; reflexivity.
Qed.

Lemma setMapCell_emitted i c l w :
  emitted i w (World.setMapCell c l (Some i) w).2.
Proof.
  destruct (decide (inBounds w c)) as [Hin|Hout].
  2: { rewrite setMapCell_outOfBounds by assumption. apply emitted_refl. }
  destruct (World._map w !! Geo.y c) as [r|] eqn:Hr.
  - assert (Hrow : is_Some (World._map w !! Geo.y c)) by (rewrite Hr; eauto).
    destruct (decide (cellAt w l c = null)) as [Hfree|Hocc].
    + destruct (setMapCell_free w c l i Hin Hrow Hfree)
        as (w' & -> & _ & _ & _ & Hev). cbn [snd].
      destruct (World._isInitialized w); [|apply emitted_same, Hev].
      unfold EventCenter.objectIntersect in Hev.
      destruct (intersected w l c (seqZ 0 WorldObjectLayerCount))
        as [|v vs] eqn:Hint; simpl in Hev.
      * apply emitted_same. rewrite Hev. destruct (events w); reflexivity.
      * exists [INTERSECT i (v :: vs)]. split; [exact Hev|].
        repeat constructor. exists (v :: vs). split; [reflexivity|discriminate].
    + rewrite setMapCell_occupied by assumption. apply emitted_refl.
  - unfold World.setMapCell, bind, get. rewrite (outOfBounds_false _ _ Hin).
    unfold World.readMap. rewrite Hr. apply emitted_refl.
Qed.

Lemma setMapCell_clear_silent c l w :
  events (World.setMapCell c l None w).2 = events w.
Proof.
  destruct (decide (inBounds w c)) as [Hin|Hout].
  2: { rewrite setMapCell_outOfBounds by assumption. reflexivity. }
  destruct (World._map w !! Geo.y c) as [r|] eqn:Hr.
  - assert (Hrow : is_Some (World._map w !! Geo.y c)) by (rewrite Hr; eauto).
    destruct (setMapCell_clear w c l Hin Hrow) as (w' & -> & _ & Hgs & _).
    unfold events. cbn [snd]. rewrite Hgs. reflexivity.
  - unfold World.setMapCell, bind, get. rewrite (outOfBounds_false _ _ Hin).
    unfold World.writeMap. rewrite Hr. reflexivity.
Qed.

Lemma bind_emitted {A B} i (m : Eff World.t A) (k : A → Eff World.t B) w :
  emitted i w (m w).2 → (∀ a w1, emitted i w1 (k a w1).2) →
  emitted i w (bind m k w).2.
Proof.
  intros Hm Hk. unfold bind. destruct (m w) as [[a|e] w1]; simpl in *.
  - eapply emitted_trans; [eassumption|apply Hk].
  - assumption.
Qed.

Lemma forEach_emitted {A} i (body : A → Eff World.t unit) (l : list A) :
  (∀ a w, emitted i w (body a w).2) → ∀ w, emitted i w (forEach l body w).2.
Proof.
  intros Hbody. induction l as [|a l IH]; intros w; simpl.
  - apply emitted_refl.
  - apply bind_emitted; [apply Hbody|intros _; exact IH].
Qed.

Lemma strip_emitted i x0 x1 y0 y1 l v w :
  v = None ∨ v = Some i →
  emitted i w (forRange x0 x1 (λ x, forRange y0 y1 (λ y,
                 World.setMapCell (Geo.mkCoordinate x y) l v)) w).2.
Proof.
  intros Hv. unfold forRange. apply forEach_emitted. intros x w1.
  apply forEach_emitted. intros y w2. destruct Hv as [-> | ->].
  - apply emitted_same, setMapCell_clear_silent.
  - apply setMapCell_emitted.
Qed.

Lemma restructureMap_emitted i l s old new w :
  emitted i w (World.restructureMap i l s old new w).2.
Proof.
  unfold World.restructureMap. apply bind_emitted; [apply emitted_refl|].
  intros w0 w1. destruct old as [old|], new as [new|];
    try apply emitted_refl;
    try (match goal with
         | |- context [if ?b then _ else _] => destruct b
         end);
    try apply emitted_refl;
    repeat (apply bind_emitted; [apply strip_emitted; auto|intros ? ?]);
    apply emitted_refl.
Qed.

Lemma restructureMap_remove_silent i l s old w :
  events (World.restructureMap i l s (Some old) None w).2 = events w.
Proof.
  unfold World.restructureMap, bind, get. unfold forRange.
  generalize (seqZ (Geo.x old) (Geo.x old + Geo.width s - Geo.x old)).
  intros xs.
  assert (H : ∀ w0, events (forEach xs (λ x,
              forEach (seqZ (Geo.y old)
                         (Geo.y old + Geo.height s - Geo.y old))
                (λ y, World.setMapCell (Geo.mkCoordinate x y) l None)) w0).2
              = events w0).
  { induction xs as [|x xs IHx]; intros w0; simpl; [reflexivity|].
    unfold bind.
    assert (Hin : ∀ ys w1, events (forEach ys
                (λ y, World.setMapCell (Geo.mkCoordinate x y) l None) w1).2
                = events w1).
    { induction ys as [|y ys IHy]; intros w1; simpl; [reflexivity|].
      unfold bind.
      pose proof (setMapCell_clear_silent (Geo.mkCoordinate x y) l w1) as Hc.
      destruct (World.setMapCell _ l None w1) as [[[]|e] w2]; simpl in *;
        [rewrite IHy|]; exact Hc. }
    specialize (Hin (seqZ (Geo.y old) (Geo.y old + Geo.height s - Geo.y old))
                  w0).
    destruct (forEach _ _ w0) as [[[]|e] w1]; simpl in *;
      [rewrite IHx|]; exact Hin. }
  specialize (H w). destruct (forEach xs _ w) as [[[]|e] w1]; exact H.
Qed.

(** The event center only ever sees more. Installing, uninstalling and
    displacing send nothing. Placing and moving an object append to what
    was sent before, when a game session is there, and append only
    intersect events that name this object as initiator and at least one
    other identity; they never send an event with no other identity. *)
Theorem operations_only_append_events
    (w : World.t) (object : WorldObject.t) (objectID : WorldObjectID)
    (position : option Geo.Coordinate) (newPosition : Geo.Coordinate) :
  events (run (World.installObject object) w) = events w
  ∧ events (run (World.uninstallObject objectID) w) = events w
  ∧ events (run (World.displaceObject objectID) w) = events w
  ∧ (∀ registered, JsMap.get objectID (World.objects w) = Some registered →
       emitted (WorldObject.id registered) w
         (run (World.placeObject objectID position) w)
       ∧ emitted (WorldObject.id registered) w
           (run (World.moveObject objectID newPosition) w))
  ∧ (JsMap.get objectID (World.objects w) = None →
       events (run (World.placeObject objectID position) w) = events w
       ∧ events (run (World.moveObject objectID newPosition) w) = events w).
Proof.
  split; [|split; [|split; [|split]]].
  - assert (Hio : ∀ k w0, events (World.initObject k w0).2 = events w0).
    { intros k w0. unfold World.initObject, bind, get, modify, ret, throw.
      destruct (JsMap.get _ _); [|reflexivity].
      destruct (WorldObject.isInitialized _); [reflexivity|].
      destruct (World.objectInit _ _); reflexivity. }
    unfold run, World.installObject, bind, get, modify, ret.
    destruct (negb _); [reflexivity|].
    destruct (JsMap.has _ _); [reflexivity|].
    specialize (Hio (WorldObject.id object)
                  (World.with_objects
                     (JsMap.set (WorldObject.id object) object) w)).
    destruct (World.initObject _ _) as [[[]|e] w1]; exact Hio.
  - unfold run, World.uninstallObject, bind, get, modify, ret.
    destruct (negb _); [reflexivity|]. destruct (JsMap.get _ _); reflexivity.
  - unfold run, World.displaceObject. unfold bind at 1, get.
    destruct (negb _); [reflexivity|].
    destruct (JsMap.get _ _) as [o|]; [|reflexivity].
    pose proof (restructureMap_remove_silent (WorldObject.id o)
                  (WorldObject.layer o) (WorldObject.size o)
                  (WorldObject.position o) w) as H.
    unfold bind.
    destruct (World.restructureMap _ _ _ _ _ w) as [[[]|e] w1]; exact H.
  - intros registered Hget. split.
    + unfold run, World.placeObject. unfold bind at 1, get.
      destruct (negb _); [apply emitted_refl|]. rewrite Hget.
      apply bind_emitted; [apply emitted_same; reflexivity|]. intros _ w1.
      apply bind_emitted; [apply restructureMap_emitted|]. intros ok w2.
      destruct (negb ok); [apply emitted_refl|].
      destruct (WorldObject.placed _ _);
        [apply emitted_same; reflexivity|apply emitted_refl].
    + unfold run, World.moveObject. unfold bind at 1, get.
      destruct (negb _); [apply emitted_refl|]. rewrite Hget.
      apply bind_emitted; [apply restructureMap_emitted|]. intros ok w2.
      destruct (negb ok); apply emitted_refl.
  - intros Hget. unfold run, World.placeObject, World.moveObject, bind, get.
    destruct (negb _); [split; reflexivity|]. rewrite Hget. split; reflexivity.
Qed.

(** * The move of a player *)

Lemma step_touches position f s :
  1 ≤ Geo.width s → 1 ≤ Geo.height s →
  0 ≤ overlapWidth position (Player.destination position f) s
  ∧ 0 ≤ overlapHeight position (Player.destination position f) s.
Proof.
  intros Hw Hh.
  unfold overlapWidth, overlapHeight, overlapX, overlapY, Player.destination,
    Player.MOVEMENT_SPEED.
  destruct f; simpl; lia.
Qed.

Lemma positionNext_get objectID newPosition w object :
  JsMap.get objectID (World.objects w) = Some object →
  JsMap.get objectID (World.objects (Player.positionNext objectID newPosition w))
  = Some {| WorldObject.id := WorldObject.id object;
            WorldObject.kind := WorldObject.kind object;
            WorldObject.layer := WorldObject.layer object;
            WorldObject.position := newPosition;
            WorldObject.size := WorldObject.size object;
            WorldObject.isInitialized := WorldObject.isInitialized object |}.
Proof.
  intros Hget. unfold Player.positionNext. cbn [World.objects World.with_objects].
  rewrite Hget. apply JsMap_get_set.
Qed.

Lemma JsMap_keys_set_present {V} k (v v' : V) (m : JsMap.t V) :
  JsMap.get k m = Some v → JsMap.keys (JsMap.set k v' m) = JsMap.keys m.
Proof.
  unfold JsMap.keys, JsMap.t in *.
  induction m as [|[k0 v0] m IH]; simpl; [discriminate|].
  destruct (decide (k0 = k)) as [->|Hne]; simpl; [reflexivity|].
  intros Hget. f_equal. apply IH, Hget.
Qed.

(** What [move] never does.  Whatever the world, the player and the
    direction, the call completes normally: what [moveObject] raises is
    caught.  It keeps the identity of the player; it turns the player or
    changes the world, never both in one call, and a call in a direction
    that the player does not face changes no world.  It keeps the extent
    and the rows of the world, its initialization, the identities of the
    registry with their order, and the entry of every identity but the
    one of the player, whose entry changes in nothing but the position. *)
Theorem Player_move_never_raises
    (w : World.t) (p : Player.t) (f : PlayerFacing) :
  ∃ w' p',
    Player.move f (w, p) = (Normal tt, (w', p'))
    ∧ Player.id p' = Player.id p
    ∧ Player._world p' = Player._world p
    ∧ (p' = p ∨ (w' = w ∧ p' = Player.with_facing f p))
    ∧ (Player.facing p ≠ f → w' = w)
    ∧ shaped w w'
    ∧ World._isInitialized w' = World._isInitialized w
    ∧ JsMap.keys (World.objects w') = JsMap.keys (World.objects w)
    ∧ (∀ other, other ≠ Player.id p →
         JsMap.get other (World.objects w')
         = JsMap.get other (World.objects w))
    ∧ (∀ object, JsMap.get (Player.id p) (World.objects w) = Some object →
         ∃ object',
           JsMap.get (Player.id p) (World.objects w') = Some object'
           ∧ WorldObject.id object' = WorldObject.id object
           ∧ WorldObject.kind object' = WorldObject.kind object
           ∧ WorldObject.layer object' = WorldObject.layer object
           ∧ WorldObject.size object' = WorldObject.size object
           ∧ WorldObject.isInitialized object'
             = WorldObject.isInitialized object).
Proof.
  assert (Hsame : ∀ p',
    Player.id p' = Player.id p → Player._world p' = Player._world p →
    p' = p ∨ (w = w ∧ p' = Player.with_facing f p) →
    ∃ w' p'',
      (Normal tt, (w, p')) = (Normal tt, (w', p''))
      ∧ Player.id p'' = Player.id p
      ∧ Player._world p'' = Player._world p
      ∧ (p'' = p ∨ (w' = w ∧ p'' = Player.with_facing f p))
      ∧ (Player.facing p ≠ f → w' = w)
      ∧ shaped w w'
      ∧ World._isInitialized w' = World._isInitialized w
      ∧ JsMap.keys (World.objects w') = JsMap.keys (World.objects w)
      ∧ (∀ other, other ≠ Player.id p →
           JsMap.get other (World.objects w')
           = JsMap.get other (World.objects w))
      ∧ (∀ object, JsMap.get (Player.id p) (World.objects w) = Some object →
           ∃ object',
             JsMap.get (Player.id p) (World.objects w') = Some object'
             ∧ WorldObject.id object' = WorldObject.id object
             ∧ WorldObject.kind object' = WorldObject.kind object
             ∧ WorldObject.layer object' = WorldObject.layer object
             ∧ WorldObject.size object' = WorldObject.size object
             ∧ WorldObject.isInitialized object'
               = WorldObject.isInitialized object)).
  { intros p' Hid Hw Hp. exists w, p'.
    split; [reflexivity|]. split; [exact Hid|]. split; [exact Hw|].
    split; [exact Hp|]. split; [intros _; reflexivity|].
    split; [apply shaped_refl|]. split; [reflexivity|].
    split; [reflexivity|]. split; [reflexivity|].
    intros object Hget. exists object. repeat split. exact Hget. }
  unfold Player.move.
  destruct (Player._world p) eqn:Hworld; cbn [negb];
    [|apply Hsame; [reflexivity|exact Hworld|left; reflexivity]].
  destruct (decide (Player.facing p ≠ f)) as [Hf|Hf].
  { apply Hsame; [reflexivity|exact Hworld|right; split; reflexivity]. }
  destruct (JsMap.get (Player.id p) (World.objects w)) as [object|] eqn:Hget;
    [|apply Hsame; [reflexivity|exact Hworld|left; reflexivity]].
  pose proof (moveObject_stable w (Player.id p)
                (Player.destination (WorldObject.position object) f)) as Hst.
  destruct (World.moveObject _ _ w) as [[[newPosition|]|e] w1];
    cbn [snd] in Hst.
  - exists (Player.positionNext (Player.id p) newPosition w1), p.
    assert (Hget1 : JsMap.get (Player.id p) (World.objects w1) = Some object)
      by (rewrite (stable_objects _ _ Hst); exact Hget).
    split; [reflexivity|]. split; [reflexivity|]. split; [exact Hworld|].
    split; [left; reflexivity|]. split; [intros H; contradiction|].
    split; [|split; [|split; [|split]]].
    + apply (shaped_trans _ w1); [apply stable_shaped, Hst|].
      unfold Player.positionNext. destruct w1. constructor; auto.
    + rewrite <- (stable_isInitialized _ _ Hst).
      unfold Player.positionNext. destruct w1. reflexivity.
    + rewrite <- (stable_objects _ _ Hst). unfold Player.positionNext.
      cbn [World.objects World.with_objects]. rewrite Hget1.
      eapply JsMap_keys_set_present. exact Hget1.
    + intros other Hne. rewrite <- (stable_objects _ _ Hst).
      unfold Player.positionNext. cbn [World.objects World.with_objects].
      rewrite Hget1. apply JsMap_get_set_ne. congruence.
    + intros object0 Hget0.
      assert (object0 = object) as -> by congruence. eexists.
      split; [apply positionNext_get; exact Hget1|]. repeat split.
  - exists w1, p.
    split; [reflexivity|]. split; [reflexivity|]. split; [exact Hworld|].
    split; [left; reflexivity|]. split; [intros H; contradiction|].
    split; [apply stable_shaped, Hst|].
    split; [apply Hst|]. rewrite (stable_objects _ _ Hst).
    split; [reflexivity|]. split; [reflexivity|].
    intros object0 Hget0.
    assert (object0 = object) as -> by congruence.
    exists object. repeat split. exact Hget.
  - exists w1, p.
    split; [reflexivity|]. split; [reflexivity|]. split; [exact Hworld|].
    split; [left; reflexivity|]. split; [intros H; contradiction|].
    split; [apply stable_shaped, Hst|].
    split; [apply Hst|]. rewrite (stable_objects _ _ Hst).
    split; [reflexivity|]. split; [reflexivity|].
    intros object0 Hget0.
    assert (object0 = object) as -> by congruence.
    exists object. repeat split. exact Hget.
Qed.



(** A step that would leave the extent changes nothing: the world and
    the player are as before. *)
Theorem Player_move_stops_at_the_edge
    (w : World.t) (p : Player.t) (object : WorldObject.t) :
  Player._world p = true →
  JsMap.get (Player.id p) (World.objects w) = Some object →
  ¬ fits w (Player.destination (WorldObject.position object) (Player.facing p))
           (WorldObject.size object) →
  Player.move (Player.facing p) (w, p) = (Normal tt, (w, p)).
Proof.
  intros Hworld Hget Hout. unfold Player.move. rewrite Hworld. cbn [negb].
  rewrite decide_False by (intros H; apply H; reflexivity).
  rewrite Hget. cbv zeta.
  rewrite (moveObject_rejects _ _ _ _ Hget Hout). reflexivity.
Qed.

Lemma Player_move_stops_at_the_edge_witness :
  Player.move UP (playerWorld.1, Player.with_facing UP playerWorld.2)
  = (Normal tt, (playerWorld.1, Player.with_facing UP playerWorld.2)).
Proof.
  apply (Player_move_stops_at_the_edge playerWorld.1
           (Player.with_facing UP playerWorld.2)
           (WorldObject.mk "player/P" "player" GROUND (at_ 0 0)
              (Geo.mkSize 1 1) true)).
  - reflexivity.
  - vm_compute. reflexivity.
  - intros (_ & Hy & _). vm_compute in Hy. apply Hy. reflexivity.
Defined.

(** A step onto a cell that is taken erases the player. [moveObject]
    raises the overlap after it has cleared the cells that the player
    leaves, [move] catches the error and completes normally, and the
    stored position stays: the cells left behind read empty although the
    player is still registered at them. *)
Theorem Player_move_into_an_obstacle
    (w : World.t) (p : Player.t) (object : WorldObject.t) :
  Player._world p = true →
  World._isInitialized w = true → allocated w →
  JsMap.get (Player.id p) (World.objects w) = Some object →
  1 ≤ Geo.width (WorldObject.size object) →
  1 ≤ Geo.height (WorldObject.size object) →
  fits w (WorldObject.position object) (WorldObject.size object) →
  fits w (Player.destination (WorldObject.position object) (Player.facing p))
         (WorldObject.size object) →
  (∃ c, c ∈ footprint
              (Player.destination (WorldObject.position object)
                 (Player.facing p))
              (WorldObject.size object)
        ∧ (c ∉ footprint (WorldObject.position object)
                         (WorldObject.size object))
        ∧ cellAt w (WorldObject.layer object) c ≠ null) →
  ∃ w',
    Player.move (Player.facing p) (w, p) = (Normal tt, (w', p))
    ∧ World.objects w' = World.objects w
    ∧ (∀ c, c ∈ footprint (WorldObject.position object)
                          (WorldObject.size object) →
            c ∉ footprint
                  (Player.destination (WorldObject.position object)
                     (Player.facing p))
                  (WorldObject.size object) →
         cellAt w' (WorldObject.layer object) c = null).
Proof.
  intros Hworld Hinit Hal Hget Hw Hh Hfits Hdest Htaken.
  destruct (step_touches (WorldObject.position object) (Player.facing p)
              (WorldObject.size object) Hw Hh) as [How Hoh].
  destruct (moveObject_blocked w (Player.id p) object
              (Player.destination (WorldObject.position object)
                 (Player.facing p)) Hinit Hal Hget Hdest)
    as (c & w' & _ & _ & _ & Hmove & Hobjects & Hnull & _);
    try assumption.
  { intros c Hc. exact (fits_inBounds _ _ _ _ Hfits Hc). }
  exists w'. split; [|split; assumption].
  unfold Player.move. rewrite Hworld. cbn [negb].
  rewrite decide_False by (intros H; apply H; reflexivity).
  rewrite Hget. cbv zeta. rewrite Hmove. reflexivity.
Qed.

Lemma Player_move_into_an_obstacle_witness :
  cellAt playerWorld.1 GROUND (at_ 0 0) = occupant "player/P"
  ∧ cellAt playerWorld.1 GROUND (at_ 1 0) = occupant "brick/B"
  ∧ ∃ w', Player.move RIGHT playerWorld = (Normal tt, (w', playerWorld.2))
      ∧ WorldObject.position <$> JsMap.get "player/P" (World.objects w')
        = Some (at_ 0 0)
      ∧ cellAt w' GROUND (at_ 0 0) = null.
Proof.
  split; [reflexivity|]. split; [reflexivity|].
  set (w := playerWorld.1).
  set (object := WorldObject.mk "player/P" "player" GROUND (at_ 0 0)
                   (Geo.mkSize 1 1) true).
  assert (Hal : allocated w)
    by (apply (bool_decide_unpack _); vm_compute; reflexivity).
  assert (Hw : World.width w = 10) by (vm_compute; reflexivity).
  assert (Hh : World.height w = 10) by (vm_compute; reflexivity).
  destruct (Player_move_into_an_obstacle w playerWorld.2 object)
    as (w' & Hmove & Hobjects & Hnull).
  - reflexivity.
  - reflexivity.
  - exact Hal.
  - vm_compute. reflexivity.
  - simpl. lia.
  - simpl. lia.
  - vm_compute. repeat split; discriminate.
  - vm_compute. repeat split; discriminate.
  - exists (at_ 1 0). rewrite !elem_of_footprint.
    unfold object, Player.destination, Player.MOVEMENT_SPEED. simpl.
    split; [lia|]. split; [lia|]. vm_compute. discriminate.
  - exists w'. split; [exact Hmove|]. split.
    + rewrite Hobjects. vm_compute. reflexivity.
    + apply (Hnull (at_ 0 0)); rewrite elem_of_footprint;
        unfold object, Player.destination, Player.MOVEMENT_SPEED;
        simpl; lia.
Defined.

(** * The objects of a region *)









(** * init and the objects given to the constructor *)

Lemma JsMap_get_app_notin {V} k (m1 m2 : JsMap.t V) :
  k ∉ m1.*1 → JsMap.get k (m1 ++ m2) = JsMap.get k m2.
Proof.
  unfold JsMap.t in *. induction m1 as [|[k1 v1] m1 IH]; intros Hk; simpl.
  - reflexivity.
  - rewrite fmap_cons, not_elem_of_cons in Hk. destruct Hk as [Hne Hk].
    simpl in Hne. rewrite decide_False by congruence. apply IH, Hk.
Qed.

Lemma JsMap_set_app_notin {V} k (v : V) (m1 m2 : JsMap.t V) :
  k ∉ m1.*1 → JsMap.set k v (m1 ++ m2) = m1 ++ JsMap.set k v m2.
Proof.
  unfold JsMap.t in *. induction m1 as [|[k1 v1] m1 IH]; intros Hk; simpl.
  - reflexivity.
  - rewrite fmap_cons, not_elem_of_cons in Hk. destruct Hk as [Hne Hk].
    simpl in Hne. rewrite decide_False by congruence. f_equal. apply IH, Hk.
Qed.

Lemma JsMap_set_fresh_end {V} k (v : V) (m : JsMap.t V) :
  k ∉ m.*1 → JsMap.set k v m = m ++ [(k, v)].
Proof.
  intros Hk. rewrite <- (app_nil_r m) at 1.
  rewrite JsMap_set_app_notin by assumption. reflexivity.
Qed.

(** The registry that the constructor builds from objects of distinct
    identities holds them in the order given. *)
Lemma new_objects i width height os :
  NoDup (WorldObject.id <$> os) →
  World.objects (World.new (World.mkProps i width height (Some os)))
  = entry <$> os.
Proof.
  intros Hnd.
  change (World.objects (World.new (World.mkProps i width height (Some os))))
    with (foldl (λ m o, JsMap.set (WorldObject.id o) o m) [] os).
  assert (H : ∀ acc : JsMap.t WorldObject.t,
    (∀ o, o ∈ os → WorldObject.id o ∉ acc.*1) →
    foldl (λ m o, JsMap.set (WorldObject.id o) o m) acc os = acc ++ (entry <$> os)).
  { induction os as [|o os IH]; intros acc Hacc; simpl.
    - rewrite app_nil_r. reflexivity.
    - rewrite fmap_cons in Hnd. apply NoDup_cons in Hnd as [Ho Hnd].
      rewrite JsMap_set_fresh_end by (apply Hacc; left).
      rewrite IH; [rewrite <- app_assoc; reflexivity|assumption|].
      intros o' Ho'. rewrite fmap_app, elem_of_app. intros [Hin|Hin].
      + eapply Hacc; [right; exact Ho'|exact Hin].
      + simpl in Hin. apply list_elem_of_singleton in Hin.
        apply Ho. rewrite <- Hin. apply list_elem_of_fmap. eauto. }
  rewrite (H []); [reflexivity|]. intros o _ Hin. inversion Hin.
Qed.

(** Placing an initialized object at its stored position, on cells that
    read [null]: nothing but the cells of the footprint changes. *)
Lemma placeObject_at_rest w object :
  World._isInitialized w = true → allocated w →
  JsMap.get (WorldObject.id object) (World.objects w) = Some object →
  WorldObject.isInitialized object = true →
  fits w (WorldObject.position object) (WorldObject.size object) →
  (∀ c, c ∈ footprint (WorldObject.position object) (WorldObject.size object) →
        cellAt w (WorldObject.layer object) c = null) →
  ∃ w', World.placeObject (WorldObject.id object) None w
        = (Normal (Some (WorldObject.position object)), w')
    ∧ stable w w'
    ∧ onGrid w' object
    ∧ (∀ row col, (row, col) ∉ addresses object →
         slot w' row col = slot w row col)
    ∧ (is_Some (World._gameSession w) → is_Some (World._gameSession w')).
Proof.
  intros Hinit Hal Hget Hobj Hfits Hfree.
  destruct (restructureMap_add_free (WorldObject.id object)
              (WorldObject.layer object) (WorldObject.size object)
              _ w Hal Hfits Hfree) as (w1 & Hr & Hst & Hid & Hframe).
  exists w1. split; [|split; [exact Hst|split; [exact Hid|split]]];
    [| |apply (emitted_session (WorldObject.id object));
        pose proof (restructureMap_emitted (WorldObject.id object)
                      (WorldObject.layer object) (WorldObject.size object)
                      None (Some (WorldObject.position object)) w) as He;
        rewrite Hr in He; exact He].
  - rewrite placeObject_registered by assumption.
    unfold bind at 1. cbn [default]. rewrite Hr. cbn [negb].
    rewrite WorldObject_placed_same by assumption.
    unfold bind, modify, ret.
    rewrite with_objects_same; [reflexivity|].
    rewrite (stable_objects _ _ Hst), Hget. apply JsMap_set_same, Hget.
  - intros row col Hout. apply Hframe. intros c Hc Heq. apply Hout.
    unfold addresses. apply list_elem_of_fmap. exists c. split; assumption.
Qed.

Lemma initObject_registered w pre o post :
  WorldObject.id o ∉ pre.*1 →
  World.objects w = pre ++ entry o :: post →
  initializable (World._gameSession w) o →
  World.initObject (WorldObject.id o) w
  = (Normal tt,
     World.with_objects (λ _, pre ++ entry (WorldObject.init o) :: post) w).
Proof.
  intros Hpre Hobjects Hable. unfold World.initObject, bind, get.
  rewrite Hobjects, JsMap_get_app_notin by assumption.
  unfold entry at 1. cbn [JsMap.get]. rewrite decide_True by reflexivity.
  destruct (WorldObject.isInitialized o) eqn:Ei.
  - unfold ret. rewrite init_initialized by assumption.
    rewrite with_objects_same; [reflexivity|]. symmetry. exact Hobjects.
  - rewrite objectInit_able by assumption. unfold modify. f_equal.
    destruct w. unfold World.with_objects.
    cbn [World.objects World.id World.width World.height World._gameSession
         World._isInitialized World._map] in *. subst. f_equal.
    rewrite JsMap_set_app_notin by assumption. f_equal.
    unfold entry. cbn [JsMap.set]. rewrite decide_True by reflexivity.
    destruct (init_fields o) as (-> & _). reflexivity.
Qed.

Lemma stable_fits w w' p s : stable w w' → fits w p s → fits w' p s.
Proof.
  intros Hst. unfold fits.
  rewrite (stable_width _ _ Hst), (stable_height _ _ Hst). trivial.
Qed.

Lemma with_objects_stable_cells f w :
  World._isInitialized (World.with_objects f w) = World._isInitialized w
  ∧ World.width (World.with_objects f w) = World.width w
  ∧ World.height (World.with_objects f w) = World.height w
  ∧ World.id (World.with_objects f w) = World.id w
  ∧ World._map (World.with_objects f w) = World._map w
  ∧ World.objects (World.with_objects f w) = f (World.objects w).
Proof. destruct w. repeat split. Qed.

(** The loop of [init], after the objects [done] and before the objects
    [todo]. *)
Lemma init_loop (todo done : list WorldObject.t) w :
  NoDup (WorldObject.id <$> done ++ todo) →
  (∀ o, o ∈ done ++ todo → initializable (World._gameSession w) o) →
  (∀ o, o ∈ done ++ todo →
     fits w (WorldObject.position o) (WorldObject.size o)) →
  (∀ o1 o2, o1 ∈ done ++ todo → o2 ∈ done ++ todo →
     WorldObject.id o1 ≠ WorldObject.id o2 →
     ∀ a, a ∈ addresses o1 → a ∉ addresses o2) →
  World._isInitialized w = true → allocated w →
  World.objects w
  = (entry <$> (WorldObject.init <$> done)) ++ (entry <$> todo) →
  (∀ o, o ∈ done → onGrid w o) →
  (∀ row col,
     0 ≤ row < World.height w →
     0 ≤ col < World.width w * WorldObjectLayerCount →
     (∀ o, o ∈ done → (row, col) ∉ addresses o) →
     slot w row col = null) →
  ∃ w',
    forEach (WorldObject.id <$> todo)
      (λ objectID,
         World.initObject objectID >>
         World.placeObject objectID None >>
         ret tt)%eff w
    = (Normal tt, w')
    ∧ World._isInitialized w' = true
    ∧ World.width w' = World.width w
    ∧ World.height w' = World.height w
    ∧ World.objects w' = entry <$> (WorldObject.init <$> done ++ todo)
    ∧ (∀ o, o ∈ done ++ todo → onGrid w' o)
    ∧ (∀ row col,
         0 ≤ row < World.height w →
         0 ≤ col < World.width w * WorldObjectLayerCount →
         (∀ o, o ∈ done ++ todo → (row, col) ∉ addresses o) →
         slot w' row col = null).
Proof.
  revert done w. induction todo as [|o todo IH];
    intros done w Hnd Hable Hfits Hapart Hinit Hal Hobjects Hgrid Hnull.
  - exists w. rewrite app_nil_r in *.
    repeat split; try assumption; reflexivity.
  - assert (Ho : o ∈ done ++ o :: todo)
      by (apply elem_of_app; right; left).
    assert (Hfresh : WorldObject.id o
                     ∉ (entry <$> (WorldObject.init <$> done)).*1).
    { rewrite fmap_app, fmap_cons in Hnd.
      apply NoDup_app in Hnd as (_ & Hnd & _).
      intros Hin. apply (Hnd (WorldObject.id o)); [|left].
      rewrite <- !list_fmap_compose in Hin.
      apply list_elem_of_fmap in Hin as (o' & Heq & Hin).
      apply list_elem_of_fmap. exists o'. split; [|exact Hin].
      rewrite Heq. simpl. apply init_fields. }
    rewrite fmap_cons in Hobjects.
    pose proof (initObject_registered w _ o _ Hfresh Hobjects (Hable o Ho))
      as Hio.
    set (w1 := World.with_objects _ w) in Hio.
    destruct (with_objects_stable_cells
                (λ _, (entry <$> (WorldObject.init <$> done))
                      ++ entry (WorldObject.init o) :: (entry <$> todo)) w)
      as (Hi1 & Hw1 & Hh1 & _ & Hm1 & Ho1).
    fold w1 in Hi1, Hw1, Hh1, Hm1, Ho1.
    assert (Hslot1 : ∀ row col, slot w1 row col = slot w row col)
      by (intros; unfold slot; rewrite Hm1; reflexivity).
    destruct (init_fields o) as (Eid & Elayer & Eposition & Esize & Einit).
    assert (Hs1 : World._gameSession w1 = World._gameSession w)
      by (destruct w; reflexivity).
    destruct (placeObject_at_rest w1 (WorldObject.init o))
      as (w2 & Hp & Hst & Hon & Hframe & Hsession).
    + rewrite Hi1. exact Hinit.
    + intros row Hrow. rewrite Hh1 in Hrow. destruct (Hal row Hrow) as [Hr Hc].
      split; [rewrite Hm1; exact Hr|].
      intros col Hcol. rewrite Hw1 in Hcol. rewrite Hslot1. apply Hc, Hcol.
    + rewrite Ho1, Eid, JsMap_get_app_notin by assumption.
      unfold entry at 1. cbn [JsMap.get]. rewrite Eid.
      rewrite decide_True by reflexivity. reflexivity.
    + exact Einit.
    + rewrite Eposition, Esize. unfold fits. rewrite Hw1, Hh1.
      apply Hfits, Ho.
    + rewrite Eposition, Esize, Elayer. intros c Hc. unfold cellAt.
      rewrite Hslot1.
      pose proof (fits_inBounds _ _ _ _ (Hfits o Ho) Hc) as [Hx Hy].
      apply Hnull; [lia| |].
      * unfold WorldObjectLayerCount.
        destruct (WorldObject.layer o); simpl; lia.
      * intros o' Ho'. apply (Hapart o o'); [exact Ho| | |].
        -- apply elem_of_app; left; exact Ho'.
        -- intros Heq. rewrite fmap_app, fmap_cons in Hnd.
           apply NoDup_app in Hnd as (_ & Hnd & _).
           apply (Hnd (WorldObject.id o')); [|rewrite <- Heq; left].
           apply list_elem_of_fmap. eauto.
        -- unfold addresses. apply list_elem_of_fmap. eauto.
    + assert (Haddr : addresses (WorldObject.init o) = addresses o)
        by (unfold addresses; rewrite Elayer, Eposition, Esize; reflexivity).
      rewrite Haddr in Hframe. rewrite Eid in Hp.
      assert (Hon' : onGrid w2 o).
      { unfold onGrid in *. rewrite Elayer, Eposition, Esize, Eid in Hon.
        exact Hon. }
      destruct (IH (done ++ [o]) w2) as (w' & Hloop & Hi' & Hw' & Hh' & Ho' & Hg' & Hn').
      * rewrite <- app_assoc. exact Hnd.
      * rewrite <- app_assoc. intros o' Hin.
        apply (initializable_session (World._gameSession w));
          [rewrite <- Hs1; exact Hsession|exact (Hable o' Hin)].
      * rewrite <- app_assoc. intros o' Hin.
        apply (stable_fits w1 w2 _ _ Hst). unfold fits. rewrite Hw1, Hh1.
        apply Hfits, Hin.
      * rewrite <- app_assoc. exact Hapart.
      * rewrite (stable_isInitialized _ _ Hst), Hi1. exact Hinit.
      * apply (stable_allocated w1 w2 Hst).
        intros row Hrow. rewrite Hh1 in Hrow. destruct (Hal row Hrow) as [Hr Hc].
        split; [rewrite Hm1; exact Hr|].
        intros col Hcol. rewrite Hw1 in Hcol. rewrite Hslot1. apply Hc, Hcol.
      * rewrite (stable_objects _ _ Hst), Ho1.
        rewrite !fmap_app, <- app_assoc. reflexivity.
      * intros o' Hin. apply elem_of_app in Hin as [Hin|Hin].
        -- intros c Hc. unfold cellAt. rewrite Hframe, Hslot1.
           ++ apply (Hgrid o' Hin c Hc).
           ++ apply (Hapart o' o); [apply elem_of_app; left; exact Hin|exact Ho| |].
              ** intros Heq. rewrite fmap_app, fmap_cons in Hnd.
                 apply NoDup_app in Hnd as (_ & Hnd & _).
                 apply (Hnd (WorldObject.id o')); [|rewrite Heq; left].
                 apply list_elem_of_fmap. eauto.
              ** unfold addresses. apply list_elem_of_fmap. eauto.
        -- apply list_elem_of_singleton in Hin. subst o'. exact Hon'.
      * intros row col Hrow Hcol Hout.
        rewrite (stable_height _ _ Hst), Hh1 in Hrow.
        rewrite (stable_width _ _ Hst), Hw1 in Hcol.
        rewrite Hframe, Hslot1.
        -- apply Hnull; [assumption..|].
           intros o' Hin. apply Hout, elem_of_app. left. exact Hin.
        -- apply Hout, elem_of_app. right. left.
      * exists w'. rewrite <- app_assoc in Ho', Hg', Hn'.
        rewrite (stable_height _ _ Hst), Hh1 in Hh', Hn'.
        rewrite (stable_width _ _ Hst), Hw1 in Hw', Hn'.
        split; [|repeat split; assumption].
        rewrite fmap_cons. cbn [forEach]. unfold bind at 1. unfold bind at 1.
        rewrite Hio. unfold bind at 1. rewrite Hp. unfold ret at 1.
        exact Hloop.
Qed.

(** [init] on a world built with objects.  When the objects given to
    the constructor have distinct identities, an [init] that completes
    (none is a player that is not initialized, or a game session is
    given), stored rectangles inside the extent and address pairwise
    different slots, [init] returns normally, every object is registered, initialized, in the order
    given, every cell of every stored rectangle reads the identity of
    its object, and every other slot of the extent still reads [null]. *)
Theorem init_places_the_given_objects
    (i : string) (width height : Z) (os : list WorldObject.t)
    (gameSession : option GameSession.t) :
  NoDup (WorldObject.id <$> os) →
  (∀ o, o ∈ os → initializable gameSession o) →
  (∀ o, o ∈ os →
     fits (World.new (World.mkProps i width height (Some os)))
          (WorldObject.position o) (WorldObject.size o)) →
  (∀ o1 o2, o1 ∈ os → o2 ∈ os → WorldObject.id o1 ≠ WorldObject.id o2 →
     ∀ a, a ∈ addresses o1 → a ∉ addresses o2) →
  ∃ w',
    World.init gameSession
      (World.new (World.mkProps i width height (Some os)))
    = (Normal tt, w')
    ∧ World._isInitialized w' = true
    ∧ World.objects w' = entry <$> (WorldObject.init <$> os)
    ∧ (∀ o, o ∈ os → onGrid w' o)
    ∧ (∀ row col,
         0 ≤ row < height → 0 ≤ col < width * WorldObjectLayerCount →
         (∀ o, o ∈ os → (row, col) ∉ addresses o) →
         slot w' row col = null).
Proof.
  intros Hnd Hable Hfits Hapart.
  set (w := World.new (World.mkProps i width height (Some os))) in *.
  set (w0 := World.with_isInitialized true
               (match gameSession with
                | Some g => World.with_gameSession (Some g) w
                | None => w
                end)).
  assert (Hshape : World.width w0 = width ∧ World.height w0 = height
                   ∧ World._map w0 = World._map w
                   ∧ World.objects w0 = World.objects w
                   ∧ World._isInitialized w0 = true
                   ∧ World._gameSession w0 = gameSession)
    by (unfold w0; destruct gameSession; repeat split).
  destruct Hshape as (Hw0 & Hh0 & Hm0 & Ho0 & Hi0 & Hs0).
  assert (Hslot0 : ∀ row col, slot w0 row col = slot w row col)
    by (intros; unfold slot; rewrite Hm0; reflexivity).
  destruct (init_loop os [] w0) as (w' & Hloop & Hi' & _ & _ & Ho' & Hg' & Hn').
  - exact Hnd.
  - rewrite Hs0. exact Hable.
  - intros o Ho. specialize (Hfits o Ho). unfold fits in *.
    rewrite Hw0, Hh0. exact Hfits.
  - exact Hapart.
  - exact Hi0.
  - intros row Hrow. rewrite Hh0 in Hrow.
    destruct (new_allocated (World.mkProps i width height (Some os)) row Hrow)
      as [Hr Hc].
    split; [rewrite Hm0; exact Hr|].
    intros col Hcol. rewrite Hw0 in Hcol. rewrite Hslot0. apply Hc, Hcol.
  - rewrite Ho0. unfold w. rewrite new_objects by assumption. reflexivity.
  - intros o Ho. inversion Ho.
  - intros row col Hrow Hcol _. rewrite Hh0 in Hrow. rewrite Hw0 in Hcol.
    rewrite Hslot0. apply new_slot; assumption.
  - exists w'. rewrite Hw0, Hh0 in Hn'. simpl in Ho', Hg', Hn'.
    split; [|repeat split; assumption].
    unfold World.init. unfold bind at 1, modify at 1.
    unfold bind at 1, modify at 1. unfold bind at 1, get at 1.
    fold w0. rewrite Ho0. unfold w. rewrite new_objects by assumption.
    unfold JsMap.keys. rewrite <- list_fmap_compose.
    exact Hloop.
Qed.

Lemma init_places_the_given_objects_witness :
  ∃ w',
    World.init None
      (World.new (World.mkProps "test" 10 10
         (Some [Brick "A" (at_ 0 0); Beam "B" (at_ 2 0);
                Brick "C" (at_ 9 9)])))
    = (Normal tt, w')
    ∧ World._isInitialized w' = true
    ∧ World.objects w'
      = entry <$> (WorldObject.init
                     <$> [Brick "A" (at_ 0 0); Beam "B" (at_ 2 0);
                          Brick "C" (at_ 9 9)])
    ∧ (∀ o, o ∈ [Brick "A" (at_ 0 0); Beam "B" (at_ 2 0);
                 Brick "C" (at_ 9 9)] → onGrid w' o)
    ∧ (∀ row col,
         0 ≤ row < 10 → 0 ≤ col < 10 * WorldObjectLayerCount →
         (∀ o, o ∈ [Brick "A" (at_ 0 0); Beam "B" (at_ 2 0);
                    Brick "C" (at_ 9 9)] → (row, col) ∉ addresses o) →
         slot w' row col = null).
Proof.
  apply (init_places_the_given_objects "test" 10 10
           [Brick "A" (at_ 0 0); Beam "B" (at_ 2 0); Brick "C" (at_ 9 9)]
           None).
  - apply (bool_decide_unpack _). vm_compute. reflexivity.
  - apply Forall_forall.
    repeat (apply Forall_cons_2; [right; left; discriminate|]).
    apply Forall_nil_2.
  - apply Forall_forall. repeat constructor; vm_compute; discriminate.
  - assert (H : Forall (λ o1, Forall (λ o2,
                  WorldObject.id o1 ≠ WorldObject.id o2 →
                  Forall (λ a, a ∉ addresses o2) (addresses o1))
                  [Brick "A" (at_ 0 0); Beam "B" (at_ 2 0);
                   Brick "C" (at_ 9 9)])
                  [Brick "A" (at_ 0 0); Beam "B" (at_ 2 0);
                   Brick "C" (at_ 9 9)])
      by (apply (bool_decide_unpack _); vm_compute; reflexivity).
    intros o1 o2 H1 H2 Hne a Ha.
    rewrite Forall_forall in H. specialize (H o1 H1).
    rewrite Forall_forall in H. specialize (H o2 H2 Hne).
    rewrite Forall_forall in H. exact (H a Ha).
Defined.

(** * installAndPlaceObject *)

Lemma JsMap_get_None {V} k (m : JsMap.t V) :
  JsMap.get k m = None → k ∉ m.*1.
Proof.
  unfold JsMap.t in *. induction m as [|[k' v'] m IH]; simpl.
  - intros _ Hin. inversion Hin.
  - destruct (decide (k' = k)) as [->|Hne]; [discriminate|].
    intros Hget. apply not_elem_of_cons. split; [congruence|apply IH, Hget].
Qed.

Lemma placeObject_rejects w object position :
  World._isInitialized w = true →
  JsMap.get (WorldObject.id object) (World.objects w) = Some object →
  ¬ fits w (default (WorldObject.position object) position)
           (WorldObject.size object) →
  World.placeObject (WorldObject.id object) position w = (Normal None, w).
Proof.
  intros Hinit Hget Hout. rewrite placeObject_registered by assumption.
  unfold bind. rewrite restructureMap_rejects by assumption. reflexivity.
Qed.

(** [installAndPlaceObject] of an object whose identity the registry
    does not hold, whose [init] completes (it is initialized, or not a
    player, or the world has a game session), and whose stored rectangle
    fits the extent and covers cells that read [null]: the stored position is returned, the object is appended
    to the registry, initialized, every cell of the rectangle reads its
    identity and no other slot changes. *)
Theorem installAndPlaceObject_places (w : World.t) (object : WorldObject.t) :
  World._isInitialized w = true → allocated w →
  JsMap.get (WorldObject.id object) (World.objects w) = None →
  initializable (World._gameSession w) object →
  fits w (WorldObject.position object) (WorldObject.size object) →
  (∀ c, c ∈ footprint (WorldObject.position object) (WorldObject.size object) →
        cellAt w (WorldObject.layer object) c = null) →
  ∃ w',
    World.installAndPlaceObject object w
    = (Normal (Some (WorldObject.position object)), w')
    ∧ World.objects w'
      = World.objects w ++ [entry (WorldObject.init object)]
    ∧ onGrid w' object
    ∧ (∀ row col, (row, col) ∉ addresses object →
         slot w' row col = slot w row col).
Proof.
  intros Hinit Hal Hget Hable Hfits Hfree.
  destruct (init_fields object) as (Eid & Elayer & Eposition & Esize & Einit).
  set (w1 := World.with_objects
               (JsMap.set (WorldObject.id object) (WorldObject.init object)) w).
  destruct (with_objects_stable_cells
              (JsMap.set (WorldObject.id object) (WorldObject.init object)) w)
    as (Hi1 & Hw1 & Hh1 & _ & Hm1 & Ho1).
  fold w1 in Hi1, Hw1, Hh1, Hm1, Ho1.
  assert (Hslot1 : ∀ row col, slot w1 row col = slot w row col)
    by (intros; unfold slot; rewrite Hm1; reflexivity).
  destruct (placeObject_at_rest w1 (WorldObject.init object))
    as (w2 & Hp & Hst & Hon & Hframe & _).
  - rewrite Hi1. exact Hinit.
  - intros row Hrow. rewrite Hh1 in Hrow. destruct (Hal row Hrow) as [Hr Hc].
    split; [rewrite Hm1; exact Hr|].
    intros col Hcol. rewrite Hw1 in Hcol. rewrite Hslot1. apply Hc, Hcol.
  - rewrite Ho1, Eid. apply JsMap_get_set.
  - exact Einit.
  - rewrite Eposition, Esize. unfold fits. rewrite Hw1, Hh1. exact Hfits.
  - rewrite Eposition, Esize, Elayer. intros c Hc. unfold cellAt.
    rewrite Hslot1. apply (Hfree c Hc).
  - exists w2. rewrite Eid, Eposition in Hp.
    assert (Haddr : addresses (WorldObject.init object) = addresses object)
      by (unfold addresses; rewrite Elayer, Eposition, Esize; reflexivity).
    rewrite Haddr in Hframe.
    split; [|split; [|split]].
    + unfold World.installAndPlaceObject, bind.
      rewrite installObject_fresh by assumption. cbn [negb]. exact Hp.
    + rewrite (stable_objects _ _ Hst), Ho1.
      rewrite JsMap_set_fresh_end by (apply JsMap_get_None, Hget).
      unfold entry. rewrite Eid. reflexivity.
    + unfold onGrid in *. rewrite Elayer, Eposition, Esize, Eid in Hon.
      exact Hon.
    + intros row col Hout. rewrite Hframe, Hslot1 by assumption. reflexivity.
Qed.

Lemma installAndPlaceObject_places_witness :
  ∃ w',
    World.installAndPlaceObject (Beam "B" (at_ 3 4)) brickWorld
    = (Normal (Some (at_ 3 4)), w')
    ∧ World.objects w'
      = World.objects brickWorld
        ++ [entry (WorldObject.init (Beam "B" (at_ 3 4)))]
    ∧ onGrid w' (Beam "B" (at_ 3 4))
    ∧ (∀ row col, (row, col) ∉ addresses (Beam "B" (at_ 3 4)) →
         slot w' row col = slot brickWorld row col).
Proof.
  apply (installAndPlaceObject_places brickWorld (Beam "B" (at_ 3 4))).
  - vm_compute. reflexivity.
  - apply (bool_decide_unpack _). vm_compute. reflexivity.
  - vm_compute. reflexivity.
  - right. left. discriminate.
  - vm_compute. repeat split; discriminate.
  - apply Forall_forall. apply (bool_decide_unpack _). vm_compute. reflexivity.
Defined.

(** The two ways in which [installAndPlaceObject] returns nothing, and
    the way in which it throws before it places.  For an identity that
    the registry holds, nothing changes, whether that object is on the
    grid or not.  For a new identity whose [init] completes and whose
    stored rectangle does not fit the extent, no slot changes but the
    object stays registered, initialized.  For a new identity whose
    [init] throws, a player in a world without a game session, the call
    throws, no slot changes and the object stays registered, not
    initialized. *)
Theorem installAndPlaceObject_returns_nothing
    (w : World.t) (object : WorldObject.t) :
  World._isInitialized w = true →
  (is_Some (JsMap.get (WorldObject.id object) (World.objects w)) →
   World.installAndPlaceObject object w = (Normal None, w))
  ∧ (JsMap.get (WorldObject.id object) (World.objects w) = None →
     initializable (World._gameSession w) object →
     ¬ fits w (WorldObject.position object) (WorldObject.size object) →
     ∃ w',
       World.installAndPlaceObject object w = (Normal None, w')
       ∧ World._map w' = World._map w
       ∧ JsMap.get (WorldObject.id object) (World.objects w')
         = Some (WorldObject.init object))
  ∧ (JsMap.get (WorldObject.id object) (World.objects w) = None →
     ¬ initializable (World._gameSession w) object →
     ∃ w',
       World.installAndPlaceObject object w
       = (Throw Error_InvalidInitProperties, w')
       ∧ World._map w' = World._map w
       ∧ JsMap.get (WorldObject.id object) (World.objects w') = Some object
       ∧ WorldObject.isInitialized object = false).
Proof.
  intros Hinit. split; [|split].
  - intros [o' Hget].
    unfold World.installAndPlaceObject, World.installObject, bind, get,
      JsMap.has, ret.
    rewrite Hinit, Hget. reflexivity.
  - intros Hget Hable Hout.
    destruct (init_fields object) as (Eid & Elayer & Eposition & Esize & Einit).
    set (w1 := World.with_objects
                 (JsMap.set (WorldObject.id object) (WorldObject.init object))
                 w).
    destruct (with_objects_stable_cells
                (JsMap.set (WorldObject.id object) (WorldObject.init object)) w)
      as (Hi1 & Hw1 & Hh1 & _ & Hm1 & Ho1).
    fold w1 in Hi1, Hw1, Hh1, Hm1, Ho1.
    assert (Hget1 : JsMap.get (WorldObject.id object) (World.objects w1)
                    = Some (WorldObject.init object))
      by (rewrite Ho1; apply JsMap_get_set).
    exists w1. split; [|split; assumption].
    unfold World.installAndPlaceObject, bind.
    rewrite installObject_fresh by assumption. cbn [negb]. fold w1.
    rewrite <- Eid. apply placeObject_rejects.
    + rewrite Hi1. exact Hinit.
    + rewrite Eid. exact Hget1.
    + cbn [default]. rewrite Eposition, Esize. unfold fits.
      rewrite Hw1, Hh1. exact Hout.
  - intros Hget Hable.
    exists (World.with_objects (JsMap.set (WorldObject.id object) object) w).
    split; [|split; [|split]].
    + unfold World.installAndPlaceObject, bind.
      rewrite installObject_throws by assumption. reflexivity.
    + destruct w; reflexivity.
    + destruct w. cbn [World.objects World.with_objects].
      apply JsMap_get_set.
    + apply (objectInit_unable _ _ Hable).
Qed.

Lemma installAndPlaceObject_returns_nothing_witness :
  World.installAndPlaceObject (Brick "A" (at_ 5 5)) brickWorld
  = (Normal None, brickWorld)
  ∧ (∃ w',
      World.installAndPlaceObject (Beam "B" (at_ 9 0)) brickWorld
      = (Normal None, w')
      ∧ World._map w' = World._map brickWorld
      ∧ JsMap.get (WorldObject.id (Beam "B" (at_ 9 0))) (World.objects w')
        = Some (WorldObject.init (Beam "B" (at_ 9 0))))
  ∧ ∃ w',
      World.installAndPlaceObject (Player.new "P" RIGHT (at_ 5 5)).1
        brickWorld
      = (Throw Error_InvalidInitProperties, w')
      ∧ World._map w' = World._map brickWorld
      ∧ JsMap.get "player/P" (World.objects w')
        = Some (Player.new "P" RIGHT (at_ 5 5)).1
      ∧ WorldObject.isInitialized (Player.new "P" RIGHT (at_ 5 5)).1 = false.
Proof.
  split; [|split].
  - apply (installAndPlaceObject_returns_nothing brickWorld
             (Brick "A" (at_ 5 5))).
    + vm_compute. reflexivity.
    + vm_compute. eexists. reflexivity.
  - apply (installAndPlaceObject_returns_nothing brickWorld
             (Beam "B" (at_ 9 0))).
    + vm_compute. reflexivity.
    + vm_compute. reflexivity.
    + right. left. discriminate.
    + vm_compute. intros (_ & _ & H & _). apply H. reflexivity.
  - apply (installAndPlaceObject_returns_nothing brickWorld
             (Player.new "P" RIGHT (at_ 5 5)).1).
    + vm_compute. reflexivity.
    + vm_compute. reflexivity.
    + intros [H|[H|[g H]]];
        [discriminate H|apply H; reflexivity|discriminate H].
Defined.

(** * The session controller *)

Lemma step_id action map position :
  IPosition.id (SessionController.step action map position)
  = IPosition.id position.
Proof.
  unfold SessionController.step.
  destruct action; case_decide; reflexivity.
Qed.

Lemma step_inRange action map position :
  inRange map position →
  inRange map (SessionController.step action map position).
Proof.
  unfold inRange, SessionController.step.
  destruct action; case_decide; simpl; lia.
Qed.

(** [doPlayerAction] keeps the positions in range.  Whatever the
    player and the key, when every position of the state has
    [0 ≤ x ≤ width] and [0 ≤ y ≤ height] before the call, so it has
    after it; the map is the same, and the identities of the players and
    of the positions are the same, in the same order. *)
Theorem doPlayerAction_keeps_positions_in_range
    (playerID : string) (action : KeycodesMap.t) (_state : IGameState.t) :
  Forall (inRange (IGameState.map _state))
         (IGameState.player_positions _state) →
  IGameState.map (SessionController.doPlayerAction playerID action _state)
  = IGameState.map _state
  ∧ Forall (inRange (IGameState.map _state))
      (IGameState.player_positions
         (SessionController.doPlayerAction playerID action _state))
  ∧ IPosition.id
      <$> IGameState.player_positions
            (SessionController.doPlayerAction playerID action _state)
    = IPosition.id <$> IGameState.player_positions _state
  ∧ IPlayer.id
      <$> IGameState.players
            (SessionController.doPlayerAction playerID action _state)
    = IPlayer.id <$> IGameState.players _state.
Proof.
  intros Hrange. unfold SessionController.doPlayerAction.
  destruct (SessionController.findPlayer playerID _) as [[? ?]|];
    [|repeat split; assumption].
  destruct (MOVEMENT_KEYCODES_includes action) as [movement|];
    [|repeat split; assumption].
  unfold SessionController.movePlayer.
  destruct (SessionController.findPosition playerID _)
    as [[j q]|] eqn:Hq; [|repeat split; assumption].
  destruct (SessionController.findPlayer playerID _)
    as [[i p]|] eqn:Hp; [|repeat split; assumption].
  apply list_find_Some in Hq as (Hq & _ & _).
  apply list_find_Some in Hp as (Hp & _ & _).
  case_decide; cbn [IGameState.map IGameState.players
                    IGameState.player_positions].
  - split; [reflexivity|]. split; [assumption|]. split; [reflexivity|].
    rewrite list_fmap_insert. apply list_insert_id.
    rewrite list_lookup_fmap, Hp. reflexivity.
  - split; [reflexivity|]. split; [|split; [|reflexivity]].
    + apply Forall_insert; [assumption|]. apply step_inRange.
      eapply Forall_lookup_1; eassumption.
    + rewrite list_fmap_insert, step_id. apply list_insert_id.
      rewrite list_lookup_fmap, Hq. reflexivity.
Qed.

Lemma doPlayerAction_keeps_positions_in_range_witness :
  let _state :=
    {| IGameState.map := IMap.mk 3 2;
       IGameState.players :=
         [IPlayer.mk "a" "Player 1" CharacterSpriteType.default
            CharacterFacing.right 1 CharacterState.idle 0];
       IGameState.player_positions := [IPosition.mk "a" 2 2] |} in
  IGameState.player_positions
    (SessionController.doPlayerAction "a" KeycodesMap.keyright _state)
  = [IPosition.mk "a" 3 2]
  ∧ Forall (inRange (IGameState.map _state))
      (IGameState.player_positions
         (SessionController.doPlayerAction "a" KeycodesMap.keyright _state)).
Proof.
  intros _state. split; [vm_compute; reflexivity|].
  apply (doPlayerAction_keeps_positions_in_range "a" KeycodesMap.keyright
           _state).
  repeat constructor; simpl; lia.
Defined.

(** [movePlayer] turns before it moves.  For a player whose facing
    differs from the one of the key, the first call changes the facing
    of that player and nothing else; a second call with the same key
    leaves the players and applies one step to the position of the
    player. *)
Theorem movePlayer_turns_before_it_moves
    (playerID : string) (action : IMovementKeycodes.t)
    (_state : IGameState.t) (i j : nat) (p : IPlayer.t) (q : IPosition.t) :
  SessionController.findPlayer playerID (IGameState.players _state)
  = Some (i, p) →
  SessionController.findPosition playerID
    (IGameState.player_positions _state) = Some (j, q) →
  IPlayer.facing p ≠ MAPPED_MOVEMENT_AND_FACING action →
  let turned := SessionController.movePlayer playerID action _state in
  let moved := SessionController.movePlayer playerID action turned in
  IGameState.player_positions turned = IGameState.player_positions _state
  ∧ IGameState.players turned
    = <[i := IPlayer.with_facing (MAPPED_MOVEMENT_AND_FACING action) p]>
        (IGameState.players _state)
  ∧ IGameState.players moved = IGameState.players turned
  ∧ IGameState.player_positions moved
    = <[j := SessionController.step action (IGameState.map _state) q]>
        (IGameState.player_positions _state).
Proof.
  intros Hp Hq Hne turned moved.
  assert (Hturned : turned
    = {| IGameState.map := IGameState.map _state;
         IGameState.players :=
           <[i := IPlayer.with_facing (MAPPED_MOVEMENT_AND_FACING action) p]>
             (IGameState.players _state);
         IGameState.player_positions :=
           IGameState.player_positions _state |}).
  { unfold turned, SessionController.movePlayer. rewrite Hq, Hp.
    rewrite decide_True by assumption. reflexivity. }
  assert (Hp' : SessionController.findPlayer playerID
                  (IGameState.players turned)
                = Some (i, IPlayer.with_facing
                             (MAPPED_MOVEMENT_AND_FACING action) p)).
  { rewrite Hturned. cbn [IGameState.players].
    unfold SessionController.findPlayer in *.
    apply list_find_Some in Hp as (Hl & Hid & Hfirst).
    apply list_find_Some. split; [|split].
    - apply list_lookup_insert_eq. eapply lookup_lt_Some, Hl.
    - exact Hid.
    - intros k y Hk Hlt. rewrite list_lookup_insert_ne in Hk by lia.
      eapply Hfirst; eassumption. }
  subst moved. clearbody turned. subst turned.
  cbn [IGameState.players IGameState.player_positions IGameState.map] in *.
  split; [reflexivity|]. split; [reflexivity|].
  unfold SessionController.movePlayer.
  cbn [IGameState.players IGameState.player_positions IGameState.map].
  rewrite Hq, Hp'. cbn [IPlayer.with_facing IPlayer.facing].
  rewrite decide_False by (intros H; apply H; reflexivity).
  split; reflexivity.
Qed.

Lemma movePlayer_turns_before_it_moves_witness :
  let _state :=
    (SessionController.addNewPlayer "a"
       (SessionController.new (IMap.mk 3 2))).2 in
  let turned :=
    SessionController.movePlayer "a" IMovementKeycodes.keyright _state in
  let moved :=
    SessionController.movePlayer "a" IMovementKeycodes.keyright turned in
  IGameState.player_positions turned = [IPosition.mk "a" 0 0]
  ∧ IPlayer.facing <$> IGameState.players turned = [CharacterFacing.right]
  ∧ IGameState.players moved = IGameState.players turned
  ∧ IGameState.player_positions moved = [IPosition.mk "a" 1 0].
Proof.
  intros _state turned moved.
  destruct (movePlayer_turns_before_it_moves "a" IMovementKeycodes.keyright
              _state 0
              0 (IPlayer.mk "a" "Player 1" CharacterSpriteType.default
                   CharacterFacing.down 1 CharacterState.idle 0)
              (IPosition.mk "a" 0 0))
    as (H1 & H2 & H3 & H4).
  - vm_compute. reflexivity.
  - vm_compute. reflexivity.
  - discriminate.
  - fold turned in H1, H2, H3, H4. fold moved in H3, H4.
    rewrite H1, H3, H2, H4. repeat split.
Defined.

(** Adding a player whose identity the state does not hold and
    removing it again gives the state back. *)
Theorem addNewPlayer_then_removePlayer
    (id : string) (_state : IGameState.t) :
  id ∉ IPlayer.id <$> IGameState.players _state →
  id ∉ IPosition.id <$> IGameState.player_positions _state →
  SessionController.removePlayer id
    (SessionController.addNewPlayer id _state).2
  = _state.
Proof.
  intros Hplayers Hpositions. destruct _state as [map players positions].
  cbn [IGameState.players IGameState.player_positions] in *.
  unfold SessionController.addNewPlayer, SessionController.removePlayer,
    SessionController.findPlayer, SessionController.findPosition.
  cbn [snd IGameState.players IGameState.player_positions IGameState.map
       IPlayer.id].
  assert (Hf1 : list_find (λ player, IPlayer.id player = id) players = None).
  { apply list_find_None, Forall_forall. intros x Hx Heq. apply Hplayers.
    apply list_elem_of_fmap. eauto. }
  assert (Hf2 : list_find (λ position, IPosition.id position = id) positions
                = None).
  { apply list_find_None, Forall_forall. intros x Hx Heq. apply Hpositions.
    apply list_elem_of_fmap. eauto. }
  rewrite (list_find_app_r _ players) by exact Hf1.
  rewrite (list_find_app_r _ positions) by exact Hf2.
  cbn [list_find IPlayer.id IPosition.id].
  rewrite !decide_True by reflexivity.
  cbn [fmap option_fmap option_map prod_map fst snd].
  f_equal.
  - change (0 + length players)%nat with (length players).
    rewrite delete_middle. apply app_nil_r.
  - change (0 + length positions)%nat with (length positions).
    rewrite delete_middle. apply app_nil_r.
Qed.

Lemma addNewPlayer_then_removePlayer_witness :
  let _state :=
    (SessionController.addNewPlayer "a"
       (SessionController.new (IMap.mk 3 2))).2 in
  SessionController.removePlayer "b"
    (SessionController.addNewPlayer "b" _state).2
  = _state.
Proof.
  intros _state. apply (addNewPlayer_then_removePlayer "b" _state).
  - vm_compute. intros H. apply list_elem_of_singleton in H. discriminate.
  - vm_compute. intros H. apply list_elem_of_singleton in H. discriminate.
Defined.
